(** * Spider ambient synth: the musical clock, the scale quantizer, the pluck
      pool, the ADSR envelope, the delay/reverb "space" mapping and the scene
      crossfade of the ESP32 pad sketch, embedded shallowly.

    Conventions of the embedding.
    - C++ integers are [Z]; the width of each variable is written out where
      the code can wrap ([u16], [u32], [u64]).
    - C++ [float] values are rationals [Q].  The first embedding of each
      function computes on them exactly, without IEEE rounding, infinities
      or NaN.  Where a statement depends on rounding, the function is
      embedded a second time with every float operation rounded to nearest
      even on a 24-bit significand ([rn24]; [adsr_step_f],
      [scene_crossfade_f]): each operation has its own rounding, as in the
      C++ expression without fused multiply-add, and the exponent range of
      binary32 is not part of it.  Module [B32] embeds the float-to-integer
      conversions, the envelope, the interpolation and the space mapping
      once more on IEEE binary32 bit patterns, and the rational embeddings
      are checked against it.
    - libm functions ([sqrtf], [expf], [logf], [powf]) are not part of the
      sketch; they are section variables, and a statement that needs a
      property of one of them takes it as a hypothesis.
    - globals and function-local statics become explicit state; a function
      that could read or write outside an array returns [option]. *)

From stdpp Require Import base list.
From Stdlib Require Import ZArith QArith Qround Qabs Qpower Lqa Lia Bool.
From Stdlib Require Floats.SpecFloat.

Local Open Scope Z_scope.

(** ** Machine integers *)

Definition u16 (x : Z) : Z := x mod 2 ^ 16.
Definition u32 (x : Z) : Z := x mod 2 ^ 32.
Definition u64 (x : Z) : Z := x mod 2 ^ 64.

(** A C float-to-integer conversion truncates toward zero. *)
Definition Qtrunc (q : Q) : Z := Z.quot (Qnum q) (Zpos (Qden q)).

(** Arduino's [constrain(amt, low, high)] macro. *)
Definition constrain (amt low high : Q) : Q :=
  if Qlt_le_dec amt low then low
  else if Qlt_le_dec high amt then high else amt.

(** Clamp of an [int] to [lo..hi] by two [if]s. *)
Definition clamp_int (x lo hi : Z) : Z :=
  let x := if x <? lo then lo else x in
  if hi <? x then hi else x.

(** Audio constants. *)
Definition SR : Z := 44100.
Definition CHUNK : Z := 256.

(** ** Musical clock *)

Record Clock16 := mkClock16 {
  smpNow : Z;          (* uint64_t: running sample counter *)
  nextTickAt : Z;      (* uint64_t: absolute sample index of next 1/16 tick *)
  samplesPerTick : Z;  (* uint32_t *)
  step16 : Z;          (* uint16_t: 0..15 *)
  bpm : Z              (* uint16_t: cached tempo *)
}.

Definition clampTempo (b : Z) : Z :=
  if b <? 30 then 30 else if 240 <? b then 240 else b.

(** [(uint32_t)((SR * 60.0f) / (bpm * 4.0f) + 0.5f)] after [bpm] has been
    raised to 30. *)
Definition clock_spt_from_bpm (bpm : Z) : Z :=
  let bpm := if bpm <? 30 then 30 else bpm in
  u32 (Qtrunc ((inject_Z SR * 60) / (inject_Z bpm * 4) + (1 # 2))%Q).

Definition clock_init (bpm : Z) : Clock16 :=
  let spt := clock_spt_from_bpm bpm in
  {| bpm := u16 bpm;
     samplesPerTick := spt;
     smpNow := 0;
     nextTickAt := spt;
     step16 := 0 |}.

Definition clock_update_tempo_if_changed (c : Clock16) (b : Z) : Clock16 :=
  if negb (b =? bpm c) then
    let spt := clock_spt_from_bpm b in
    {| bpm := u16 b;
       samplesPerTick := spt;
       smpNow := smpNow c;
       nextTickAt := u64 (smpNow c + spt);
       step16 := step16 c |}
  else c.

(** One pass through the body of the while loop, after [onStep16] has run:
    the step index moves on modulo 16 and the tick target by one tick. *)
Definition clock_tick (c : Clock16) : Clock16 :=
  {| smpNow := smpNow c;
     nextTickAt := u64 (nextTickAt c + samplesPerTick c);
     samplesPerTick := samplesPerTick c;
     step16 := u16 (Z.land (u32 (step16 c + 1)) 15);
     bpm := bpm c |}.

Definition clock_set_now (c : Clock16) (t : Z) : Clock16 :=
  {| smpNow := t;
     nextTickAt := nextTickAt c;
     samplesPerTick := samplesPerTick c;
     step16 := step16 c;
     bpm := bpm c |}.

Section ClockAdvance.
(** The clock calls [onStep16]; what that callback does to the rest of the
    program is a state transformer on a world [W] the clock never reads. *)
Context {W : Type} (onStep16 : Z -> W -> W).

(** [while (c.nextTickAt <= blockEnd) { ... }].  The loop need not
    terminate (a zero [samplesPerTick] spins for ever), so it runs on fuel:
    [None] means the fuel ran out with the guard still true. *)
Fixpoint clock_loop (fuel : nat) (blockEnd : Z) (c : Clock16) (w : W)
  : option (Clock16 * W) :=
  if nextTickAt c <=? blockEnd then
    match fuel with
    | O => None
    | S fuel' =>
        clock_loop fuel' blockEnd (clock_tick c) (onStep16 (step16 c) w)
    end
  else Some (c, w).

Definition clock_advance_block (fuel : nat) (c : Clock16) (blockSamples : Z)
    (w : W) : option (Clock16 * W) :=
  let blockEnd := u64 (smpNow c + blockSamples) in
  match clock_loop fuel blockEnd c w with
  | Some (c', w') => Some (clock_set_now c' blockEnd, w')
  | None => None
  end.

(** The render loop calls [clock_advance_block] once per block. *)
Fixpoint clock_run (fuel : nat) (blocks : list Z) (c : Clock16) (w : W)
  : option (Clock16 * W) :=
  match blocks with
  | [] => Some (c, w)
  | b :: rest =>
      match clock_advance_block fuel c b w with
      | Some (c', w') => clock_run fuel rest c' w'
      | None => None
      end
  end.
End ClockAdvance.

(** The callback that only records the step index it is given. *)
Definition record_step (step : Z) (trace : list Z) : list Z := trace ++ [step].

(** The events a clock fires in its first [n] ticks: 0, 1, ..., 15, 0, ... *)
Definition step_events (n : Z) : list Z :=
  map (fun i => Z.of_nat i mod 16) (seq 0 (Z.to_nat n)).

Definition sum_blocks (blocks : list Z) : Z := fold_right Z.add 0 blocks.

(** [fire h k n w]: the callback [h] applied for ticks [k], [k+1], ...,
    [k+n-1] in that order, each with its step index modulo 16. *)
Fixpoint fire {W : Type} (h : Z -> W -> W) (k : Z) (n : nat) (w : W) : W :=
  match n with
  | O => w
  | S n' => fire h (k + 1) n' (h (k mod 16) w)
  end.

(** The clock after [k] ticks have fired, at sample time [now]. *)
Definition clock_at (spt b now k : Z) : Clock16 :=
  {| smpNow := now;
     nextTickAt := spt * (k + 1);
     samplesPerTick := spt;
     step16 := k mod 16;
     bpm := b |}.


(** ** Scales and the quantizer *)

Inductive Scale := SCALE_C_MINOR | SCALE_A_MINOR | SCALE_D_DORIAN | SCALE_C_LYDIAN.

Record ScaleDef := mkScaleDef {
  rootPC : Z;          (* uint8_t: 0..11 *)
  degrees : list Z;    (* uint8_t[7]: pitch-class offsets from the root *)
  count : Z            (* uint8_t: always 7 here *)
}.

(** The [SCALES] table, row for row. *)
Definition scaleDef (s : Scale) : ScaleDef :=
  match s with
  | SCALE_C_MINOR  => mkScaleDef 0 [0; 2; 4; 6; 7; 9; 11] 7
  | SCALE_A_MINOR  => mkScaleDef 9 [0; 2; 3; 5; 7; 8; 10] 7
  | SCALE_D_DORIAN => mkScaleDef 2 [0; 2; 3; 5; 7; 9; 10] 7
  | SCALE_C_LYDIAN => mkScaleDef 0 [0; 2; 4; 6; 7; 9; 11] 7
  end.

Definition all_scales : list Scale :=
  [SCALE_C_MINOR; SCALE_A_MINOR; SCALE_D_DORIAN; SCALE_C_LYDIAN].

(** The degrees the loops [for (i = 0; i < sd.count; ++i)] visit. *)
Definition scale_degrees (sd : ScaleDef) : list Z :=
  take (Z.to_nat (count sd)) (degrees sd).

(** The lambda [pc12]: C's [%] truncates, so a negative remainder is lifted. *)
Definition pc12 (m : Z) : Z :=
  let x := Z.rem m 12 in if x <? 0 then x + 12 else x.

(** The signed distance from pitch class [inPC] to [targetPC], folded into
    -6..6 the way the loop body does it. *)
Definition wrap_dist (targetPC inPC : Z) : Z :=
  let d := targetPC - inPC in
  let d := if 6 <? d then d - 12 else d in
  if d <? -6 then d + 12 else d.

(** One pass of the loop body over the pair [(bestDiff, bestAbs)]. *)
Definition quantize_step (root inPC : Z) (best : Z * Z) (deg : Z) : Z * Z :=
  let '(bestDiff, bestAbs) := best in
  let targetPC := Z.rem (root + deg) 12 in
  let d := wrap_dist targetPC inPC in
  let ad := if 0 <=? d then d else - d in
  if (ad <? bestAbs) || ((ad =? bestAbs) && (bestDiff <? d))
  then (d, ad) else (bestDiff, bestAbs).

(** The shift the loop settles on. *)
Definition quantize_shift (midi : Z) (s : Scale) : Z :=
  let sd := scaleDef s in
  fst (fold_left (quantize_step (rootPC sd) (pc12 midi)) (scale_degrees sd) (127, 128)).

Definition quantizeMidi (midi : Z) (s : Scale) : Z :=
  let out := midi + quantize_shift midi s in
  let out := if out <? 0 then 0 else out in
  if 127 <? out then 127 else out.

(** The pitch classes of a scale: root plus degree, modulo 12. *)
Definition scale_pcs (s : Scale) : list Z :=
  map (fun deg => Z.rem (rootPC (scaleDef s) + deg) 12) (scale_degrees (scaleDef s)).

Definition in_scale (s : Scale) (m : Z) : Prop := pc12 m ∈ scale_pcs s.

Definition in_scaleb (s : Scale) (m : Z) : bool :=
  existsb (Z.eqb (pc12 m)) (scale_pcs s).

(** ** Pseudo-random numbers *)

(** [rng32]: xorshift32 on the global [gRng32]; the new state is returned. *)
Definition rng32 (g : Z) : Z :=
  let x := g in
  let x := Z.lxor x (u32 (Z.shiftl x 13)) in
  let x := Z.lxor x (Z.shiftr x 17) in
  let x := Z.lxor x (u32 (Z.shiftl x 5)) in
  x.

(** [rand01]: the draw and the new generator state. *)
Definition rand01 (g : Z) : Q * Z :=
  let x := rng32 g in ((inject_Z x * (1 / 4294967296))%Q, x).

(** Float comparisons as booleans. *)
Definition Qltb (x y : Q) : bool := negb (Qle_bool y x).
Definition Qleb (x y : Q) : bool := Qle_bool x y.

(** ** pickAmbientNote *)

(** The candidate pool: for octaves 2..6, the scale degrees above the octave
    root that fall in 36..96, in the order the loops append them. *)
Definition ambient_pool (s : Scale) : list Z :=
  let sd := scaleDef s in
  flat_map (fun octave =>
              let base := octave * 12 + rootPC sd in
              filter (fun m => 36 <= m <= 96)
                     (map (fun deg => base + deg) (scale_degrees sd)))
           [2; 3; 4; 5; 6].

(** [cand += (rng32() & 1) ? +7 : -5]. *)
Definition nudge (cand g : Z) : Z * Z :=
  let x := rng32 g in
  (cand + (if Z.land x 1 =? 0 then -5 else 7), x).

(** [pickAmbientNote(s, center)] over its static [last] and the generator:
    the result is (note, last', gRng32'); [None] when the pool is empty (the
    C code would divide by zero). *)
Definition pickAmbientNote (s : Scale) (last g : Z) : option (Z * Z * Z) :=
  let pool := ambient_pool s in
  let n := Z.of_nat (length pool) in
  if n =? 0 then None else
  let g := rng32 g in
  cand ← pool !! Z.to_nat (g mod n);
  let '(u, g) := rand01 g in
  if Qltb u (1 # 10) then Some (last, last, g) else
  let '(u, g) := rand01 g in
  let '(cand, g) := if Qltb u (15 # 100) then nudge cand g else (cand, g) in
  let '(cand, g) := if Z.abs (cand - last) <? 3 then nudge cand g else (cand, g) in
  let cand := clamp_int cand 36 96 in
  let cand := quantizeMidi cand s in
  Some (cand, cand, g).

(** ** ADSR envelope *)

Inductive EnvState := ENV_IDLE | ENV_ATTACK | ENV_DECAY | ENV_SUSTAIN | ENV_RELEASE.

(** [struct ADSR]; the time constants [a], [d], [s], [r] carry a prefix. *)
Record ADSR := mkADSR {
  adsr_a : Q; adsr_d : Q; adsr_s : Q; adsr_r : Q;
  env : Q;
  st : EnvState;
  gate : bool
}.

Definition ADSR_default : ADSR :=
  mkADSR (3 # 1000) (80 # 1000) 0 (60 # 1000) 0 ENV_IDLE false.

(** Assignment to [e.env] and [e.st]. *)
Definition adsr_with (e : ADSR) (env' : Q) (st' : EnvState) : ADSR :=
  mkADSR (adsr_a e) (adsr_d e) (adsr_s e) (adsr_r e) env' st' (gate e).

(** [(t <= 0.0f) ? 1.0f : 1.0f / (t * sr)] *)
Definition adsr_rate (t sr : Q) : Q :=
  if Qleb t 0 then 1%Q else (1 / (t * sr))%Q.

(** [adsr_step]: the envelope after one sample; the C function also returns
    the new [e.env]. *)
Definition adsr_step (e : ADSR) (sr : Q) : ADSR :=
  match st e with
  | ENV_ATTACK =>
      let inc := adsr_rate (adsr_a e) sr in
      let env1 := (env e + inc)%Q in
      if Qleb 1 env1 then adsr_with e 1 ENV_DECAY
      else adsr_with e env1 ENV_ATTACK
  | ENV_DECAY =>
      let dec := adsr_rate (adsr_d e) sr in
      let env1 := (env e - dec * (1 - adsr_s e))%Q in
      if Qleb env1 (adsr_s e) then adsr_with e (adsr_s e) ENV_SUSTAIN
      else adsr_with e env1 ENV_DECAY
  | ENV_SUSTAIN =>
      if negb (gate e) then adsr_with e (env e) ENV_RELEASE else e
  | ENV_RELEASE =>
      let dec := adsr_rate (adsr_r e) sr in
      let env1 := (env e - dec * env e)%Q in
      if Qleb env1 (8 # 10000) then adsr_with e 0 ENV_IDLE
      else adsr_with e env1 ENV_RELEASE
  | ENV_IDLE => adsr_with e 0 ENV_IDLE
  end.

(** [n] calls of [adsr_step] in a row. *)
Fixpoint adsr_run (n : nat) (e : ADSR) (sr : Q) : ADSR :=
  match n with
  | O => e
  | S n' => adsr_run n' (adsr_step e sr) sr
  end.

(** ** Pluck voices *)

Record PluckVoice := mkPluckVoice {
  active : bool;
  midi : Z;
  freqHz : Q;
  phase : Q;
  vel : Q;
  eg : ADSR;
  pan : Q
}.

Definition PluckVoice_default : PluckVoice :=
  mkPluckVoice false 60 (26163 # 100) 0 (7 # 10) ADSR_default 0.

(** [struct PluckPool]: the array [v[4]], [gain] and [inited]. *)
Record PluckPool := mkPluckPool {
  pool_v : list PluckVoice;
  pool_gain : Q;
  pool_inited : bool
}.

Definition PluckPool_default : PluckPool :=
  mkPluckPool (replicate 4 PluckVoice_default) (35 # 100) false.

Definition pluck_init (p : PluckPool) : PluckPool :=
  mkPluckPool (replicate 4 PluckVoice_default) (35 # 100) true.

(** First allocation loop: the index of the first inactive voice, counting
    from [i]; -1 when every voice is active. *)
Fixpoint first_inactive (vs : list PluckVoice) (i : Z) : Z :=
  match vs with
  | [] => -1
  | x :: rest => if negb (active x) then i else first_inactive rest (i + 1)
  end.

(** Second allocation loop over the pair [(minEnv, idx)]: a voice takes over
    only when its envelope is strictly below the least one seen so far. *)
Fixpoint quietest (vs : list PluckVoice) (i : Z) (best : Q * Z) : Q * Z :=
  match vs with
  | [] => best
  | x :: rest =>
      quietest rest (i + 1)
        (if Qltb (env (eg x)) (fst best) then (env (eg x), i) else best)
  end.

(** Free voice first, else the quietest; [minEnv] starts at [1e9f]. *)
Definition pluck_alloc (vs : list PluckVoice) : Z :=
  let idx := first_inactive vs 0 in
  if idx <? 0 then snd (quietest vs 0 (1000000000%Q, idx)) else idx.

Section Pluck.
(** libm's [powf]. *)
Variable powf : Q -> Q -> Q.

Definition midiToHz (m : Z) : Q :=
  (440 * powf 2 (inject_Z (m - 69) * (1 / 12)))%Q.

(** [pluck_noteOn]; [gScale] is the global scale.  [None] stands for the
    out-of-bounds access [p.v[-1]] the C code would make if no voice were
    chosen. *)
Definition pluck_noteOn (gScale : Scale) (p : PluckPool) (note : Z) (velocity : Q)
    : option PluckPool :=
  let p := if pool_inited p then p else pluck_init p in
  let idx := pluck_alloc (pool_v p) in
  if idx <? 0 then None else
  old ← pool_v p !! Z.to_nat idx;
  let q := quantizeMidi note gScale in
  let e := eg old in
  let v' :=
    {| active := true;
       midi := q;
       freqHz := midiToHz q;
       phase := 0;
       vel := constrain velocity 0 1;
       eg := mkADSR (adsr_a e) (adsr_d e) (adsr_s e) (adsr_r e) 0 ENV_ATTACK false;
       pan := pan old |} in
  Some (mkPluckPool (<[Z.to_nat idx := v']> (pool_v p)) (pool_gain p) (pool_inited p)).

(** The envelope part of the per-sample voice loop (in [pluck_step] and in
    [loop]): an active voice steps its envelope and is switched off when the
    envelope has reached [ENV_IDLE]. *)
Definition voice_env_step (x : PluckVoice) (sr : Q) : PluckVoice :=
  if active x then
    let e := adsr_step (eg x) sr in
    mkPluckVoice (match st e with ENV_IDLE => false | _ => true end)
      (midi x) (freqHz x) (phase x) (vel x) e (pan x)
  else x.

(** ** Energy mapping and the step scheduler *)

Record EnergyCtrl := mkEnergyCtrl {
  pStrong : Q;
  pEven : Q;
  pOdd : Q;
  ampLfoRateHz : Q;
  ampLfoDepth : Q;
  gestureLambdaHz : Q;
  nextGestureAt : Z
}.

Definition EnergyCtrl_default : EnergyCtrl :=
  mkEnergyCtrl (40 # 100) (22 # 100) (8 # 100) (8 # 100) (25 # 100) (1 / 12) 0.

(** libm's [sqrtf]. *)
Variable sqrtf : Q -> Q.

(** [energy_set], the part that writes [EnergyCtrl] (the pad's LFO fields
    receive copies of [ampLfoRateHz] and [ampLfoDepth]). *)
Definition energy_set (e : EnergyCtrl) (energyPct : Z) : EnergyCtrl :=
  let energyPct := if energyPct <? 0 then 0 else energyPct in
  let energyPct := if 100 <? energyPct then 100 else energyPct in
  let u := (inject_Z energyPct * (1 / 100))%Q in
  let u1 := sqrtf u in
  {| pStrong := constrain ((40 # 100) * ((7 # 10) + (12 # 10) * u1)) (10 # 100) (85 # 100);
     pEven := constrain ((22 # 100) * ((7 # 10) + (12 # 10) * u1)) (5 # 100) (55 # 100);
     pOdd := constrain ((8 # 100) * ((7 # 10) + (12 # 10) * u1)) (2 # 100) (30 # 100);
     ampLfoRateHz := (4 # 100) + ((18 # 100) - (4 # 100)) * u1;
     ampLfoDepth := (15 # 100) + ((32 # 100) - (15 # 100)) * u1;
     gestureLambdaHz := (1 / 30) + ((1 / 6) - (1 / 30)) * u1;
     nextGestureAt := nextGestureAt e |}.

(** What [onStep16] reads and writes besides [gEnergy] and [gScale]: the
    generator, the pool, its own statics [lastBar] and [wob], and the static
    [last] of [pickAmbientNote]. *)
Record StepState := mkStepState {
  gRng32 : Z;
  gPluck : PluckPool;
  lastBar : Z;      (* static uint16_t lastBar = 0 *)
  wob : Q;          (* static float wob = 1.0f *)
  last : Z          (* static int last = 60 *)
}.

Definition StepState_init (seed : Z) : StepState :=
  mkStepState seed PluckPool_default 0 1 60.

(** The trigger probability before clamping, by beat strength. *)
Definition step_probability (gEnergy : EnergyCtrl) (step : Z) (wobble : Q) : Q :=
  if Z.land step 3 =? 0 then (pStrong gEnergy * wobble)%Q
  else if Z.land step 1 =? 0 then (pEven gEnergy * wobble)%Q
  else (pOdd gEnergy * wobble)%Q.

Definition onStep16 (gEnergy : EnergyCtrl) (gScale : Scale) (step : Z)
    (w : StepState) : option StepState :=
  let pluck := if pool_inited (gPluck w) then gPluck w else pluck_init (gPluck w) in
  let bar := u16 (step / 16) in
  let '(lastBar', wob', g) :=
    if negb (bar =? lastBar w) then
      let '(u, g) := rand01 (gRng32 w) in (bar, ((9 # 10) + (2 # 10) * u)%Q, g)
    else (lastBar w, wob w, gRng32 w) in
  let p := constrain (step_probability gEnergy step wob') (2 # 100) (95 # 100) in
  let '(u, g) := rand01 g in
  if Qltb u p then
    '(note, last', g) ← pickAmbientNote gScale (last w) g;
    let '(u, g) := rand01 g in
    let velocity := ((45 # 100) + (50 # 100) * u)%Q in
    pluck' ← pluck_noteOn gScale pluck note velocity;
    Some (mkStepState g pluck' lastBar' wob' last')
  else Some (mkStepState g pluck lastBar' wob' (last w)).

(** [onStep16] as the clock's callback, on a world that may already have
    gone wrong. *)
Definition onStep16_cb (gEnergy : EnergyCtrl) (gScale : Scale) (step : Z)
    (w : option StepState) : option StepState :=
  w ≫= onStep16 gEnergy gScale step.
End Pluck.

(** ** Filters, delay and reverb *)

Definition TAU : Q := 628318530718 # 100000000000.
Definition DELAY_MAX_SAMPLES : Z := 32768.

Inductive DelayMode := DELAY_1_8 | DELAY_1_4.

Definition DelayMode_eqb (m1 m2 : DelayMode) : bool :=
  match m1, m2 with
  | DELAY_1_8, DELAY_1_8 | DELAY_1_4, DELAY_1_4 => true
  | _, _ => false
  end.

Definition Scale_eqb (s1 s2 : Scale) : bool :=
  match s1, s2 with
  | SCALE_C_MINOR, SCALE_C_MINOR | SCALE_A_MINOR, SCALE_A_MINOR
  | SCALE_D_DORIAN, SCALE_D_DORIAN | SCALE_C_LYDIAN, SCALE_C_LYDIAN => true
  | _, _ => false
  end.

(** One-pole low-pass: [y += a * (x - y)]. *)
Record OnePoleLP := mkOnePoleLP { lp_a : Q; lp_y : Q }.

Definition lp_process (f : OnePoleLP) (x : Q) : OnePoleLP * Q :=
  let y := (lp_y f + lp_a f * (x - lp_y f))%Q in
  (mkOnePoleLP (lp_a f) y, y).

(** Clamp to [-1, 1] as the two [if]s before a buffer write do. *)
Definition clamp_unit (wr : Q) : Q :=
  let wr := if Qltb 1 wr then 1%Q else wr in
  if Qltb wr (-1) then (-1)%Q else wr.

(** [(int16_t)(wr * 32767.0f)] *)
Definition to_int16 (wr : Q) : Z := Qtrunc (wr * 32767).

(** [rd * (1.0f / 32767.0f)] *)
Definition of_int16 (rd : Z) : Q := (inject_Z rd * (1 / 32767))%Q.

Record Delay := mkDelay {
  dl_buf : list Z;        (* int16_t buf[DELAY_MAX_SAMPLES] *)
  dl_size : Z;            (* uint32_t *)
  dl_w : Z;               (* uint32_t *)
  dl_dSamp : Z;           (* uint32_t *)
  dl_tone : OnePoleLP;
  dl_baseSend : Q;
  dl_baseWet : Q;
  dl_send : Q;
  dl_wet : Q;
  dl_fb : Q;
  dl_bpmCached : Z;       (* uint16_t *)
  dl_mode : DelayMode;
  dl_inited : bool
}.

Definition Delay_default : Delay :=
  mkDelay (replicate (Z.to_nat DELAY_MAX_SAMPLES) 0) DELAY_MAX_SAMPLES 0 22050
          (mkOnePoleLP 0 0) 0 0 0 0 0 104 DELAY_1_8 false.

Definition delay_samples_from_bpm (b : Z) (m : DelayMode) : Z :=
  let b := if b <? 30 then 30 else b in
  let qnote := ((inject_Z SR * 60) / inject_Z b)%Q in
  let want := match m with DELAY_1_8 => (qnote * (1 # 2))%Q | DELAY_1_4 => qnote end in
  let s := u32 (Qtrunc (want + (1 # 2))) in
  let s := if s <? 1 then 1 else s in
  if DELAY_MAX_SAMPLES <=? s then DELAY_MAX_SAMPLES - 1 else s.

Definition delay_set_mode (dl : Delay) (m : DelayMode) : Delay :=
  mkDelay (dl_buf dl) (dl_size dl) (dl_w dl)
          (delay_samples_from_bpm (dl_bpmCached dl) m)
          (dl_tone dl) (dl_baseSend dl) (dl_baseWet dl) (dl_send dl) (dl_wet dl)
          (dl_fb dl) (dl_bpmCached dl) m (dl_inited dl).

Definition delay_update_tempo_if_changed (dl : Delay) (b : Z) : Delay :=
  if negb (dl_inited dl) then dl
  else if negb (b =? dl_bpmCached dl) then
    mkDelay (dl_buf dl) (dl_size dl) (dl_w dl)
            (delay_samples_from_bpm b (dl_mode dl))
            (dl_tone dl) (dl_baseSend dl) (dl_baseWet dl) (dl_send dl) (dl_wet dl)
            (dl_fb dl) (u16 b) (dl_mode dl) (dl_inited dl)
  else dl.

(** [delay_step]: the wet tap and the delay after one sample.  [None] stands
    for an access outside [buf] (or a zero [size]). *)
Definition delay_step (dl : Delay) (dry : Q) : option (Delay * Q) :=
  if negb (dl_inited dl) then Some (dl, 0%Q) else
  if dl_size dl =? 0 then None else
  let r := u32 (dl_w dl + dl_size dl - dl_dSamp dl) mod dl_size dl in
  r16 ← dl_buf dl !! Z.to_nat r;
  let delayed := of_int16 r16 in
  let '(tone, fbSample) := lp_process (dl_tone dl) delayed in
  let toWrite := clamp_unit (dry * dl_send dl + fbSample * dl_fb dl) in
  if (Z.to_nat (dl_w dl) <? length (dl_buf dl))%nat then
    let buf := <[Z.to_nat (dl_w dl) := to_int16 toWrite]> (dl_buf dl) in
    let w := u32 (dl_w dl + 1) in
    let w := if dl_size dl <=? w then 0 else w in
    Some (mkDelay buf (dl_size dl) w (dl_dSamp dl) tone
                  (dl_baseSend dl) (dl_baseWet dl) (dl_send dl) (dl_wet dl)
                  (dl_fb dl) (dl_bpmCached dl) (dl_mode dl) (dl_inited dl),
          delayed)
  else None.

(** Feeding a sequence of dry samples through the delay. *)
Fixpoint delay_run (dl : Delay) (dries : list Q) : option Delay :=
  match dries with
  | [] => Some dl
  | dry :: rest => '(dl', _) ← delay_step dl dry; delay_run dl' rest
  end.

Record CombLite := mkCombLite {
  cb_buf : list Z; cb_size : Z; cb_w : Z;     (* int16_t*, uint16_t, uint16_t *)
  cb_fb : Q; cb_damp : Q; cb_filt : Q
}.

Record AllpassLite := mkAllpassLite {
  ap_buf : list Z; ap_size : Z; ap_w : Z;
  ap_g : Q
}.

Record ReverbLite := mkReverbLite {
  rv_c : list CombLite;     (* CombLite c[4] *)
  rv_ap1 : AllpassLite;
  rv_ap2 : AllpassLite;
  rv_baseSend : Q;
  rv_baseWet : Q;
  rv_send : Q;
  rv_wet : Q;
  rv_inited : bool
}.

Definition CombLite_default : CombLite :=
  mkCombLite [] 0 0 (62 # 100) (22 # 100) 0.

Definition ReverbLite_default : ReverbLite :=
  mkReverbLite (replicate 4 CombLite_default)
               (mkAllpassLite [] 0 0 (1 # 2)) (mkAllpassLite [] 0 0 (1 # 2))
               0 0 0 0 false.

Definition RV_COMBS : list Z := [1117; 1189; 1277; 1361].
Definition RV_AP1 : Z := 225.
Definition RV_AP2 : Z := 341.

(** [reverb_init]: every comb and allpass gets its zeroed buffer; the comb
    feedback and damping are left as they are. *)
Definition reverb_init (r : ReverbLite) : ReverbLite :=
  mkReverbLite
    (zip_with (fun c n => mkCombLite (replicate (Z.to_nat n) 0) n 0
                                     (cb_fb c) (cb_damp c) 0)
              (rv_c r) RV_COMBS)
    (mkAllpassLite (replicate (Z.to_nat RV_AP1) 0) RV_AP1 0 (1 # 2))
    (mkAllpassLite (replicate (Z.to_nat RV_AP2) 0) RV_AP2 0 (1 # 2))
    (rv_baseSend r) (rv_baseWet r) (rv_send r) (rv_wet r) true.

Definition comb_step (c : CombLite) (x : Q) : option (CombLite * Q) :=
  rd ← cb_buf c !! Z.to_nat (cb_w c);
  let y := of_int16 rd in
  let filt := (cb_filt c + cb_damp c * (y - cb_filt c))%Q in
  let wr := clamp_unit (x + cb_fb c * filt) in
  let buf := <[Z.to_nat (cb_w c) := to_int16 wr]> (cb_buf c) in
  let w := u16 (cb_w c + 1) in
  let w := if cb_size c <=? w then 0 else w in
  Some (mkCombLite buf (cb_size c) w (cb_fb c) (cb_damp c) filt, y).

Definition allpass_step (a : AllpassLite) (x : Q) : option (AllpassLite * Q) :=
  rd ← ap_buf a !! Z.to_nat (ap_w a);
  let z := of_int16 rd in
  let y := (- x + z)%Q in
  let wr := clamp_unit (x + ap_g a * y) in
  let buf := <[Z.to_nat (ap_w a) := to_int16 wr]> (ap_buf a) in
  let w := u16 (ap_w a + 1) in
  let w := if ap_size a <=? w then 0 else w in
  Some (mkAllpassLite buf (ap_size a) w (ap_g a), y).

(** The four [comb_step] calls of [reverb_step], summing their outputs. *)
Fixpoint combs_step (cs : list CombLite) (xin : Q) : option (list CombLite * Q) :=
  match cs with
  | [] => Some ([], 0%Q)
  | c :: rest =>
      '(c', y) ← comb_step c xin;
      '(rest', ys) ← combs_step rest xin;
      Some (c' :: rest', (y + ys)%Q)
  end.

Definition reverb_step (r : ReverbLite) (dry : Q) : option (ReverbLite * Q) :=
  let r := if rv_inited r then r else reverb_init r in
  let xin := (rv_send r * dry)%Q in
  '(cs, y) ← combs_step (rv_c r) xin;
  let y := (y * (1 # 4))%Q in
  '(ap1, y) ← allpass_step (rv_ap1 r) y;
  '(ap2, y) ← allpass_step (rv_ap2 r) y;
  Some (mkReverbLite cs ap1 ap2 (rv_baseSend r) (rv_baseWet r)
                     (rv_send r) (rv_wet r) (rv_inited r), y).

Section Space.
(** libm's [sqrtf] and [expf]. *)
Variable sqrtf : Q -> Q.
Variable expf : Q -> Q.

Definition lp_set (f : OnePoleLP) (cutoffHz sr : Q) : OnePoleLP :=
  mkOnePoleLP (1 - expf (- (TAU * cutoffHz) / sr))%Q (lp_y f).

(** [t = (spacePct <= 0) ? 0 : (spacePct >= 100 ? 1 : spacePct * 0.01f)] *)
Definition space_fraction (spacePct : Z) : Q :=
  if spacePct <=? 0 then 0%Q
  else if 100 <=? spacePct then 1%Q
  else (inject_Z spacePct * (1 # 100))%Q.

Definition reverb_set_space (r : ReverbLite) (spacePct : Z) : ReverbLite :=
  let t := space_fraction spacePct in
  let k := sqrtf t in
  let send := ((70 # 100) * k)%Q in
  let wet := ((35 # 100) * k)%Q in
  let fb := ((45 # 100) + (27 # 100) * k)%Q in
  let fb := if Qltb (75 # 100) fb then (75 # 100)%Q else fb in
  let damp := ((15 # 100) + (20 # 100) * k)%Q in
  mkReverbLite
    (map (fun c => mkCombLite (cb_buf c) (cb_size c) (cb_w c) fb damp (cb_filt c))
         (rv_c r))
    (rv_ap1 r) (rv_ap2 r) send wet send wet (rv_inited r).

(** [delay_set_space] writes the delay and, through the global [gReverb],
    the reverb. *)
Definition delay_set_space (dl : Delay) (gReverb : ReverbLite) (spacePct : Z)
    : Delay * ReverbLite :=
  let t := space_fraction spacePct in
  let k := sqrtf t in
  let send := ((75 # 100) * k)%Q in
  let wet := ((55 # 100) * k)%Q in
  let fb := ((55 # 100) * k)%Q in
  let fb := if Qltb (6 # 10) fb then (6 # 10)%Q else fb in
  (mkDelay (dl_buf dl) (dl_size dl) (dl_w dl) (dl_dSamp dl) (dl_tone dl)
           send wet send wet fb (dl_bpmCached dl) (dl_mode dl) (dl_inited dl),
   reverb_set_space gReverb spacePct).

Definition delay_init (dl : Delay) (b : Z) (m : DelayMode) (toneCutHz : Q) : Delay :=
  mkDelay (replicate (Z.to_nat DELAY_MAX_SAMPLES) 0) DELAY_MAX_SAMPLES 0
          (delay_samples_from_bpm b m)
          (lp_set (dl_tone dl) toneCutHz (inject_Z SR))
          (dl_baseSend dl) (dl_baseWet dl) (dl_send dl) (dl_wet dl) (dl_fb dl)
          (u16 b) m true.

(** ** Tone tilt and the effect bus of the render loop *)

Record TiltEQ := mkTiltEQ {
  split6k : OnePoleLP;
  gainLow : Q;
  gainHigh : Q;
  tilt_inited : bool
}.

Definition tone_init (t : TiltEQ) : TiltEQ :=
  mkTiltEQ (lp_set (split6k t) 6000 (inject_Z SR)) 1 1 true.

Definition tone_process (t : TiltEQ) (x : Q) : TiltEQ * Q :=
  let t := if tilt_inited t then t else tone_init t in
  let '(f, low) := lp_process (split6k t) x in
  let high := (x - low)%Q in
  (mkTiltEQ f (gainLow t) (gainHigh t) (tilt_inited t),
   (gainLow t * low + gainHigh t * high)%Q).

Definition NOISE_DRY_GAIN : Q := 0.
Definition NOISE_FX_GAIN : Q := 12 # 100.
Definition CTR : Q := 70710678 # 100000000.

(** What one pass of the sample loop hands on: the dry signal and the
    output before master gain. *)
Record FxOut := mkFxOut { dryMono : Q; wetSum : Q; outMono : Q }.

(** The sample loop of [loop] from "Build mono dry" to "Center FX return":
    [padMono], [plMono] and the noise sample [n] come from the voices. *)
Definition fx_mix (gTilt : TiltEQ) (gDelay : Delay) (gReverb : ReverbLite)
    (padMono plMono n : Q)
    : option (TiltEQ * Delay * ReverbLite * FxOut) :=
  let noiseDry := (n * NOISE_DRY_GAIN)%Q in
  let noiseFx := (n * NOISE_FX_GAIN)%Q in
  let dry := (padMono * CTR + plMono + noiseDry)%Q in
  let '(tilt, dryFX) := tone_process gTilt (dry + noiseFx) in
  '(dl, wetTap) ← delay_step gDelay dryFX;
  '(rv, wetRev) ← reverb_step gReverb dryFX;
  let wet := (dl_wet dl * wetTap + rv_wet rv * wetRev)%Q in
  Some (tilt, dl, rv, mkFxOut dry wet (dry + wet * CTR)%Q).
End Space.

(** The effect bus over a run of samples; each input is the triple
    [(padMono, plMono, n)] of one pass of the sample loop. *)
Fixpoint fx_run (expf : Q -> Q) (gTilt : TiltEQ) (gDelay : Delay)
    (gReverb : ReverbLite) (inputs : list (Q * Q * Q))
    : option (TiltEQ * Delay * ReverbLite * list FxOut) :=
  match inputs with
  | [] => Some (gTilt, gDelay, gReverb, [])
  | (padMono, plMono, n) :: rest =>
      '(tilt, dl, rv, out) ← fx_mix expf gTilt gDelay gReverb padMono plMono n;
      '(tilt', dl', rv', outs) ← fx_run expf tilt dl rv rest;
      Some (tilt', dl', rv', out :: outs)
  end.

(** Assignment to the live [send] and [wet] of the delay and the reverb. *)
Definition delay_set_live (dl : Delay) (send wet : Q) : Delay :=
  mkDelay (dl_buf dl) (dl_size dl) (dl_w dl) (dl_dSamp dl) (dl_tone dl)
          (dl_baseSend dl) (dl_baseWet dl) send wet
          (dl_fb dl) (dl_bpmCached dl) (dl_mode dl) (dl_inited dl).

Definition reverb_set_live (rv : ReverbLite) (send wet : Q) : ReverbLite :=
  mkReverbLite (rv_c rv) (rv_ap1 rv) (rv_ap2 rv) (rv_baseSend rv) (rv_baseWet rv)
               send wet (rv_inited rv).

(** The part of [gesture_update_and_apply] that touches the effect sends:
    with the gesture envelope [e] above 0.0005 the live send and wet levels
    are the base levels scaled up, otherwise they are restored to the
    bases. *)
Definition gesture_apply_fx (e fxSendBoost fxWetBoost : Q)
    (dl : Delay) (rv : ReverbLite) : Delay * ReverbLite :=
  if Qltb (5 # 10000) e then
    (delay_set_live dl (dl_baseSend dl * (1 + fxSendBoost * e))
                       (dl_baseWet dl * (1 + fxWetBoost * e)),
     reverb_set_live rv (rv_baseSend rv * (1 + fxSendBoost * e))
                        (rv_baseWet rv * (1 + fxWetBoost * e)))%Q
  else
    (delay_set_live dl (dl_baseSend dl) (dl_baseWet dl),
     reverb_set_live rv (rv_baseSend rv) (rv_baseWet rv)).

(** ** Pad, parameters and the scene crossfade *)

Record Osc := mkOsc { osc_phase : Q; osc_freqHz : Q; osc_triMix : Q }.

Record Pad := mkPad {
  pad_v1 : Osc; pad_v2 : Osc; pad_v3 : Osc;
  pad_baseHz : Q;
  pad_det : Q;
  pad_triMix : Q;
  pad_ampLfoPhase : Q;
  pad_ampLfoRateHz : Q;
  pad_ampLfoDepth : Q;
  pad_lp : OnePoleLP;
  pad_lpfCutHz : Q;
  pad_inited : bool
}.

Record Params := mkParams {
  volumePercent : Z;
  tempoBPM : Z;
  spacePercent : Z;
  moodPercent : Z;
  tonePercent : Z;
  energyPercent : Z
}.

Record SceneTargets := mkSceneTargets {
  tg_scale : Scale;
  tg_triMix : Q;
  tg_lpfCutHz : Q;
  tg_spacePercent : Z;
  tg_delayMode : DelayMode;
  tg_tempoBPM : Z
}.

Record SceneXfade := mkSceneXfade {
  sc_active : bool;
  sc_tStartSmp : Z;       (* uint64_t *)
  sc_tEndSmp : Z;         (* uint64_t *)
  sc_start : SceneTargets;
  sc_target : SceneTargets
}.

Record SceneScheduler := mkSceneScheduler {
  nextSceneAt : Z;        (* uint64_t *)
  minIntvSmp : Z;         (* uint32_t *)
  maxIntvSmp : Z;         (* uint32_t *)
  sch_inited : bool
}.

(** The globals [scene_update] reads and writes. *)
Record SceneWorld := mkSceneWorld {
  sw_gSceneSch : SceneScheduler;
  sw_gScene : SceneXfade;
  sw_gScale : Scale;
  sw_pad : Pad;
  sw_params : Params;
  sw_gDelay : Delay;
  sw_gReverb : ReverbLite;
  sw_gRng32 : Z
}.

(** The helper lambdas of [scene_update]. *)
Definition lerp (a b t : Q) : Q := (a + (b - a) * t)%Q.

Definition smooth (t : Q) : Q :=
  let t := if Qltb t 0 then 0%Q else if Qltb 1 t then 1%Q else t in
  (t * t * (3 - 2 * t))%Q.

Definition pad_set_triMix (p : Pad) (tri : Q) : Pad :=
  let set := fun o => mkOsc (osc_phase o) (osc_freqHz o) tri in
  mkPad (set (pad_v1 p)) (set (pad_v2 p)) (set (pad_v3 p))
        (pad_baseHz p) (pad_det p) tri
        (pad_ampLfoPhase p) (pad_ampLfoRateHz p) (pad_ampLfoDepth p)
        (pad_lp p) (pad_lpfCutHz p) (pad_inited p).

Definition params_set_space (p : Params) (spc : Z) : Params :=
  mkParams (volumePercent p) (tempoBPM p) spc (moodPercent p) (tonePercent p)
           (energyPercent p).

Definition params_set_tempo (p : Params) (b : Z) : Params :=
  mkParams (volumePercent p) b (spacePercent p) (moodPercent p) (tonePercent p)
           (energyPercent p).

Section Scene.
(** libm's [sqrtf], [expf], [logf] and [powf]. *)
Variable sqrtf : Q -> Q.
Variable expf : Q -> Q.
Variable logf : Q -> Q.
Variable powf : Q -> Q -> Q.

Definition expLerp (aHz bHz t : Q) : Q :=
  let la := logf aHz in
  let lb := logf bHz in
  expf (lerp la lb t).

Definition pad_set_cutoff (p : Pad) (cut : Q) : Pad :=
  mkPad (pad_v1 p) (pad_v2 p) (pad_v3 p) (pad_baseHz p) (pad_det p) (pad_triMix p)
        (pad_ampLfoPhase p) (pad_ampLfoRateHz p) (pad_ampLfoDepth p)
        (lp_set expf (pad_lp p) cut (inject_Z SR)) cut (pad_inited p).

(** The elapsed fraction [t] of the fade at sample [nowSmp]. *)
Definition scene_fraction (sc : SceneXfade) (nowSmp : Z) : Q :=
  if sc_tStartSmp sc <? sc_tEndSmp sc then
    let num := if sc_tEndSmp sc <? nowSmp
               then u64 (sc_tEndSmp sc - sc_tStartSmp sc)
               else u64 (nowSmp - sc_tStartSmp sc) in
    let den := u64 (sc_tEndSmp sc - sc_tStartSmp sc) in
    (inject_Z num / inject_Z den)%Q
  else 0%Q.

(** The branch [if (gScene.active) { ... }] of [scene_update]. *)
Definition scene_crossfade (nowSmp : Z) (w : SceneWorld) : SceneWorld :=
  let sc := sw_gScene w in
  let t := scene_fraction sc nowSmp in
  let e := smooth t in
  (* triMix (linear) *)
  let tri := lerp (tg_triMix (sc_start sc)) (tg_triMix (sc_target sc)) e in
  let pad := pad_set_triMix (sw_pad w) tri in
  (* LPF cutoff (log interpolation) *)
  let cut := expLerp (tg_lpfCutHz (sc_start sc)) (tg_lpfCutHz (sc_target sc)) e in
  let pad := pad_set_cutoff pad cut in
  (* Space / FX mix (int lerp) *)
  let spc := Qtrunc (lerp (inject_Z (tg_spacePercent (sc_start sc)))
                          (inject_Z (tg_spacePercent (sc_target sc))) e + (1 # 2)) in
  let spc := clamp_int spc 0 100 in
  let '(params, (dl, rv)) :=
    if negb (spc =? spacePercent (sw_params w))
    then (params_set_space (sw_params w) spc,
          delay_set_space sqrtf (sw_gDelay w) (sw_gReverb w) spc)
    else (sw_params w, (sw_gDelay w, sw_gReverb w)) in
  (* Tempo glide *)
  let b := Qtrunc (lerp (inject_Z (tg_tempoBPM (sc_start sc)))
                        (inject_Z (tg_tempoBPM (sc_target sc))) e + (1 # 2)) in
  let b := clamp_int b 30 240 in
  let params := if negb (b =? tempoBPM params) then params_set_tempo params b
                else params in
  (* Scale: switch early in the fade *)
  let '(start, gScale) :=
    if Qleb (2 # 10) e
    then (mkSceneTargets (tg_scale (sc_target sc)) (tg_triMix (sc_start sc))
            (tg_lpfCutHz (sc_start sc)) (tg_spacePercent (sc_start sc))
            (tg_delayMode (sc_start sc)) (tg_tempoBPM (sc_start sc)),
          tg_scale (sc_target sc))
    else (sc_start sc, sw_gScale w) in
  (* DelayMode: switch near the end *)
  let dl := if Qleb (8 # 10) e
               && negb (DelayMode_eqb (dl_mode dl) (tg_delayMode (sc_target sc)))
            then delay_set_mode dl (tg_delayMode (sc_target sc)) else dl in
  (* End of fade *)
  let active := if Qleb 1 t then false else sc_active sc in
  mkSceneWorld (sw_gSceneSch w)
               (mkSceneXfade active (sc_tStartSmp sc) (sc_tEndSmp sc) start (sc_target sc))
               gScale pad params dl rv (sw_gRng32 w).

(** The scheduler window, set on the first call. *)
Definition scene_sched_init (nowSmp : Z) (w : SceneWorld) : SceneWorld :=
  if sch_inited (sw_gSceneSch w) then w else
  let lo := u32 (Qtrunc (120 * inject_Z SR + (1 # 2))) in
  let hi := u32 (Qtrunc (240 * inject_Z SR + (1 # 2))) in
  let '(u, g) := rand01 (sw_gRng32 w) in
  let next := u64 (nowSmp + lo + u32 (Qtrunc (inject_Z (u32 (hi - lo)) * u))) in
  mkSceneWorld (mkSceneScheduler next lo hi true) (sw_gScene w) (sw_gScale w)
               (sw_pad w) (sw_params w) (sw_gDelay w) (sw_gReverb w) g.

(** The branch that starts a new scene when one is due and none is fading. *)
Definition scene_start (nowSmp : Z) (w : SceneWorld) : SceneWorld :=
  if negb (sc_active (sw_gScene w)) && (nextSceneAt (sw_gSceneSch w) <=? nowSmp) then
    let start :=
      mkSceneTargets (sw_gScale w) (pad_triMix (sw_pad w)) (pad_lpfCutHz (sw_pad w))
                     (spacePercent (sw_params w)) (dl_mode (sw_gDelay w))
                     (tempoBPM (sw_params w)) in
    let '(u, g) := rand01 (sw_gRng32 w) in
    let r := clamp_int (Qtrunc (u * 3)) 0 2 in
    let scale := if r =? 0 then SCALE_A_MINOR
                 else if r =? 1 then SCALE_D_DORIAN else SCALE_C_LYDIAN in
    let '(u, g) := rand01 g in
    let tri := ((15 # 100) + (50 # 100) * u)%Q in
    let '(u, g) := rand01 g in
    let cut := (400 * powf 20 u)%Q in
    let '(u, g) := rand01 g in
    let spc := 10 + Qtrunc (60 * u + (1 # 2)) in
    let '(u, g) := rand01 g in
    let mode := if Qltb u (1 # 2) then DELAY_1_8 else DELAY_1_4 in
    let '(u, g) := rand01 g in
    let f := ((95 # 100) + (10 # 100) * u)%Q in
    let tBpm := clamp_int (Qtrunc (inject_Z (tempoBPM (sw_params w)) * f + (1 # 2))) 30 240 in
    let '(u, g) := rand01 g in
    let durSec := (10 + 10 * u)%Q in
    let durSmp := u64 (Qtrunc (durSec * inject_Z SR + (1 # 2))) in
    let tEnd := u64 (nowSmp + (if durSmp =? 0 then 1 else durSmp)) in
    let '(u, g) := rand01 g in
    let sch := sw_gSceneSch w in
    let next := u64 (nowSmp + minIntvSmp sch
                     + u32 (Qtrunc (inject_Z (u32 (maxIntvSmp sch - minIntvSmp sch)) * u))) in
    mkSceneWorld (mkSceneScheduler next (minIntvSmp sch) (maxIntvSmp sch) (sch_inited sch))
                 (mkSceneXfade true nowSmp tEnd start
                               (mkSceneTargets scale tri cut spc mode tBpm))
                 (sw_gScale w) (sw_pad w) (sw_params w) (sw_gDelay w) (sw_gReverb w) g
  else w.

(** [scene_update], display calls left out. *)
Definition scene_update (nowSmp : Z) (w : SceneWorld) : SceneWorld :=
  let w := scene_sched_init nowSmp w in
  let w := scene_start nowSmp w in
  if sc_active (sw_gScene w) then scene_crossfade nowSmp w else w.
End Scene.

(** ** Vocabulary of the statements *)

(** The per-note check run over all 128 notes and all four scales. *)
Definition quantize_check (s : Scale) (midi : Z) : bool :=
  in_scaleb s (quantizeMidi midi s)
  && (Z.abs (quantizeMidi midi s - midi) <=? 6)
  && (quantizeMidi midi s =? midi + quantize_shift midi s).

(** The hypotheses of the envelope claims: positive time constants, a
    sustain level in [0,1], and an envelope that starts in [0,1]. *)
Definition adsr_ok (e : ADSR) : Prop :=
  (0 < adsr_a e /\ 0 < adsr_d e /\ 0 <= adsr_s e <= 1 /\ 0 < adsr_r e /\
   0 <= env e <= 1)%Q.

(** [q ^ n] for the decay factor of the release. *)
Fixpoint Qpow (q : Q) (n : nat) : Q :=
  match n with
  | O => 1%Q
  | S n' => (q * Qpow q n')%Q
  end.


(** A release caught half way: the pluck constants, envelope at 1/2. *)
Definition adsr_half_released : ADSR :=
  mkADSR (3 # 1000) (80 # 1000) 0 (60 # 1000) (1 # 2) ENV_RELEASE false.

(** The pool as the render loop keeps it: four voices, envelopes in [0,1]. *)
Definition pool_ok (p : PluckPool) : Prop :=
  length (pool_v p) = 4%nat /\
  Forall (fun x => (0 <= env (eg x) <= 1)%Q) (pool_v p).

(** Four sounding voices at envelope levels 1/2, 1/5, 9/10, 1/5. *)
Definition busy_voice (level : Q) : PluckVoice :=
  mkPluckVoice true 60 (26163 # 100) 0 (7 # 10)
    (mkADSR (3 # 1000) (80 # 1000) 0 (60 # 1000) level ENV_DECAY false) 0.

Definition busy_pool : PluckPool :=
  mkPluckPool [busy_voice (1 # 2); busy_voice (1 # 5); busy_voice (9 # 10);
               busy_voice (1 # 5)] (35 # 100) true.

(** Rational stand-ins for libm, used where a statement has to be run on
    concrete numbers: first-order [expf] and [logf] (inverse to each other),
    [powf] from them, and [sqrtf] through the integer square root, to six
    decimals. *)
Definition logf1 (x : Q) : Q := (x - 1)%Q.
Definition expf1 (y : Q) : Q := (1 + y)%Q.
Definition powf1 (x y : Q) : Q := expf1 (y * logf1 x).
Definition sqrtf6 (t : Q) : Q :=
  Z.sqrt (Qfloor (t * 1000000000000)) # 1000000.

(** A sample as the buffers store it: a 16-bit value within 32767 of zero. *)
Definition sample_ok (v : Z) : Prop := -32767 <= v <= 32767.

(** The delay as [delay_init] and [delay_step] keep it: [size] is the
    length of [buf], the write cursor is inside, the samples are in range. *)
Definition delay_wf (dl : Delay) : Prop :=
  dl_size dl = Z.of_nat (length (dl_buf dl)) /\
  0 < dl_size dl < 2 ^ 31 /\
  0 <= dl_w dl < dl_size dl /\
  Forall sample_ok (dl_buf dl).

Definition comb_wf (c : CombLite) : Prop :=
  cb_size c = Z.of_nat (length (cb_buf c)) /\
  0 < cb_size c < 2 ^ 15 /\ 0 <= cb_w c < cb_size c.

Definition allpass_wf (a : AllpassLite) : Prop :=
  ap_size a = Z.of_nat (length (ap_buf a)) /\
  0 < ap_size a < 2 ^ 15 /\ 0 <= ap_w a < ap_size a.

(** The reverb: four combs; once initialised, every cursor is inside its
    buffer. *)
Definition reverb_wf (r : ReverbLite) : Prop :=
  length (rv_c r) = 4%nat /\
  (rv_inited r = true ->
   Forall comb_wf (rv_c r) /\ allpass_wf (rv_ap1 r) /\ allpass_wf (rv_ap2 r)).

(** Scene parameters inside their documented domains: space 0..100, tempo
    30..240, a positive cutoff. *)
Definition targets_ok (tg : SceneTargets) : Prop :=
  0 <= tg_spacePercent tg <= 100 /\ 30 <= tg_tempoBPM tg <= 240 /\
  (0 < tg_lpfCutHz tg)%Q.

(** A fade in progress: active, with its end after its start. *)
Definition fade_ok (sc : SceneXfade) : Prop :=
  sc_active sc = true /\
  0 <= sc_tStartSmp sc /\ sc_tStartSmp sc < sc_tEndSmp sc /\ sc_tEndSmp sc < 2 ^ 64 /\
  targets_ok (sc_start sc) /\ targets_ok (sc_target sc).

(** A fade from (triMix 0.18, 1200 Hz, space 45, 104 BPM) to
    (triMix 0.5, 3000 Hz, space 30, 109 BPM) over samples 1000..442000. *)
Definition fade_world : SceneWorld :=
  mkSceneWorld
    (mkSceneScheduler 5293000 5292000 10584000 true)
    (mkSceneXfade true 1000 442000
       (mkSceneTargets SCALE_A_MINOR (18 # 100) 1200 45 DELAY_1_4 104)
       (mkSceneTargets SCALE_D_DORIAN (1 # 2) 3000 30 DELAY_1_8 109))
    SCALE_A_MINOR
    (mkPad (mkOsc 0 180 (18 # 100)) (mkOsc 0 180 (18 # 100)) (mkOsc 0 180 (18 # 100))
           180 0 (18 # 100) 0 (5 # 100) (18 # 100) (mkOnePoleLP 0 0) 1200 false)
    (mkParams 70 104 45 50 42 50)
    (mkDelay [0; 0; 0; 0] 4 0 2 (mkOnePoleLP 0 0) 0 0 0 0 0 104 DELAY_1_4 true)
    ReverbLite_default
    2747636419.

(** The envelope pass of the sample loop over the whole pool. *)
Definition pluck_envs_step (p : PluckPool) (sr : Q) : PluckPool :=
  mkPluckPool (map (fun x => voice_env_step x sr) (pool_v p))
              (pool_gain p) (pool_inited p).

(** The invariant behind [pool_ok]: four voices, each with positive time
    constants, a sustain level in [0,1] and its envelope in [0,1]. *)
Definition pool_inv (p : PluckPool) : Prop :=
  length (pool_v p) = 4%nat /\ Forall (fun x => adsr_ok (eg x)) (pool_v p).

(** The delay as [setup] leaves it before the space is set: 104 BPM, quarter
    note tap, tone at 2.8 kHz; and a tilt EQ not yet initialised. *)
Definition delay_at_boot : Delay :=
  delay_init expf1 Delay_default 104 DELAY_1_4 2800.

Definition tilt_at_boot : TiltEQ := mkTiltEQ (mkOnePoleLP 0 0) 1 1 false.

(** The delay in use: [delay_at_boot] after [delay_set_space] at 45, as
    [setup] leaves it (send 0.503, feedback 0.369). *)
Definition delay_in_space : Delay :=
  fst (delay_set_space sqrtf6 delay_at_boot ReverbLite_default 45).

(** A delay in the middle of a run: a short ring that holds samples of
    earlier input, its write cursor at 1, its tone filter in motion. *)
Definition delay_ringing : Delay :=
  mkDelay [1200; -800; 32767; 5] 4 1 2 (mkOnePoleLP (1 # 2) (1 # 10))
          (503 # 1000) (369 # 1000) (503 # 1000) (369 # 1000) (369 # 1000)
          104 DELAY_1_4 true.

(** ** IEEE binary32 versions

    The tick length and the delay length are the two places where a float
    computation decides integer state, and the pluck envelope runs on fixed
    constants, so that its whole course from a note-on is one sequence of
    floats.  Here these are embedded once more on IEEE binary32 (24-bit
    significand, round to nearest even), to check the rational embedding
    against the arithmetic of the target. *)
Module B32.
Import Floats.SpecFloat.

Definition prec : Z := 24.
Definition emax : Z := 128.

(** [(float)z] *)
Definition of_Z (z : Z) : spec_float := binary_normalize prec emax z 0 false.
Definition add : spec_float -> spec_float -> spec_float := SFadd prec emax.
Definition sub : spec_float -> spec_float -> spec_float := SFsub prec emax.
Definition mul : spec_float -> spec_float -> spec_float := SFmul prec emax.
Definition div : spec_float -> spec_float -> spec_float := SFdiv prec emax.

(** [0.5f] *)
Definition half : spec_float := S754_finite false 8388608 (-24).

(** [(uint32_t)x] for a finite [x]: truncation toward zero. *)
Definition to_Z (x : spec_float) : Z :=
  match x with
  | S754_finite s m e =>
      let v := if 0 <=? e then Z.pos m * 2 ^ e else Z.pos m / 2 ^ (- e) in
      if s then - v else v
  | _ => 0
  end.

Definition clock_spt_from_bpm_b32 (bpm : Z) : Z :=
  let bpm := if bpm <? 30 then 30 else bpm in
  u32 (to_Z (add (div (mul (of_Z SR) (of_Z 60)) (mul (of_Z bpm) (of_Z 4))) half)).

Definition delay_samples_from_bpm_b32 (b : Z) (m : DelayMode) : Z :=
  let b := if b <? 30 then 30 else b in
  let qnote := div (mul (of_Z SR) (of_Z 60)) (of_Z b) in
  let want := match m with DELAY_1_8 => mul qnote half | DELAY_1_4 => qnote end in
  let s := u32 (to_Z (add want half)) in
  let s := if s <? 1 then 1 else s in
  if DELAY_MAX_SAMPLES <=? s then DELAY_MAX_SAMPLES - 1 else s.

(** [struct ADSR] on binary32. *)
Record ADSR32 := mkADSR32 {
  a32 : spec_float; d32 : spec_float; s32 : spec_float; r32 : spec_float;
  env32 : spec_float;
  st32 : EnvState;
  gate32 : bool
}.

Definition zero : spec_float := S754_zero false.
Definition one : spec_float := of_Z 1.

(** A decimal literal [p / q] with [p], [q] below 2^24: the nearest float. *)
Definition lit (p q : Z) : spec_float := div (of_Z p) (of_Z q).

Definition adsr_with32 (e : ADSR32) (env' : spec_float) (st' : EnvState) : ADSR32 :=
  mkADSR32 (a32 e) (d32 e) (s32 e) (r32 e) env' st' (gate32 e).

Definition adsr_rate32 (t sr : spec_float) : spec_float :=
  if SFleb t zero then one else div one (mul t sr).

Definition adsr_step_b32 (e : ADSR32) (sr : spec_float) : ADSR32 :=
  match st32 e with
  | ENV_ATTACK =>
      let env1 := add (env32 e) (adsr_rate32 (a32 e) sr) in
      if SFleb one env1 then adsr_with32 e one ENV_DECAY
      else adsr_with32 e env1 ENV_ATTACK
  | ENV_DECAY =>
      let env1 := sub (env32 e) (mul (adsr_rate32 (d32 e) sr) (sub one (s32 e))) in
      if SFleb env1 (s32 e) then adsr_with32 e (s32 e) ENV_SUSTAIN
      else adsr_with32 e env1 ENV_DECAY
  | ENV_SUSTAIN =>
      if negb (gate32 e) then adsr_with32 e (env32 e) ENV_RELEASE else e
  | ENV_RELEASE =>
      let env1 := sub (env32 e) (mul (adsr_rate32 (r32 e) sr) (env32 e)) in
      if SFleb env1 (lit 8 10000) then adsr_with32 e zero ENV_IDLE
      else adsr_with32 e env1 ENV_RELEASE
  | ENV_IDLE => adsr_with32 e zero ENV_IDLE
  end.

(** The envelope of a voice right after [pluck_noteOn]: the constants of
    [struct ADSR], envelope 0, state Attack, gate off. *)
Definition adsr_note_on : ADSR32 :=
  mkADSR32 (lit 3 1000) (lit 80 1000) zero (lit 60 1000) zero ENV_ATTACK false.

(** [n] steps at sample rate [sr]; the flag records that every envelope
    value on the way was inside [0, 1]. *)
Fixpoint adsr_run_b32 (n : nat) (e : ADSR32) (sr : spec_float) (inside : bool)
    : bool * ADSR32 :=
  match n with
  | O => (inside, e)
  | S n' =>
      let e' := adsr_step_b32 e sr in
      adsr_run_b32 n' e' sr
        (inside && SFleb zero (env32 e') && SFleb (env32 e') one)
  end.

(** The space mapping of [delay_set_space] and [reverb_set_space]. *)
Definition sqrtf_b32 : spec_float -> spec_float := SFsqrt prec emax.

Definition space_fraction_b32 (spacePct : Z) : spec_float :=
  if spacePct <=? 0 then zero
  else if 100 <=? spacePct then one
  else mul (of_Z spacePct) (lit 1 100).

(** (send, wet, fb) of the delay. *)
Definition delay_levels_b32 (spacePct : Z) : spec_float * spec_float * spec_float :=
  let k := sqrtf_b32 (space_fraction_b32 spacePct) in
  let fb := mul (lit 55 100) k in
  let fb := if SFltb (lit 6 10) fb then lit 6 10 else fb in
  (mul (lit 75 100) k, mul (lit 55 100) k, fb).

(** (send, wet, fb) of the reverb. *)
Definition reverb_levels_b32 (spacePct : Z) : spec_float * spec_float * spec_float :=
  let k := sqrtf_b32 (space_fraction_b32 spacePct) in
  let fb := add (lit 45 100) (mul (lit 27 100) k) in
  let fb := if SFltb (lit 75 100) fb then lit 75 100 else fb in
  (mul (lit 70 100) k, mul (lit 35 100) k, fb).

(** [outMono = dryMono + (gDelay.wet * wetTap + gReverb.wet * wetRev) * CTR] *)
Definition out_mono_b32 (dry dlWet wetTap rvWet wetRev ctr : spec_float) : spec_float :=
  add dry (mul (add (mul dlWet wetTap) (mul rvWet wetRev)) ctr).



Definition adsr_release_380 : ADSR32 :=
  mkADSR32 (lit 3 1000) (lit 80 1000) zero (of_Z 380) (lit 5004 10000) ENV_RELEASE false.




(** The value of a finite float. *)
Definition to_Q (x : spec_float) : Q :=
  match x with
  | S754_finite s m e =>
      let v := (inject_Z (Z.pos m) * 2 ^ e)%Q in if s then (- v)%Q else v
  | _ => 0%Q
  end.

(** The helper lambdas [lerp] and [smooth] of [scene_update]. *)
Definition lerp_b32 (a b t : spec_float) : spec_float := add a (mul (sub b a) t).

Definition smooth_b32 (t : spec_float) : spec_float :=
  let t := if SFltb t zero then zero else if SFltb one t then one else t in
  mul (mul t t) (sub (of_Z 3) (mul (of_Z 2) t)).

(** Neither infinite nor NaN. *)
Definition finite_b32 (x : spec_float) : bool :=
  match x with
  | S754_finite _ _ _ | S754_zero _ => true
  | _ => false
  end.
End B32.

(** ** Float arithmetic

    The float operations of the code round their exact result to the
    nearest number with a 24-bit significand, ties to the even significand.
    [rn24] is this rounding on rationals.  The exponent range of binary32 is
    not part of it: results above 2^128 are not turned into infinities and
    results below 2^-126 keep 24 bits. *)

(** [floor (log2 x)] for a positive [x]. *)
Definition ilog2 (x : Q) : Z :=
  let k := (Z.log2 (Qnum x) - Z.log2 (Z.pos (Qden x)))%Z in
  if Qle_bool (2 ^ k) x then k else (k - 1)%Z.

(** The nearest integer, ties to even. *)
Definition round_even (y : Q) : Z :=
  let f := Qfloor y in
  match (y - inject_Z f ?= 1 # 2)%Q with
  | Lt => f
  | Gt => (f + 1)%Z
  | Eq => if Z.even f then f else (f + 1)%Z
  end.

Definition rn24_pos (x : Q) : Q :=
  let s := (ilog2 x - 23)%Z in
  (inject_Z (round_even (x / 2 ^ s)) * 2 ^ s)%Q.

Definition rn24 (x : Q) : Q :=
  match Qnum x with
  | Z0 => 0%Q
  | Zpos _ => rn24_pos x
  | Zneg _ => (- rn24_pos (- x))%Q
  end.

(** The four operations and the conversion [(float)z]. *)
Definition fadd (x y : Q) : Q := rn24 (x + y).
Definition fsub (x y : Q) : Q := rn24 (x - y).
Definition fmul (x y : Q) : Q := rn24 (x * y).
Definition fdiv (x y : Q) : Q := rn24 (x / y).
Definition of_int (z : Z) : Q := rn24 (inject_Z z).

(** A float: a rational that rounding leaves as it is. *)
Definition is_float (x : Q) : Prop := (rn24 x == x)%Q.

(** ** The envelope in float arithmetic

    [adsr_step] once more, every operation of the code rounded as the
    floats of the target round it. *)

(** [(t <= 0.0f) ? 1.0f : 1.0f / (t * sr)] *)
Definition adsr_rate_f (t sr : Q) : Q :=
  if Qleb t 0 then 1%Q else fdiv 1 (fmul t sr).

(** [0.0008f], the float next to 0.0008. *)
Definition ENV_EPS : Q := rn24 (8 # 10000).

Definition adsr_step_f (e : ADSR) (sr : Q) : ADSR :=
  match st e with
  | ENV_ATTACK =>
      let inc := adsr_rate_f (adsr_a e) sr in
      let env1 := fadd (env e) inc in
      if Qleb 1 env1 then adsr_with e 1 ENV_DECAY
      else adsr_with e env1 ENV_ATTACK
  | ENV_DECAY =>
      let dec := adsr_rate_f (adsr_d e) sr in
      let env1 := fsub (env e) (fmul dec (fsub 1 (adsr_s e))) in
      if Qleb env1 (adsr_s e) then adsr_with e (adsr_s e) ENV_SUSTAIN
      else adsr_with e env1 ENV_DECAY
  | ENV_SUSTAIN =>
      if negb (gate e) then adsr_with e (env e) ENV_RELEASE else e
  | ENV_RELEASE =>
      let dec := adsr_rate_f (adsr_r e) sr in
      let env1 := fsub (env e) (fmul dec (env e)) in
      if Qleb env1 ENV_EPS then adsr_with e 0 ENV_IDLE
      else adsr_with e env1 ENV_RELEASE
  | ENV_IDLE => adsr_with e 0 ENV_IDLE
  end.

(** [n] calls of [adsr_step] in a row. *)
Fixpoint adsr_run_f (n : nat) (e : ADSR) (sr : Q) : ADSR :=
  match n with
  | O => e
  | S n' => adsr_run_f n' (adsr_step_f e sr) sr
  end.

(** The envelopes of the envelope statement: a positive sample rate, a
    positive attack time, decay and release times of at least one sample,
    a release time of at most 2^24 samples, and for the sustain level and
    the envelope floats in [0,1]. *)
Definition adsr_in_domain (e : ADSR) (sr : Q) : Prop :=
  (0 < sr /\
   0 < adsr_a e /\
   1 <= adsr_d e * sr /\
   1 <= adsr_r e * sr <= 16777216 /\
   (0 <= adsr_s e <= 1 /\ is_float (adsr_s e)) /\
   (0 <= env e <= 1 /\ is_float (env e)))%Q.

(** The pluck envelope of the sketch on floats (3 ms attack, 80 ms decay,
    sustain 0, 60 ms release), right after a note-on and caught in release
    at level 1/2; and an envelope with a release of 1000 s at full level. *)
Definition adsr_note_on_f : ADSR :=
  mkADSR (rn24 (3 # 1000)) (rn24 (80 # 1000)) 0 (rn24 (60 # 1000)) 0 ENV_ATTACK false.




Definition adsr_release_380_f : ADSR :=
  mkADSR (rn24 (3 # 1000)) (rn24 (80 # 1000)) 0 380 (rn24 (5004 # 10000))
         ENV_RELEASE false.

(** The binary32 envelope and the rounded rational envelope side by side,
    for [n] steps: every state and every envelope value the same. *)
Fixpoint adsr_agree_run (n : nat) (e32 : B32.ADSR32) (e : ADSR) (sr32 : SpecFloat.spec_float)
    (sr : Q) : bool :=
  match n with
  | O => true
  | S n' =>
      let e32' := B32.adsr_step_b32 e32 sr32 in
      let e' := adsr_step_f e sr in
      match B32.st32 e32', st e' with
      | ENV_IDLE, ENV_IDLE | ENV_ATTACK, ENV_ATTACK | ENV_DECAY, ENV_DECAY
      | ENV_SUSTAIN, ENV_SUSTAIN | ENV_RELEASE, ENV_RELEASE =>
          Qeq_bool (B32.to_Q (B32.env32 e32')) (env e')
          && adsr_agree_run n' e32' e' sr32 sr
      | _, _ => false
      end
  end.

(** ** The scene crossfade in float arithmetic

    The branch [if (gScene.active)] of [scene_update] once more, every
    float operation rounded. *)

Definition lerp_f (a b t : Q) : Q := fadd a (fmul (fsub b a) t).

Definition smooth_f (t : Q) : Q :=
  let t := if Qltb t 0 then 0%Q else if Qltb 1 t then 1%Q else t in
  fmul (fmul t t) (fsub 3 (fmul 2 t)).

Section SceneFloat.
(** libm's [sqrtf], [expf] and [logf]. *)
Variable sqrtf : Q -> Q.
Variable expf : Q -> Q.
Variable logf : Q -> Q.

Definition expLerp_f (aHz bHz t : Q) : Q :=
  let la := logf aHz in
  let lb := logf bHz in
  expf (lerp_f la lb t).

(** The elapsed fraction [t = (float)num / (float)den]. *)
Definition scene_fraction_f (sc : SceneXfade) (nowSmp : Z) : Q :=
  if sc_tStartSmp sc <? sc_tEndSmp sc then
    let num := if sc_tEndSmp sc <? nowSmp
               then u64 (sc_tEndSmp sc - sc_tStartSmp sc)
               else u64 (nowSmp - sc_tStartSmp sc) in
    let den := u64 (sc_tEndSmp sc - sc_tStartSmp sc) in
    fdiv (of_int num) (of_int den)
  else 0%Q.

Definition scene_crossfade_f (nowSmp : Z) (w : SceneWorld) : SceneWorld :=
  let sc := sw_gScene w in
  let t := scene_fraction_f sc nowSmp in
  let e := smooth_f t in
  (* triMix (linear) *)
  let tri := lerp_f (tg_triMix (sc_start sc)) (tg_triMix (sc_target sc)) e in
  let pad := pad_set_triMix (sw_pad w) tri in
  (* LPF cutoff (log interpolation) *)
  let cut := expLerp_f (tg_lpfCutHz (sc_start sc)) (tg_lpfCutHz (sc_target sc)) e in
  let pad := pad_set_cutoff expf pad cut in
  (* Space / FX mix (int lerp) *)
  let spc := Qtrunc (fadd (lerp_f (of_int (tg_spacePercent (sc_start sc)))
                                  (of_int (tg_spacePercent (sc_target sc))) e)
                          (1 # 2)) in
  let spc := clamp_int spc 0 100 in
  let '(params, (dl, rv)) :=
    if negb (spc =? spacePercent (sw_params w))
    then (params_set_space (sw_params w) spc,
          delay_set_space sqrtf (sw_gDelay w) (sw_gReverb w) spc)
    else (sw_params w, (sw_gDelay w, sw_gReverb w)) in
  (* Tempo glide *)
  let b := Qtrunc (fadd (lerp_f (of_int (tg_tempoBPM (sc_start sc)))
                                (of_int (tg_tempoBPM (sc_target sc))) e)
                        (1 # 2)) in
  let b := clamp_int b 30 240 in
  let params := if negb (b =? tempoBPM params) then params_set_tempo params b
                else params in
  (* Scale: switch early in the fade *)
  let '(start, gScale) :=
    if Qleb (rn24 (2 # 10)) e
    then (mkSceneTargets (tg_scale (sc_target sc)) (tg_triMix (sc_start sc))
            (tg_lpfCutHz (sc_start sc)) (tg_spacePercent (sc_start sc))
            (tg_delayMode (sc_start sc)) (tg_tempoBPM (sc_start sc)),
          tg_scale (sc_target sc))
    else (sc_start sc, sw_gScale w) in
  (* DelayMode: switch near the end *)
  let dl := if Qleb (rn24 (8 # 10)) e
               && negb (DelayMode_eqb (dl_mode dl) (tg_delayMode (sc_target sc)))
            then delay_set_mode dl (tg_delayMode (sc_target sc)) else dl in
  (* End of fade *)
  let active := if Qleb 1 t then false else sc_active sc in
  mkSceneWorld (sw_gSceneSch w)
               (mkSceneXfade active (sc_tStartSmp sc) (sc_tEndSmp sc) start (sc_target sc))
               gScale pad params dl rv (sw_gRng32 w).
End SceneFloat.

(** The crossfades of the amended crossfade statement: end after start,
    both 64-bit times; the four triMix and cutoff values floats; space in
    0..100 and tempo in 30..240 on both sides. *)
Definition fade_in_domain (sc : SceneXfade) : Prop :=
  0 <= sc_tStartSmp sc /\ sc_tStartSmp sc < sc_tEndSmp sc /\ sc_tEndSmp sc < 2 ^ 64 /\
  is_float (tg_triMix (sc_start sc)) /\ is_float (tg_triMix (sc_target sc)) /\
  0 <= tg_spacePercent (sc_start sc) <= 100 /\
  0 <= tg_spacePercent (sc_target sc) <= 100 /\
  30 <= tg_tempoBPM (sc_start sc) <= 240 /\
  30 <= tg_tempoBPM (sc_target sc) <= 240.

(** Rounded stand-ins for [logf] and [expf]: float-valued, first order. *)
Definition logf_r (x : Q) : Q := rn24 (x - 1).
Definition expf_r (y : Q) : Q := rn24 (1 + y).

(** A fade from (triMix 0.17f, 1200 Hz, space 45, 104 BPM) to
    (triMix 0.46f, 3000 Hz, space 30, 109 BPM) over samples 1000..442000. *)
Definition fade_world_f : SceneWorld :=
  mkSceneWorld
    (mkSceneScheduler 5293000 5292000 10584000 true)
    (mkSceneXfade true 1000 442000
       (mkSceneTargets SCALE_A_MINOR (rn24 (17 # 100)) 1200 45 DELAY_1_4 104)
       (mkSceneTargets SCALE_D_DORIAN (rn24 (46 # 100)) 3000 30 DELAY_1_8 109))
    SCALE_A_MINOR
    (mkPad (mkOsc 0 180 (rn24 (17 # 100))) (mkOsc 0 180 (rn24 (17 # 100)))
           (mkOsc 0 180 (rn24 (17 # 100)))
           180 0 (rn24 (17 # 100)) 0 (5 # 100) (18 # 100) (mkOnePoleLP 0 0) 1200 false)
    (mkParams 70 104 45 50 42 50)
    (mkDelay [0; 0; 0; 0] 4 0 2 (mkOnePoleLP 0 0) 0 0 0 0 0 104 DELAY_1_4 true)
    ReverbLite_default
    2747636419.
(* ================================================================== *)
(** * Properties *)
(* ================================================================== *)

(** ** Clock *)

Lemma land_15_mod16 (x : Z) : Z.land x 15 = x mod 16.
Proof. change 15 with (Z.ones 4). rewrite Z.land_ones by lia. reflexivity. Qed.

Lemma clock_tick_at (spt b now k : Z) :
  0 <= k -> 0 <= spt -> spt * (k + 2) < 2 ^ 64 ->
  clock_tick (clock_at spt b now k) = clock_at spt b now (k + 1).
Proof.
  intros Hk Hs Hlt. unfold clock_tick, clock_at; cbn [nextTickAt samplesPerTick step16 smpNow bpm].
  f_equal.
  - unfold u64. rewrite Z.mod_small by nia. ring.
  - unfold u16, u32. rewrite (Z.mod_small (k mod 16 + 1)) by (pose proof (Z.mod_pos_bound k 16); lia).
    rewrite land_15_mod16.
    rewrite Z.mod_small by (pose proof (Z.mod_pos_bound (k mod 16 + 1) 16); lia).
    rewrite Zplus_mod_idemp_l. reflexivity.
Qed.

Section ClockFacts.
Context {W : Type} (h : Z -> W -> W).

Lemma clock_loop_fuel_mono (fuel fuel' : nat) (blockEnd : Z) (c : Clock16) (w : W) r :
  clock_loop h fuel blockEnd c w = Some r -> (fuel <= fuel')%nat ->
  clock_loop h fuel' blockEnd c w = Some r.
Proof.
  revert fuel' c w. induction fuel as [|fuel IH]; intros fuel' c w Hr Hle.
  - destruct fuel'; cbn in *; destruct (nextTickAt c <=? blockEnd); congruence.
  - destruct fuel' as [|fuel']; [lia|]. cbn in *.
    destruct (nextTickAt c <=? blockEnd); [|exact Hr].
    apply IH; [exact Hr | lia].
Qed.

(** The loop, from a clock that has fired [k] ticks, fires the ticks up to
    [blockEnd / spt] and stops; as many units of fuel as ticks suffice. *)
Lemma clock_loop_at (spt b now blockEnd : Z) (n : nat) :
  forall (k : Z) (fuel : nat) (w : W),
  1 <= spt -> 0 <= k -> 0 <= blockEnd -> blockEnd + spt < 2 ^ 64 ->
  k + Z.of_nat n = blockEnd / spt -> (n <= fuel)%nat ->
  clock_loop h fuel blockEnd (clock_at spt b now k) w
  = Some (clock_at spt b now (blockEnd / spt), fire h k n w).
Proof.
  induction n as [|n IH]; intros k fuel w Hs Hk Hb Hlt Hn Hf.
  - assert (Hg : (nextTickAt (clock_at spt b now k) <=? blockEnd) = false).
    { apply Z.leb_gt. cbn. rewrite Z.add_0_r in Hn. subst k.
      pose proof (Z.mul_succ_div_gt blockEnd spt ltac:(lia)). lia. }
    destruct fuel; cbn [clock_loop]; rewrite Hg; cbn [fire];
      rewrite Z.add_0_r in Hn; rewrite Hn; reflexivity.
  - destruct fuel as [|fuel]; [lia|].
    assert (Hk1 : k + 1 <= blockEnd / spt) by lia.
    assert (Hle : spt * (k + 1) <= blockEnd).
    { pose proof (Z.mul_div_le blockEnd spt ltac:(lia)). nia. }
    assert (Hg : (nextTickAt (clock_at spt b now k) <=? blockEnd) = true).
    { apply Z.leb_le. cbn. exact Hle. }
    cbn [clock_loop]. rewrite Hg.
    rewrite clock_tick_at by nia.
    cbn [step16 clock_at fire].
    apply IH; lia.
Qed.

(** One block: the clock moves from sample time [T] to [T + blk]. *)
Lemma clock_advance_block_at (spt b T blk : Z) (fuel : nat) (w : W) :
  1 <= spt -> 0 <= T -> 0 <= blk -> T + blk + spt < 2 ^ 64 ->
  (Z.to_nat ((T + blk) / spt - T / spt) <= fuel)%nat ->
  clock_advance_block h fuel (clock_at spt b T (T / spt)) blk w
  = Some (clock_at spt b (T + blk) ((T + blk) / spt),
          fire h (T / spt) (Z.to_nat ((T + blk) / spt - T / spt)) w).
Proof.
  intros Hs HT Hb Hlt Hf. unfold clock_advance_block.
  cbn [smpNow clock_at]. unfold u64. rewrite Z.mod_small by lia.
  assert (Hmono : T / spt <= (T + blk) / spt) by (apply Z.div_le_mono; lia).
  rewrite (clock_loop_at spt b T (T + blk)
             (Z.to_nat ((T + blk) / spt - T / spt)) (T / spt) fuel w);
    try lia.
  - reflexivity.
  - apply Z.div_pos; lia.
Qed.

Lemma fire_app (k : Z) (n m : nat) (w : W) :
  fire h k (n + m) w = fire h (k + Z.of_nat n) m (fire h k n w).
Proof.
  revert k w. induction n as [|n IH]; intros k w.
  - cbn. rewrite Z.add_0_r. reflexivity.
  - cbn [fire Nat.add]. rewrite IH. f_equal. lia.
Qed.

(** A whole run: the result depends on the blocks only through their sum. *)
Lemma clock_run_at (spt b : Z) (blocks : list Z) :
  forall (T : Z) (fuel : nat) (w : W),
  1 <= spt -> 0 <= T -> Forall (fun blk => 0 <= blk < 2 ^ 32) blocks ->
  T + sum_blocks blocks + spt < 2 ^ 64 ->
  (Z.to_nat ((T + sum_blocks blocks) / spt) <= fuel)%nat ->
  clock_run h fuel blocks (clock_at spt b T (T / spt)) w
  = Some (clock_at spt b (T + sum_blocks blocks) ((T + sum_blocks blocks) / spt),
          fire h (T / spt)
            (Z.to_nat ((T + sum_blocks blocks) / spt - T / spt)) w).
Proof.
  induction blocks as [|blk rest IH]; intros T fuel w Hs HT Hall Hlt Hf.
  - cbn. rewrite Z.add_0_r, Z.sub_diag. reflexivity.
  - inversion Hall as [|? ? Hblk Hrest]; subst.
    assert (Hsum : 0 <= sum_blocks rest).
    { clear -Hrest. unfold sum_blocks. induction Hrest; cbn; lia. }
    cbn [sum_blocks fold_right] in *. fold (sum_blocks rest) in *.
    assert (H0 : 0 <= T / spt) by (apply Z.div_pos; lia).
    assert (H1 : T / spt <= (T + blk) / spt) by (apply Z.div_le_mono; lia).
    assert (H2 : (T + blk) / spt <= (T + (blk + sum_blocks rest)) / spt)
      by (apply Z.div_le_mono; lia).
    cbn [clock_run].
    rewrite clock_advance_block_at by lia.
    rewrite IH; try lia; try assumption.
    + replace (T + blk + sum_blocks rest) with (T + (blk + sum_blocks rest)) by ring.
      f_equal. f_equal.
      replace (Z.to_nat ((T + (blk + sum_blocks rest)) / spt - T / spt))
        with (Z.to_nat ((T + blk) / spt - T / spt)
              + Z.to_nat ((T + (blk + sum_blocks rest)) / spt - (T + blk) / spt))%nat
        by lia.
      rewrite fire_app. f_equal. lia.
    + replace (T + blk + sum_blocks rest) with (T + (blk + sum_blocks rest)) by ring.
      lia.
Qed.
End ClockFacts.

Lemma fire_record_step (n : nat) :
  forall (k : Z) (tr : list Z),
  fire record_step k n tr
  = tr ++ map (fun i => (k + Z.of_nat i) mod 16) (seq 0 n).
Proof.
  induction n as [|n IH]; intros k tr.
  - cbn. rewrite app_nil_r. reflexivity.
  - cbn [fire]. rewrite IH. unfold record_step. rewrite <- app_assoc.
    f_equal. cbn [seq map app]. rewrite Z.add_0_r. f_equal.
    rewrite <- seq_shift, map_map. apply map_ext. intros i. f_equal. lia.
Qed.

Lemma step_events_length (n : Z) : length (step_events n) = Z.to_nat n.
Proof. unfold step_events. rewrite length_map, length_seq. reflexivity. Qed.

Lemma step_events_lookup (n : Z) (i : nat) :
  (i < Z.to_nat n)%nat -> step_events n !! i = Some (Z.of_nat i mod 16).
Proof.
  intros Hi. unfold step_events. rewrite list_lookup_fmap.
  rewrite lookup_seq_lt by exact Hi. reflexivity.
Qed.

(** Truncation of a non-negative rational is its floor. *)
Lemma Qtrunc_nonneg (a : Z) (p : positive) :
  0 <= a -> Qtrunc (a # p) = a / Zpos p.
Proof. intros Ha. unfold Qtrunc; cbn. apply Z.quot_div_nonneg; lia. Qed.

Lemma Qtrunc_floor (q : Q) : (0 <= q)%Q -> Qtrunc q = Qfloor q.
Proof.
  destruct q as [a p]. intros Hq. unfold Qle in Hq; cbn in Hq.
  rewrite Qtrunc_nonneg by lia. reflexivity.
Qed.

(** The tick length in closed form: [661500 / bpm] rounded half up. *)
Lemma clock_spt_closed (b : Z) :
  30 <= b ->
  clock_spt_from_bpm b = u32 ((1323000 + b) / (2 * b)).
Proof.
  intros Hb. unfold clock_spt_from_bpm.
  replace (b <? 30) with false by (symmetry; apply Z.ltb_ge; lia).
  f_equal.
  assert (Hq : (inject_Z SR * 60 / (inject_Z b * 4) + (1 # 2)
                == (1323000 + b) # Z.to_pos (2 * b))%Q).
  { rewrite (Qmake_Qdiv (1323000 + b)), Z2Pos.id by lia.
    rewrite inject_Z_plus, inject_Z_mult. unfold SR.
    assert (Hb0 : ~ (inject_Z b == 0)%Q) by (unfold Qeq; cbn; lia).
    change (inject_Z 1323000) with 1323000%Q.
    change (inject_Z 44100) with 44100%Q. change (inject_Z 2) with 2%Q.
    field. exact Hb0. }
  rewrite Qtrunc_floor.
  - rewrite (Qfloor_comp _ _ Hq). cbn [Qfloor].
    rewrite Z2Pos.id by lia. reflexivity.
  - rewrite Hq. unfold Qle; cbn. lia.
Qed.

Lemma clock_spt_clamps_low (b : Z) :
  b < 30 -> clock_spt_from_bpm b = clock_spt_from_bpm 30.
Proof.
  intros Hb. unfold clock_spt_from_bpm.
  replace (b <? 30) with true by (symmetry; apply Z.ltb_lt; lia).
  reflexivity.
Qed.

Lemma clock_spt_range (b : Z) :
  30 <= b <= 240 -> 2756 <= clock_spt_from_bpm b <= 22050.
Proof.
  intros Hb. rewrite clock_spt_closed by lia. unfold u32.
  assert (H1 : 2756 <= (1323000 + b) / (2 * b)).
  { apply Z.div_le_lower_bound; lia. }
  assert (H2 : (1323000 + b) / (2 * b) <= 22050).
  { apply Z.lt_succ_r. apply Z.div_lt_upper_bound; lia. }
  rewrite Z.mod_small by lia. lia.
Qed.

Lemma clock_init_at (b : Z) :
  clock_init b = clock_at (clock_spt_from_bpm b) (u16 b) 0 (0 / clock_spt_from_bpm b).
Proof.
  unfold clock_init, clock_at. rewrite Zdiv_0_l, Z.mul_1_r. reflexivity.
Qed.

(** C1. Chunking-invariant clock: from [clock_init] at a fixed tempo, any
    way of cutting [N] samples into blocks fires the same events: exactly
    [N / samplesPerTick] of them, the i-th carrying step index [i mod 16].
    The sample counter is 64 bits wide, so [N] has to stay below its wrap,
    and the tick length has to be positive. *)
Theorem clock_chunking_invariant (b : Z) (blocks : list Z) :
  1 <= clock_spt_from_bpm b ->
  Forall (fun blk => 0 <= blk < 2 ^ 32) blocks ->
  sum_blocks blocks + clock_spt_from_bpm b < 2 ^ 64 ->
  exists (c' : Clock16) (events : list Z),
    events = step_events (sum_blocks blocks / clock_spt_from_bpm b) /\
    length events = Z.to_nat (sum_blocks blocks / clock_spt_from_bpm b) /\
    (forall i : nat, (i < length events)%nat ->
       events !! i = Some (Z.of_nat i mod 16)) /\
    (forall fuel : nat, (length events <= fuel)%nat ->
       clock_run record_step fuel blocks (clock_init b) [] = Some (c', events)) /\
    (forall (blocks' : list Z) (fuel : nat),
       Forall (fun blk => 0 <= blk < 2 ^ 32) blocks' ->
       sum_blocks blocks' = sum_blocks blocks ->
       (length events <= fuel)%nat ->
       clock_run record_step fuel blocks' (clock_init b) [] = Some (c', events)).
Proof.
  intros Hs Hall Hlt.
  set (spt := clock_spt_from_bpm b) in *. set (N := sum_blocks blocks) in *.
  exists (clock_at spt (u16 b) N (N / spt)), (step_events (N / spt)).
  assert (Hrun : forall (bl : list Z) (fuel : nat),
             Forall (fun blk => 0 <= blk < 2 ^ 32) bl -> sum_blocks bl = N ->
             (length (step_events (N / spt)) <= fuel)%nat ->
             clock_run record_step fuel bl (clock_init b) []
             = Some (clock_at spt (u16 b) N (N / spt), step_events (N / spt))).
  { intros bl fuel Hbl Hsum Hf. rewrite step_events_length in Hf.
    rewrite clock_init_at. fold spt.
    rewrite clock_run_at; rewrite ?Hsum, ?Z.add_0_l, ?Zdiv_0_l, ?Z.sub_0_r;
      try lia; try assumption.
    rewrite fire_record_step. reflexivity. }
  repeat split.
  - apply step_events_length.
  - intros i Hi. rewrite step_events_length in Hi.
    apply step_events_lookup; exact Hi.
  - intros fuel Hf. apply Hrun; [exact Hall | reflexivity | exact Hf].
  - intros bl fuel Hbl Hsum Hf. apply Hrun; assumption.
Qed.

Lemma clock_chunking_invariant_witness :
  exists (c' : Clock16) (events : list Z),
    events = step_events (sum_blocks [256; 6000; 10000] / clock_spt_from_bpm 104) /\
    length events = Z.to_nat (sum_blocks [256; 6000; 10000] / clock_spt_from_bpm 104) /\
    (forall i : nat, (i < length events)%nat ->
       events !! i = Some (Z.of_nat i mod 16)) /\
    (forall fuel : nat, (length events <= fuel)%nat ->
       clock_run record_step fuel [256; 6000; 10000] (clock_init 104) []
       = Some (c', events)) /\
    (forall (blocks' : list Z) (fuel : nat),
       Forall (fun blk => 0 <= blk < 2 ^ 32) blocks' ->
       sum_blocks blocks' = sum_blocks [256; 6000; 10000] ->
       (length events <= fuel)%nat ->
       clock_run record_step fuel blocks' (clock_init 104) [] = Some (c', events)).
Proof.
  apply (clock_chunking_invariant 104 [256; 6000; 10000]).
  - vm_compute. discriminate.
  - repeat constructor; vm_compute; congruence.
  - vm_compute. reflexivity.
Defined.

(** Two chunkings of the same 16256 samples at 104 BPM, run side by side. *)
Example clock_chunking_example :
  clock_run record_step 5 [256; 6000; 10000] (clock_init 104) []
  = clock_run record_step 5 [16000; 0; 256] (clock_init 104) []
  /\ option_map snd (clock_run record_step 5 [256; 6000; 10000] (clock_init 104) [])
     = Some [0; 1].
Proof. vm_compute. split; reflexivity. Qed.

(** The loop from an arbitrary clock state: with a positive tick length and
    no wrap of the counter before the block ends, [m] units of fuel are
    enough as soon as [m] ticks overshoot the block end. *)
Lemma clock_loop_total {W : Type} (h : Z -> W -> W) (blockEnd : Z) (m : nat) :
  forall (c : Clock16) (w : W),
  1 <= samplesPerTick c -> 0 <= nextTickAt c ->
  blockEnd + samplesPerTick c < 2 ^ 64 ->
  blockEnd - nextTickAt c < Z.of_nat m * samplesPerTick c ->
  exists (c' : Clock16) (evs : list Z),
    clock_loop h m blockEnd c w = Some (c', fold_left (fun w s => h s w) evs w) /\
    (length evs <= m)%nat /\
    samplesPerTick c' = samplesPerTick c /\ smpNow c' = smpNow c /\
    blockEnd < nextTickAt c'.
Proof.
  induction m as [|m IH]; intros c w Hs Hn Hlt Hm.
  - exists c, []. cbn [clock_loop].
    replace (nextTickAt c <=? blockEnd) with false
      by (symmetry; apply Z.leb_gt; lia).
    cbn. repeat split; lia.
  - cbn [clock_loop]. destruct (Z.leb_spec (nextTickAt c) blockEnd) as [Hle|Hgt].
    + assert (Hnext : nextTickAt (clock_tick c) = nextTickAt c + samplesPerTick c).
      { cbn. unfold u64. apply Z.mod_small. lia. }
      destruct (IH (clock_tick c) (h (step16 c) w)) as (c' & evs & Hrun & Hlen & Hspt & Hnow & Hend).
      * cbn. exact Hs.
      * rewrite Hnext. lia.
      * cbn. exact Hlt.
      * rewrite Hnext. cbn [samplesPerTick clock_tick]. lia.
      * exists c', (step16 c :: evs). cbn [fold_left length].
        repeat split; [exact Hrun | lia | exact Hspt | exact Hnow | exact Hend].
    + exists c, []. cbn. repeat split; lia.
Qed.

(** C10. Clock-loop termination: [clock_spt_from_bpm] raises a tempo below
    30 to 30 and is at least 1 on the tempo domain 30..240; with such a tick
    length every pass of the while loop moves [nextTickAt] strictly forward,
    and [clock_advance_block] returns after finitely many [onStep16] calls,
    as long as the 64-bit sample counter does not wrap within the block. *)
Theorem clock_loop_terminates {W : Type} (h : Z -> W -> W)
    (b : Z) (c : Clock16) (blk : Z) (w : W) :
  30 <= b <= 240 ->
  samplesPerTick c = clock_spt_from_bpm b ->
  0 <= smpNow c -> 0 <= nextTickAt c -> 0 <= blk < 2 ^ 32 ->
  smpNow c + blk + samplesPerTick c < 2 ^ 64 ->
  (forall low : Z, low < 30 -> clock_spt_from_bpm low = clock_spt_from_bpm 30) /\
  1 <= clock_spt_from_bpm b /\
  (nextTickAt c <= smpNow c + blk -> nextTickAt c < nextTickAt (clock_tick c)) /\
  exists (fuel : nat) (c' : Clock16) (evs : list Z),
    clock_advance_block h fuel c blk w
    = Some (c', fold_left (fun w s => h s w) evs w) /\
    (length evs <= fuel)%nat /\
    Z.of_nat fuel <= (smpNow c + blk) / samplesPerTick c + 1 /\
    smpNow c' = smpNow c + blk /\ smpNow c' < nextTickAt c'.
Proof.
  intros Hb Hspt Hnow Hnext Hblk Hlt.
  pose proof (clock_spt_range b Hb) as Hr. rewrite <- Hspt in Hr.
  split; [exact clock_spt_clamps_low|]. split; [lia|]. split.
  - intros Hle. cbn. unfold u64. rewrite Z.mod_small by lia. lia.
  - set (E := smpNow c + blk).
    set (m := Z.to_nat (E / samplesPerTick c + 1)).
    assert (HE : 0 <= E / samplesPerTick c) by (apply Z.div_pos; lia).
    destruct (clock_loop_total h E m c w) as (c' & evs & Hrun & Hlen & _ & _ & Hend);
      try lia.
    { pose proof (Z.mul_succ_div_gt E (samplesPerTick c) ltac:(lia)). subst m. nia. }
    exists m, (clock_set_now c' E), evs.
    unfold clock_advance_block. fold E. unfold u64.
    rewrite (Z.mod_small E) by (subst E; lia). rewrite Hrun.
    repeat split; [exact Hlen | subst m; lia | cbn; exact Hend].
Qed.

Lemma clock_loop_terminates_witness :
  (forall low : Z, low < 30 -> clock_spt_from_bpm low = clock_spt_from_bpm 30) /\
  1 <= clock_spt_from_bpm 104 /\
  (nextTickAt (clock_init 104) <= smpNow (clock_init 104) + 20000 ->
   nextTickAt (clock_init 104) < nextTickAt (clock_tick (clock_init 104))) /\
  exists (fuel : nat) (c' : Clock16) (evs : list Z),
    clock_advance_block record_step fuel (clock_init 104) 20000 []
    = Some (c', fold_left (fun w s => record_step s w) evs []) /\
    (length evs <= fuel)%nat /\
    Z.of_nat fuel <= (smpNow (clock_init 104) + 20000) / samplesPerTick (clock_init 104) + 1 /\
    smpNow c' = smpNow (clock_init 104) + 20000 /\ smpNow c' < nextTickAt c'.
Proof.
  apply (clock_loop_terminates record_step 104 (clock_init 104) 20000 []).
  - lia.
  - reflexivity.
  - vm_compute. discriminate.
  - vm_compute. discriminate.
  - lia.
  - vm_compute. reflexivity.
Defined.

(** The block of the witness: at 104 BPM a tick lasts 6361 samples, so in a
    block of 20000 samples the ticks at 6361, 12722 and 19083 are due.  The
    loop body runs three times, each pass moves [nextTickAt] on by 6361,
    steps 0, 1 and 2 fire in this order, and the loop stops with the next
    tick at 25444. *)
Example clock_block_with_three_ticks :
  nextTickAt (clock_init 104) = 6361 /\
  nextTickAt (clock_tick (clock_init 104)) = 12722 /\
  nextTickAt (clock_tick (clock_tick (clock_init 104))) = 19083 /\
  clock_advance_block record_step 3 (clock_init 104) 20000 []
  = Some (mkClock16 20000 25444 6361 3 104, [0; 1; 2]) /\
  clock_advance_block record_step 2 (clock_init 104) 20000 [] = None.
Proof. vm_compute. repeat split; reflexivity. Qed.

(** Every tempo up to 240, clamped or not, has a positive tick length. *)
Lemma clock_spt_pos (b : Z) : b <= 240 -> 1 <= clock_spt_from_bpm b.
Proof.
  intros Hb. destruct (Z.lt_ge_cases b 30) as [Hlow | Hhigh].
  - rewrite clock_spt_clamps_low by exact Hlow.
    pose proof (clock_spt_range 30 ltac:(lia)). lia.
  - pose proof (clock_spt_range b ltac:(lia)). lia.
Qed.

(** Why the loop runs on fuel: with a tick length of 0 and a tick due, no
    amount of fuel lets it come back. *)
Lemma clock_loop_spins_on_zero_tick {W : Type} (h : Z -> W -> W) (fuel : nat) :
  forall (blockEnd : Z) (c : Clock16) (w : W),
  samplesPerTick c = 0 -> 0 <= nextTickAt c < 2 ^ 64 -> nextTickAt c <= blockEnd ->
  clock_loop h fuel blockEnd c w = None.
Proof.
  induction fuel as [|fuel IH]; intros blockEnd c w Hspt Hrange Hdue; cbn [clock_loop];
    replace (nextTickAt c <=? blockEnd) with true by (symmetry; apply Z.leb_le; exact Hdue).
  - reflexivity.
  - apply IH; cbn [samplesPerTick nextTickAt clock_tick].
    + exact Hspt.
    + rewrite Hspt, Z.add_0_r. unfold u64. rewrite Z.mod_small by lia. lia.
    + rewrite Hspt, Z.add_0_r. unfold u64. rewrite Z.mod_small by lia. exact Hdue.
Qed.

(** ** Quantizer *)

Lemma in_scaleb_spec (s : Scale) (m : Z) : in_scaleb s m = true <-> in_scale s m.
Proof.
  unfold in_scaleb, in_scale. rewrite existsb_exists. split.
  - intros (x & Hx & Heq). apply Z.eqb_eq in Heq. subst x.
    apply list_elem_of_In. exact Hx.
  - intros Hin. exists (pc12 m). split; [apply list_elem_of_In; exact Hin|].
    apply Z.eqb_refl.
Qed.


(** The exhaustive part: all 128 notes on all four scales. *)
Lemma quantize_check_all :
  forallb (fun s => forallb (fun n => quantize_check s (Z.of_nat n)) (seq 0 128))
          all_scales = true.
Proof. vm_compute. reflexivity. Qed.

Lemma quantize_check_ok (s : Scale) (midi : Z) :
  0 <= midi <= 127 -> quantize_check s midi = true.
Proof.
  intros Hm. pose proof quantize_check_all as Hall.
  rewrite forallb_forall in Hall.
  assert (Hs : In s all_scales) by (destruct s; cbn; tauto).
  specialize (Hall s Hs). rewrite forallb_forall in Hall.
  specialize (Hall (Z.to_nat midi)).
  rewrite Z2Nat.id in Hall by lia. apply Hall.
  apply in_seq. lia.
Qed.

Lemma quantizeMidi_in_scale (s : Scale) (midi : Z) :
  0 <= midi <= 127 -> in_scale s (quantizeMidi midi s).
Proof.
  intros Hm. pose proof (quantize_check_ok s midi Hm) as Hc.
  unfold quantize_check in Hc.
  apply andb_prop in Hc as [Hc _]. apply andb_prop in Hc as [Hc _].
  apply in_scaleb_spec. exact Hc.
Qed.



(** C#4 (61) lies between C and D in A minor: the tie goes up, to D (62). *)
Example quantizeMidi_tie_up :
  quantizeMidi 61 SCALE_A_MINOR = 62 /\ quantize_shift 61 SCALE_A_MINOR = 1.
Proof. vm_compute. split; reflexivity. Qed.

(** ** Float comparisons *)

Lemma Qleb_spec (x y : Q) : BoolSpec (x <= y)%Q (y < x)%Q (Qleb x y).
Proof.
  unfold Qleb. destruct (Qle_bool x y) eqn:E; constructor.
  - apply Qle_bool_iff. exact E.
  - apply Qnot_le_lt. intros H. apply Qle_bool_iff in H. congruence.
Qed.

Lemma Qltb_spec (x y : Q) : BoolSpec (x < y)%Q (y <= x)%Q (Qltb x y).
Proof.
  unfold Qltb. destruct (Qle_bool y x) eqn:E; constructor.
  - apply Qle_bool_iff. exact E.
  - apply Qnot_le_lt. intros H. apply Qle_bool_iff in H. congruence.
Qed.

(** Case analysis on every float comparison in the goal. *)
Ltac q_cases :=
  repeat match goal with
         | |- context [Qltb ?a ?b] => destruct (Qltb_spec a b)
         | |- context [Qleb ?a ?b] => destruct (Qleb_spec a b)
         | |- context [Qlt_le_dec ?a ?b] => destruct (Qlt_le_dec a b)
         end.

Lemma constrain_bounds (x lo hi : Q) :
  (lo <= hi)%Q -> (lo <= constrain x lo hi <= hi)%Q.
Proof. intros H. unfold constrain. q_cases; lra. Qed.

Lemma clamp_unit_bounds (x : Q) : (-1 <= clamp_unit x <= 1)%Q.
Proof. unfold clamp_unit. q_cases; lra. Qed.

(** ** ADSR envelope *)

Local Open Scope Q_scope.

Lemma adsr_rate_pos (t sr : Q) :
  0 < t -> 0 < sr -> 0 < adsr_rate t sr /\ adsr_rate t sr * (t * sr) == 1.
Proof.
  intros Ht Hsr. unfold adsr_rate.
  destruct (Qleb_spec t 0); [lra|].
  assert (Hp : 0 < t * sr) by nra.
  split.
  - apply Qlt_shift_div_l; [exact Hp | lra].
  - field. lra.
Qed.

Lemma adsr_step_consts (e : ADSR) (sr : Q) :
  adsr_a (adsr_step e sr) = adsr_a e /\ adsr_d (adsr_step e sr) = adsr_d e /\
  adsr_s (adsr_step e sr) = adsr_s e /\ adsr_r (adsr_step e sr) = adsr_r e /\
  gate (adsr_step e sr) = gate e.
Proof.
  unfold adsr_step.
  destruct (st e); cbn zeta;
    repeat match goal with |- context [if ?b then _ else _] => destruct b end;
    cbn; repeat split; reflexivity.
Qed.

(** One step keeps the envelope in [0,1]. *)
Lemma adsr_step_ok (e : ADSR) (sr : Q) :
  0 < sr -> adsr_ok e -> adsr_ok (adsr_step e sr).
Proof.
  intros Hsr (Ha & Hd & Hs & Hr & He).
  destruct (adsr_step_consts e sr) as (Ea & Ed & Es & Er & _).
  unfold adsr_ok. rewrite Ea, Ed, Es, Er.
  refine (conj Ha (conj Hd (conj Hs (conj Hr _)))).
  unfold adsr_step. destruct (st e); cbn zeta.
  - cbn. lra.
  - destruct (adsr_rate_pos _ _ Ha Hsr) as [Hp _].
    destruct (Qleb_spec 1 (env e + adsr_rate (adsr_a e) sr)); cbn; lra.
  - destruct (adsr_rate_pos _ _ Hd Hsr) as [Hp _].
    destruct (Qleb_spec (env e - adsr_rate (adsr_d e) sr * (1 - adsr_s e)) (adsr_s e));
      cbn; [lra|].
    assert (0 <= adsr_rate (adsr_d e) sr * (1 - adsr_s e)) by nra. lra.
  - destruct (gate e); cbn; lra.
  - destruct (adsr_rate_pos _ _ Hr Hsr) as [Hp _].
    destruct (Qleb_spec (env e - adsr_rate (adsr_r e) sr * env e) (8 # 10000));
      cbn; [lra|].
    assert (0 <= adsr_rate (adsr_r e) sr * env e) by nra. lra.
Qed.

Lemma adsr_run_ok (n : nat) :
  forall (e : ADSR) (sr : Q), 0 < sr -> adsr_ok e -> adsr_ok (adsr_run n e sr).
Proof.
  induction n as [|n IH]; intros e sr Hsr He; cbn [adsr_run].
  - exact He.
  - apply IH; [exact Hsr | apply adsr_step_ok; assumption].
Qed.

Lemma adsr_run_S (n : nat) (e : ADSR) (sr : Q) :
  adsr_run (S n) e sr = adsr_step (adsr_run n e sr) sr.
Proof.
  revert e. induction n as [|n IH]; intros e; [reflexivity|].
  cbn [adsr_run] in *. rewrite IH. reflexivity.
Qed.

Lemma adsr_run_consts (n : nat) (e : ADSR) (sr : Q) :
  adsr_r (adsr_run n e sr) = adsr_r e.
Proof.
  induction n as [|n IH]; [reflexivity|].
  rewrite adsr_run_S.
  destruct (adsr_step_consts (adsr_run n e sr) sr) as (_ & _ & _ & Er & _).
  rewrite Er. exact IH.
Qed.

(** Once idle, the envelope stays idle at zero. *)
Lemma adsr_run_idle (n : nat) :
  forall (e : ADSR) (sr : Q),
  st e = ENV_IDLE -> env e = 0 ->
  st (adsr_run n e sr) = ENV_IDLE /\ env (adsr_run n e sr) = 0.
Proof.
  induction n as [|n IH]; intros e sr Hst Henv; cbn [adsr_run].
  - split; assumption.
  - apply IH; unfold adsr_step; rewrite Hst; reflexivity.
Qed.

Lemma Qpow_nonneg (q : Q) (n : nat) : 0 <= q -> 0 <= Qpow q n.
Proof. intros Hq. induction n as [|n IH]; cbn; [lra | nra]. Qed.

Lemma Qpow_le_1 (q : Q) (n : nat) : 0 <= q <= 1 -> Qpow q n <= 1.
Proof.
  intros Hq. induction n as [|n IH]; cbn; [lra|].
  pose proof (Qpow_nonneg q n ltac:(lra)). nra.
Qed.

Lemma Qpow_add (q : Q) (n m : nat) : Qpow q (n + m) == Qpow q n * Qpow q m.
Proof. induction n as [|n IH]; cbn; [ring | rewrite IH; ring]. Qed.

Lemma Qpow_mul (q : Q) (n m : nat) : Qpow q (n * m) == Qpow (Qpow q m) n.
Proof.
  induction n as [|n IH]; cbn; [reflexivity|].
  rewrite Qpow_add, IH. reflexivity.
Qed.

Lemma Qpow_mono (p q : Q) (n : nat) : 0 <= p <= q -> Qpow p n <= Qpow q n.
Proof.
  intros H. induction n as [|n IH]; cbn; [lra|].
  pose proof (Qpow_nonneg p n ltac:(lra)). nra.
Qed.

(** Bernoulli's inequality, in the form the release needs. *)
Lemma Qpow_bernoulli (x : Q) (m : nat) :
  0 <= x <= 1 -> Qpow (1 - x) m * (1 + inject_Z (Z.of_nat m) * x) <= 1.
Proof.
  intros Hx. induction m as [|m IH].
  - cbn [Qpow]. change (inject_Z (Z.of_nat 0)) with 0. lra.
  - rewrite Nat2Z.inj_succ. unfold Z.succ. rewrite inject_Z_plus.
    change (inject_Z 1) with 1. cbn [Qpow].
    pose proof (Qpow_nonneg (1 - x) m ltac:(lra)) as Hp.
    assert (Hm : 0 <= inject_Z (Z.of_nat m)).
    { change 0 with (inject_Z 0). rewrite <- Zle_Qle. lia. }
    set (P := Qpow (1 - x) m) in *. set (M := inject_Z (Z.of_nat m)) in *.
    assert (H1 : (1 - x) * (1 + (M + 1) * x) <= 1 + M * x) by nra.
    nra.
Qed.

(** One release step, by the threshold test. *)
Lemma adsr_release_step (e : ADSR) (sr : Q) :
  0 < sr -> 0 < adsr_r e -> st e = ENV_RELEASE ->
  (env e - 1 / (adsr_r e * sr) * env e <= 8 # 10000 ->
   st (adsr_step e sr) = ENV_IDLE /\ env (adsr_step e sr) = 0) /\
  (8 # 10000 < env e - 1 / (adsr_r e * sr) * env e ->
   st (adsr_step e sr) = ENV_RELEASE /\
   env (adsr_step e sr) == env e - 1 / (adsr_r e * sr) * env e).
Proof.
  intros Hsr Hr Hst. unfold adsr_step. rewrite Hst. cbn zeta.
  unfold adsr_rate. destruct (Qleb_spec (adsr_r e) 0); [lra|].
  destruct (Qleb_spec (env e - 1 / (adsr_r e * sr) * env e) (8 # 10000));
    cbn; split; intros; try lra; split; reflexivity.
Qed.

(** While the release is running, the envelope is the start value times a
    power of [1 - 1/(r*sr)]; otherwise it has already gone idle. *)
Lemma adsr_release_run (n : nat) (e : ADSR) (sr : Q) :
  0 < sr -> 0 < adsr_r e -> st e = ENV_RELEASE ->
  (exists k : nat, (1 <= k <= n)%nat /\
     st (adsr_run k e sr) = ENV_IDLE /\ env (adsr_run k e sr) = 0 /\
     forall j : nat, (j < k)%nat -> st (adsr_run j e sr) = ENV_RELEASE) \/
  (st (adsr_run n e sr) = ENV_RELEASE /\
   env (adsr_run n e sr) == env e * Qpow (1 - 1 / (adsr_r e * sr)) n /\
   ((1 <= n)%nat -> 8 # 10000 < env (adsr_run n e sr)) /\
   forall j : nat, (j <= n)%nat -> st (adsr_run j e sr) = ENV_RELEASE).
Proof.
  intros Hsr Hr Hst. induction n as [|n IH].
  - right. cbn [adsr_run Qpow]. repeat split.
    + exact Hst.
    + ring.
    + lia.
    + intros j Hj. assert (j = 0%nat) as -> by lia. exact Hst.
  - destruct IH as [(k & Hk & Hidle & Hzero & Hbefore) | (Hrel & Henv & Hthr & Hbefore)].
    + left. exists k. repeat split; try assumption; lia.
    + pose proof (adsr_release_step (adsr_run n e sr) sr Hsr) as Hstep.
      rewrite adsr_run_consts in Hstep. specialize (Hstep Hr Hrel).
      destruct Hstep as [Hlow Hhigh]. rewrite <- adsr_run_S in Hlow, Hhigh.
      destruct (Qlt_le_dec (8 # 10000)
                  (env (adsr_run n e sr) - 1 / (adsr_r e * sr) * env (adsr_run n e sr)))
        as [Hgt | Hle].
      * right. destruct (Hhigh Hgt) as [Hst' Henv'].
        split; [exact Hst'|]. split; [|split].
        -- rewrite Henv', Henv. cbn [Qpow]. ring.
        -- intros _. rewrite Henv'. exact Hgt.
        -- intros j Hj. destruct (Nat.eq_dec j (S n)) as [-> | Hne];
             [exact Hst' | apply Hbefore; lia].
      * left. destruct (Hlow Hle) as [Hst' Henv'].
        exists (S n). repeat split; try assumption; try lia.
        intros j Hj. apply Hbefore. lia.
Qed.

Lemma Qpow_half_11 : Qpow (1 # 2) 11 < 8 # 10000.
Proof. vm_compute. reflexivity. Qed.

(** The envelope without rounding.  In the exact arithmetic of
    [adsr_step]: with positive attack, decay and release times, a sustain
    level in [0,1] and the envelope started in [0,1] (it is 0 at
    construction and at note-on), the envelope is in [0,1] after every
    [adsr_step]; in Release a step that brings the envelope to the threshold
    0.0008 or below sets it to exactly 0 and the state to Idle, and this
    happens within [11 * ceil(r * sr)] steps, after which the envelope stays
    idle at 0. *)
Theorem adsr_bounded_and_released (e : ADSR) (sr : Q) :
  0 < sr -> adsr_ok e ->
  (forall n : nat, 0 <= env (adsr_run n e sr) <= 1) /\
  (st e = ENV_RELEASE ->
   (env e - 1 / (adsr_r e * sr) * env e <= 8 # 10000 ->
    st (adsr_step e sr) = ENV_IDLE /\ env (adsr_step e sr) = 0) /\
   (8 # 10000 < env e - 1 / (adsr_r e * sr) * env e ->
    st (adsr_step e sr) = ENV_RELEASE /\
    env (adsr_step e sr) == env e - 1 / (adsr_r e * sr) * env e) /\
   exists k : nat,
     (1 <= k)%nat /\
     (Z.of_nat k <= 11 * Qceiling (adsr_r e * sr))%Z /\
     st (adsr_run k e sr) = ENV_IDLE /\ env (adsr_run k e sr) = 0 /\
     (forall j : nat, (j < k)%nat -> st (adsr_run j e sr) = ENV_RELEASE) /\
     (forall j : nat, (k <= j)%nat ->
        st (adsr_run j e sr) = ENV_IDLE /\ env (adsr_run j e sr) = 0)).
Proof.
  intros Hsr Hok. split.
  { intros n. pose proof (adsr_run_ok n e sr Hsr Hok) as (_ & _ & _ & _ & H).
    exact H. }
  intros Hst. destruct Hok as (_ & _ & _ & Hr & He).
  destruct (adsr_release_step e sr Hsr Hr Hst) as [Hlow Hhigh].
  split; [exact Hlow|]. split; [exact Hhigh|].
  set (rs := adsr_r e * sr). assert (Hrs : 0 < rs) by (subst rs; nra).
  set (dec := 1 / rs). fold rs in Hlow, Hhigh.
  assert (Hdec : 0 < dec /\ dec * rs == 1).
  { subst dec. split; [apply Qlt_shift_div_l; lra | field; lra]. }
  set (c := Qceiling rs).
  assert (Hc : rs <= inject_Z c) by apply Qle_ceiling.
  assert (Hc1 : (1 <= c)%Z).
  { assert (0 < inject_Z c) by lra.
    change 0 with (inject_Z 0) in H. rewrite <- Zlt_Qlt in H. lia. }
  set (m := Z.to_nat c).
  assert (Hm : inject_Z (Z.of_nat m) == inject_Z c)
    by (subst m; rewrite Z2Nat.id by lia; reflexivity).
  (* the run either went idle within [11 * m] steps or is still releasing *)
  assert (Hmain : exists k : nat, (1 <= k <= 11 * m)%nat /\
            st (adsr_run k e sr) = ENV_IDLE /\ env (adsr_run k e sr) = 0 /\
            forall j : nat, (j < k)%nat -> st (adsr_run j e sr) = ENV_RELEASE).
  { destruct (Qlt_le_dec dec 1) as [Hlt | Hge].
    - destruct (adsr_release_run (11 * m) e sr Hsr Hr Hst)
        as [Hdone | (_ & Henv & Hthr & _)]; [exact Hdone|].
      exfalso. fold rs dec in Henv.
      assert (Hq : 0 <= 1 - dec <= 1) by lra.
      assert (Hhalf : Qpow (1 - dec) m <= 1 # 2).
      { pose proof (Qpow_bernoulli dec m ltac:(lra)) as Hb.
        pose proof (Qpow_nonneg (1 - dec) m ltac:(lra)) as Hp.
        assert (1 <= inject_Z (Z.of_nat m) * dec) by (rewrite Hm; nra).
        nra. }
      assert (Hpow : Qpow (1 - dec) (11 * m) <= Qpow (1 # 2) 11).
      { rewrite Qpow_mul. apply Qpow_mono. split; [|exact Hhalf].
        apply Qpow_nonneg; lra. }
      pose proof Qpow_half_11 as H11.
      pose proof (Qpow_nonneg (1 - dec) (11 * m) ltac:(lra)) as Hp.
      assert (Hlast : 8 # 10000 < env (adsr_run (11 * m) e sr)) by (apply Hthr; lia).
      rewrite Henv in Hlast. nra.
    - destruct (adsr_release_run 1 e sr Hsr Hr Hst)
        as [(k & Hk & Hrest) | (_ & Henv & Hthr & _)].
      + exists k. split; [lia | exact Hrest].
      + exfalso. fold rs dec in Henv. cbn [Qpow] in Henv.
        assert (Hlast : 8 # 10000 < env (adsr_run 1 e sr)) by (apply Hthr; lia).
        rewrite Henv in Hlast. nra. }
  destruct Hmain as (k & Hk & Hidle & Hzero & Hbefore).
  exists k. split; [lia|]. split; [fold c; lia|].
  split; [exact Hidle|]. split; [exact Hzero|]. split; [exact Hbefore|].
  intros j Hj. replace j with (k + (j - k))%nat by lia.
  clear -Hidle Hzero. generalize (j - k)%nat as i. intros i.
  assert (Hsplit : forall a b x, adsr_run (a + b) x sr = adsr_run b (adsr_run a x sr) sr).
  { induction a as [|a IH]; intros b x; cbn [adsr_run Nat.add]; [reflexivity | apply IH]. }
  rewrite Hsplit. apply adsr_run_idle; assumption.
Qed.

(** The pluck envelope (3 ms attack, 80 ms decay, sustain 0, 60 ms release)
    at 44.1 kHz, caught in release at level 1/2. *)
Lemma adsr_bounded_and_released_witness :
  (forall n : nat, 0 <= env (adsr_run n adsr_half_released 44100) <= 1) /\
  (st adsr_half_released = ENV_RELEASE ->
   (env adsr_half_released
    - 1 / (adsr_r adsr_half_released * 44100) * env adsr_half_released <= 8 # 10000 ->
    st (adsr_step adsr_half_released 44100) = ENV_IDLE /\
    env (adsr_step adsr_half_released 44100) = 0) /\
   (8 # 10000 < env adsr_half_released
                - 1 / (adsr_r adsr_half_released * 44100) * env adsr_half_released ->
    st (adsr_step adsr_half_released 44100) = ENV_RELEASE /\
    env (adsr_step adsr_half_released 44100)
    == env adsr_half_released
       - 1 / (adsr_r adsr_half_released * 44100) * env adsr_half_released) /\
   exists k : nat,
     (1 <= k)%nat /\
     (Z.of_nat k <= 11 * Qceiling (adsr_r adsr_half_released * 44100))%Z /\
     st (adsr_run k adsr_half_released 44100) = ENV_IDLE /\
     env (adsr_run k adsr_half_released 44100) = 0 /\
     (forall j : nat, (j < k)%nat ->
        st (adsr_run j adsr_half_released 44100) = ENV_RELEASE) /\
     (forall j : nat, (k <= j)%nat ->
        st (adsr_run j adsr_half_released 44100) = ENV_IDLE /\
        env (adsr_run j adsr_half_released 44100) = 0)).
Proof.
  apply (adsr_bounded_and_released adsr_half_released 44100).
  - reflexivity.
  - unfold adsr_ok; cbn. repeat split; try reflexivity; discriminate.
Defined.

(** ** Pluck pool *)

Lemma first_inactive_spec (vs : list PluckVoice) :
  forall i : Z,
  (first_inactive vs i = -1 /\ forall y, y ∈ vs -> active y = true)%Z \/
  (exists (k : nat) (x : PluckVoice),
     first_inactive vs i = (i + Z.of_nat k)%Z /\ vs !! k = Some x /\
     active x = false /\
     forall (j : nat) (y : PluckVoice), (j < k)%nat -> vs !! j = Some y -> active y = true).
Proof.
  induction vs as [|x rest IH]; intros i; cbn [first_inactive].
  - left. split; [reflexivity|]. intros y Hy. inversion Hy.
  - destruct (active x) eqn:Hx; cbn [negb].
    + destruct (IH (i + 1)%Z) as [(Hr & Hall) | (k & x' & Hr & Hk & Hx' & Hbefore)].
      * left. split; [exact Hr|]. intros y Hy.
        apply elem_of_cons in Hy as [-> | Hy]; [exact Hx | apply Hall; exact Hy].
      * right. exists (S k), x'. repeat split.
        -- rewrite Hr. lia.
        -- exact Hk.
        -- exact Hx'.
        -- intros [|j] y Hj Hy; cbn in Hy.
           ++ congruence.
           ++ apply (Hbefore j); [lia | exact Hy].
    + right. exists 0%nat, x. repeat split.
      * lia.
      * exact Hx.
      * intros j y Hj. lia.
Qed.

Lemma quietest_spec (vs : list PluckVoice) :
  forall (i : Z) (best : Q * Z),
  (quietest vs i best = best /\ forall y, y ∈ vs -> fst best <= env (eg y)) \/
  (exists (k : nat) (x : PluckVoice),
     vs !! k = Some x /\
     quietest vs i best = (env (eg x), (i + Z.of_nat k)%Z) /\
     env (eg x) < fst best /\
     forall (j : nat) (y : PluckVoice), vs !! j = Some y ->
       env (eg x) <= env (eg y) /\ ((j < k)%nat -> env (eg x) < env (eg y))).
Proof.
  induction vs as [|x rest IH]; intros i best; cbn [quietest].
  - left. split; [reflexivity|]. intros y Hy. inversion Hy.
  - destruct (Qltb_spec (env (eg x)) (fst best)) as [Hlt | Hge].
    + destruct (IH (i + 1)%Z (env (eg x), i)) as [(Hr & Hall) | (k & x' & Hk & Hr & Hx' & Hmin)];
        cbn [fst] in *.
      * right. exists 0%nat, x. split; [reflexivity|]. split.
        { rewrite Hr. f_equal. lia. }
        split; [exact Hlt|].
        intros [|j] y Hy; cbn in Hy.
        -- inversion Hy; subst. split; [lra | lia].
        -- split; [|lia]. apply Hall. eapply list_elem_of_lookup_2. exact Hy.
      * right. exists (S k), x'. split; [exact Hk|]. split.
        { rewrite Hr. f_equal. lia. }
        split; [lra|].
        intros [|j] y Hy; cbn in Hy.
        -- inversion Hy; subst. split; intros; lra.
        -- destruct (Hmin j y Hy) as [H1 H2]. split; [exact H1|].
           intros Hj. apply H2. lia.
    + destruct (IH (i + 1)%Z best) as [(Hr & Hall) | (k & x' & Hk & Hr & Hx' & Hmin)].
      * left. split; [exact Hr|]. intros y Hy.
        apply elem_of_cons in Hy as [-> | Hy]; [exact Hge | apply Hall; exact Hy].
      * right. exists (S k), x'. split; [exact Hk|]. split.
        { rewrite Hr. f_equal. lia. }
        split; [exact Hx'|].
        intros [|j] y Hy; cbn in Hy.
        -- inversion Hy; subst. split; intros; lra.
        -- destruct (Hmin j y Hy) as [H1 H2]. split; [exact H1|].
           intros Hj. apply H2. lia.
Qed.

(** The allocation rule: the first inactive voice, else the first of the
    voices with the least envelope. *)
Lemma pluck_alloc_spec (vs : list PluckVoice) :
  vs <> [] -> Forall (fun x => 0 <= env (eg x) <= 1) vs ->
  exists (k : nat) (x : PluckVoice),
    pluck_alloc vs = Z.of_nat k /\ vs !! k = Some x /\
    ((active x = false /\
      forall (j : nat) (y : PluckVoice), (j < k)%nat -> vs !! j = Some y -> active y = true)
     \/
     ((forall y, y ∈ vs -> active y = true) /\
      forall (j : nat) (y : PluckVoice), vs !! j = Some y ->
        env (eg x) <= env (eg y) /\ ((j < k)%nat -> env (eg x) < env (eg y)))).
Proof.
  intros Hne Hall. unfold pluck_alloc.
  destruct (first_inactive_spec vs 0) as [(Hr & Hact) | (k & x & Hr & Hk & Hx & Hbefore)].
  - rewrite Hr. cbn [Z.ltb Z.compare].
    destruct (quietest_spec vs 0 (1000000000, (-1)%Z))
      as [(_ & Hmin) | (k & x & Hk & Hq & _ & Hmin)].
    + exfalso. destruct vs as [|y rest]; [congruence|].
      inversion Hall as [|? ? Hy _]; subst.
      specialize (Hmin y ltac:(left)). cbn [fst] in Hmin. lra.
    + exists k, x. rewrite Hq. cbn [snd]. split; [lia|]. split; [exact Hk|].
      right. split; [exact Hact | exact Hmin].
  - rewrite Hr. replace (0 + Z.of_nat k <? 0)%Z with false
      by (symmetry; apply Z.ltb_ge; lia).
    exists k, x. split; [lia|]. split; [exact Hk|]. left. split; assumption.
Qed.

Lemma pluck_init_ok (p : PluckPool) : pool_ok (pluck_init p).
Proof.
  split; [reflexivity|]. cbn. repeat constructor; cbn; lra.
Qed.

(** [pool_ok] is what the program maintains: it holds of the initial pool
    and is kept by [pluck_noteOn] and by the envelope pass of every sample. *)
Lemma pool_inv_ok (p : PluckPool) : pool_inv p -> pool_ok p.
Proof.
  intros [Hlen Hall]. split; [exact Hlen|].
  eapply Forall_impl; [exact Hall|]. intros x (_ & _ & _ & _ & He). exact He.
Qed.

Lemma ADSR_default_ok : adsr_ok ADSR_default.
Proof. unfold adsr_ok; cbn. repeat split; try reflexivity; discriminate. Qed.

Lemma pool_inv_default : pool_inv PluckPool_default /\ forall p, pool_inv (pluck_init p).
Proof.
  assert (H : Forall (fun x => adsr_ok (eg x)) (replicate 4 PluckVoice_default)).
  { apply Forall_replicate. exact ADSR_default_ok. }
  split; [|intros p]; (split; [reflexivity | exact H]).
Qed.

Lemma pool_inv_envs_step (p : PluckPool) (sr : Q) :
  0 < sr -> pool_inv p -> pool_inv (pluck_envs_step p sr).
Proof.
  intros Hsr [Hlen Hall]. split; cbn [pluck_envs_step pool_v].
  - rewrite length_map. exact Hlen.
  - apply Forall_fmap. eapply Forall_impl; [exact Hall|].
    intros x Hx. cbn. unfold voice_env_step.
    destruct (active x); [|exact Hx]. cbn [eg].
    apply adsr_step_ok; assumption.
Qed.

Lemma pool_inv_noteOn (powf : Q -> Q -> Q) (gScale : Scale) (p p' : PluckPool)
    (note : Z) (velocity : Q) :
  pool_inv p -> pluck_noteOn powf gScale p note velocity = Some p' -> pool_inv p'.
Proof.
  intros Hinv. unfold pluck_noteOn. cbn zeta.
  set (p0 := if pool_inited p then p else pluck_init p).
  assert (Hinv0 : pool_inv p0).
  { subst p0. destruct (pool_inited p); [exact Hinv | apply pool_inv_default]. }
  destruct Hinv0 as [Hlen Hall].
  destruct (pluck_alloc (pool_v p0) <? 0)%Z; [discriminate|].
  destruct (pool_v p0 !! Z.to_nat (pluck_alloc (pool_v p0))) as [old|] eqn:Hold;
    cbn [mbind option_bind]; [|discriminate].
  intros [= <-]. split; cbn [pool_v].
  - rewrite length_insert. exact Hlen.
  - apply Forall_insert; [exact Hall|]. cbn [eg].
    rewrite Forall_lookup in Hall. destruct (Hall _ _ Hold) as (Ha & Hd & Hs & Hr & _).
    unfold adsr_ok; cbn. repeat split; try assumption; try apply Hs; lra.
Qed.

(** [pluck_noteOn] returns on a pool that satisfies the invariant. *)
Lemma pluck_noteOn_total (powf : Q -> Q -> Q) (gScale : Scale) (p : PluckPool)
    (note : Z) (velocity : Q) :
  pool_inv p ->
  exists p' : PluckPool,
    pluck_noteOn powf gScale p note velocity = Some p' /\ pool_inv p'.
Proof.
  intros Hinv. unfold pluck_noteOn. cbn zeta.
  set (p0 := if pool_inited p then p else pluck_init p).
  assert (Hinv0 : pool_inv p0).
  { subst p0. destruct (pool_inited p); [exact Hinv | apply pool_inv_default]. }
  destruct (pool_inv_ok p0 Hinv0) as [Hlen Hall].
  assert (Hne : pool_v p0 <> []) by (intros E; rewrite E in Hlen; discriminate).
  destruct (pluck_alloc_spec (pool_v p0) Hne Hall) as (k & x & Halloc & Hk & _).
  rewrite Halloc.
  replace (Z.of_nat k <? 0)%Z with false by (symmetry; apply Z.ltb_ge; lia).
  rewrite Nat2Z.id, Hk. cbn [mbind option_bind].
  eexists. split; [reflexivity|].
  destruct Hinv0 as [_ Hadsr]. split; cbn [pool_v].
  - rewrite length_insert. exact Hlen.
  - apply Forall_insert; [exact Hadsr|]. cbn [eg].
    rewrite Forall_lookup in Hadsr. destruct (Hadsr _ _ Hk) as (Ha & Hd & Hs & Hr & _).
    unfold adsr_ok; cbn. repeat split; try assumption; try apply Hs; lra.
Qed.

(** C3. [pluck_noteOn] never fails on a pool of four voices with envelopes
    in [0,1]: for every note and velocity it returns a pool in which exactly
    one voice has been retriggered, the first inactive voice if there is one
    and otherwise the first voice of least envelope; that voice restarts at
    phase 0, envelope 0, state Attack, on the note quantized to the current
    scale, and the other three voices are untouched. *)
Theorem pluck_noteOn_allocates (powf : Q -> Q -> Q) (gScale : Scale)
    (p : PluckPool) (note : Z) (velocity : Q) :
  pool_ok p ->
  exists (idx : nat) (old v' : PluckVoice) (p' : PluckPool),
    let vs := pool_v (if pool_inited p then p else pluck_init p) in
    pluck_noteOn powf gScale p note velocity = Some p' /\
    (idx < 4)%nat /\ vs !! idx = Some old /\
    ((active old = false /\
      forall (j : nat) (y : PluckVoice), (j < idx)%nat -> vs !! j = Some y -> active y = true)
     \/
     ((forall y, y ∈ vs -> active y = true) /\
      forall (j : nat) (y : PluckVoice), vs !! j = Some y ->
        env (eg old) <= env (eg y) /\ ((j < idx)%nat -> env (eg old) < env (eg y)))) /\
    pool_v p' !! idx = Some v' /\
    active v' = true /\ phase v' = 0 /\ env (eg v') = 0 /\
    st (eg v') = ENV_ATTACK /\ gate (eg v') = false /\
    midi v' = quantizeMidi note gScale /\
    freqHz v' = midiToHz powf (quantizeMidi note gScale) /\
    vel v' = constrain velocity 0 1 /\
    (forall j : nat, j <> idx -> pool_v p' !! j = vs !! j) /\
    pool_ok p'.
Proof.
  intros Hok.
  set (p0 := if pool_inited p then p else pluck_init p).
  assert (Hok0 : pool_ok p0).
  { subst p0. destruct (pool_inited p); [exact Hok | apply pluck_init_ok]. }
  destruct Hok0 as [Hlen Hall].
  assert (Hne : pool_v p0 <> []) by (intros E; rewrite E in Hlen; discriminate).
  destruct (pluck_alloc_spec (pool_v p0) Hne Hall) as (k & x & Halloc & Hk & Hchoice).
  assert (Hk4 : (k < 4)%nat).
  { rewrite <- Hlen. eapply lookup_lt_Some. exact Hk. }
  set (q := quantizeMidi note gScale).
  set (v' := {| active := true; midi := q; freqHz := midiToHz powf q; phase := 0;
                vel := constrain velocity 0 1;
                eg := mkADSR (adsr_a (eg x)) (adsr_d (eg x)) (adsr_s (eg x))
                             (adsr_r (eg x)) 0 ENV_ATTACK false;
                pan := pan x |}).
  exists k, x, v',
    (mkPluckPool (<[k := v']> (pool_v p0)) (pool_gain p0) (pool_inited p0)).
  cbn zeta. fold p0.
  split.
  { unfold pluck_noteOn. fold p0. cbn zeta. rewrite Halloc.
    replace (Z.of_nat k <? 0)%Z with false by (symmetry; apply Z.ltb_ge; lia).
    rewrite Nat2Z.id, Hk. reflexivity. }
  split; [exact Hk4|]. split; [exact Hk|]. split; [exact Hchoice|].
  cbn [pool_v].
  split. { apply list_lookup_insert_eq. rewrite Hlen. exact Hk4. }
  do 8 (split; [reflexivity|]).
  split. { intros j Hj. apply list_lookup_insert_ne. congruence. }
  split; cbn [pool_v].
  - rewrite length_insert. exact Hlen.
  - apply Forall_insert; [exact Hall|]. cbn. lra.
Qed.

Lemma pluck_noteOn_allocates_witness :
  exists (idx : nat) (old v' : PluckVoice) (p' : PluckPool),
    let vs := pool_v (if pool_inited busy_pool then busy_pool else pluck_init busy_pool) in
    pluck_noteOn powf1 SCALE_A_MINOR busy_pool 61 (8 # 10) = Some p' /\
    (idx < 4)%nat /\ vs !! idx = Some old /\
    ((active old = false /\
      forall (j : nat) (y : PluckVoice), (j < idx)%nat -> vs !! j = Some y -> active y = true)
     \/
     ((forall y, y ∈ vs -> active y = true) /\
      forall (j : nat) (y : PluckVoice), vs !! j = Some y ->
        env (eg old) <= env (eg y) /\ ((j < idx)%nat -> env (eg old) < env (eg y)))) /\
    pool_v p' !! idx = Some v' /\
    active v' = true /\ phase v' = 0 /\ env (eg v') = 0 /\
    st (eg v') = ENV_ATTACK /\ gate (eg v') = false /\
    midi v' = quantizeMidi 61 SCALE_A_MINOR /\
    freqHz v' = midiToHz powf1 (quantizeMidi 61 SCALE_A_MINOR) /\
    vel v' = constrain (8 # 10) 0 1 /\
    (forall j : nat, j <> idx -> pool_v p' !! j = vs !! j) /\
    pool_ok p'.
Proof.
  apply (pluck_noteOn_allocates powf1 SCALE_A_MINOR busy_pool 61 (8 # 10)).
  split; [reflexivity|]. cbn. repeat constructor; cbn; discriminate.
Defined.

(** Four voices sounding at 1/2, 1/5, 9/10, 1/5: the fifth note steals
    voice 1, the first of the two quietest, not voice 0. *)
Example pluck_alloc_steals_quietest : pluck_alloc (pool_v busy_pool) = 1%Z.
Proof. vm_compute. reflexivity. Qed.

(** A free voice is taken before any stealing. *)
Example pluck_alloc_free_first :
  pluck_alloc [busy_voice (1 # 5); busy_voice (9 # 10); PluckVoice_default;
               busy_voice (1 # 10)] = 2%Z.
Proof. vm_compute. reflexivity. Qed.


(** ** Delay and reverb *)

Lemma Qtrunc_bounds (q : Q) (n : Z) :
  (0 <= n)%Z -> - inject_Z n <= q <= inject_Z n -> (- n <= Qtrunc q <= n)%Z.
Proof.
  intros Hn [Hlo Hhi]. destruct q as [a p]. unfold Qtrunc; cbn [Qnum Qden].
  unfold Qle, Qopp, inject_Z in Hlo, Hhi; cbn in Hlo, Hhi.
  assert (Ha : (- n * Z.pos p <= a <= n * Z.pos p)%Z) by lia.
  split.
  - rewrite <- (Z.quot_mul (- n) (Z.pos p)) by discriminate.
    apply Z.quot_le_mono; lia.
  - rewrite <- (Z.quot_mul n (Z.pos p)) by discriminate.
    apply Z.quot_le_mono; lia.
Qed.

Lemma to_int16_ok (x : Q) : -1 <= x <= 1 -> sample_ok (to_int16 x).
Proof.
  intros Hx. unfold sample_ok, to_int16.
  apply (Qtrunc_bounds (x * 32767) 32767); [lia|].
  change (inject_Z 32767) with 32767. lra.
Qed.

Lemma of_int16_bounds (v : Z) : sample_ok v -> -1 <= of_int16 v <= 1.
Proof.
  intros [Hlo Hhi]. unfold of_int16.
  assert (H1 : inject_Z (-32767) <= inject_Z v) by (rewrite <- Zle_Qle; exact Hlo).
  assert (H2 : inject_Z v <= inject_Z 32767) by (rewrite <- Zle_Qle; exact Hhi).
  change (inject_Z (-32767)) with (-32767) in H1.
  change (inject_Z 32767) with 32767 in H2.
  assert (E : 1 / 32767 == 1 # 32767) by reflexivity. rewrite E. lra.
Qed.

(** [delay_step] on a well-formed delay: it returns, the delay stays
    well-formed, and what it stored is a clamped value. *)
Lemma delay_step_total (dl : Delay) (dry : Q) :
  delay_wf dl ->
  exists (dl' : Delay) (tap : Q),
    delay_step dl dry = Some (dl', tap) /\ delay_wf dl' /\
    -1 <= tap <= 1 /\
    dl_send dl' = dl_send dl /\ dl_wet dl' = dl_wet dl /\ dl_fb dl' = dl_fb dl /\
    dl_baseSend dl' = dl_baseSend dl /\ dl_baseWet dl' = dl_baseWet dl /\
    dl_inited dl' = dl_inited dl /\
    (dl_inited dl = true ->
     exists toWrite : Q,
       -1 <= toWrite <= 1 /\
       dl_buf dl' = <[Z.to_nat (dl_w dl) := to_int16 toWrite]> (dl_buf dl)).
Proof.
  intros (Hsize & Hpos & Hw & Hbuf). unfold delay_step.
  destruct (dl_inited dl) eqn:Hin; cbn [negb].
  2:{ exists dl, 0. split; [reflexivity|].
      split; [exact (conj Hsize (conj Hpos (conj Hw Hbuf)))|].
      split; [lra|]. do 5 (split; [reflexivity|]). split; [exact Hin|].
      discriminate. }
  replace (dl_size dl =? 0)%Z with false by (symmetry; apply Z.eqb_neq; lia).
  set (r := (u32 (dl_w dl + dl_size dl - dl_dSamp dl) mod dl_size dl)%Z).
  assert (Hr : (0 <= r < dl_size dl)%Z) by (apply Z.mod_pos_bound; lia).
  destruct (lookup_lt_is_Some_2 (dl_buf dl) (Z.to_nat r)) as [r16 Hr16]; [lia|].
  rewrite Hr16. cbn [mbind option_bind].
  assert (Hs16 : sample_ok r16).
  { rewrite Forall_lookup in Hbuf. exact (Hbuf _ _ Hr16). }
  destruct (lp_process (dl_tone dl) (of_int16 r16)) as [tone fbSample] eqn:Hlp.
  replace (Z.to_nat (dl_w dl) <? length (dl_buf dl))%nat with true
    by (symmetry; apply Nat.ltb_lt; lia).
  set (toWrite := clamp_unit (dry * dl_send dl + fbSample * dl_fb dl)).
  pose proof (clamp_unit_bounds (dry * dl_send dl + fbSample * dl_fb dl)) as Hclamp.
  fold toWrite in Hclamp.
  eexists _, _. split; [reflexivity|]. cbn.
  split.
  { unfold delay_wf; cbn. rewrite length_insert.
    split; [exact Hsize|]. split; [exact Hpos|]. split.
    - unfold u32. rewrite (Z.mod_small (dl_w dl + 1)) by lia.
      destruct (Z.leb_spec (dl_size dl) (dl_w dl + 1)); lia.
    - apply Forall_insert; [exact Hbuf | apply to_int16_ok; exact Hclamp]. }
  split; [apply of_int16_bounds; exact Hs16|].
  repeat split; try reflexivity.
  intros _. exists toWrite. split; [exact Hclamp | reflexivity].
Qed.

Lemma delay_run_total (dries : list Q) :
  forall dl : Delay, delay_wf dl ->
  exists dl' : Delay, delay_run dl dries = Some dl' /\ delay_wf dl'.
Proof.
  induction dries as [|dry rest IH]; intros dl Hwf; cbn [delay_run].
  - exists dl. split; [reflexivity | exact Hwf].
  - destruct (delay_step_total dl dry Hwf) as (dl1 & tap & Hstep & Hwf1 & _).
    rewrite Hstep. cbn. apply IH. exact Hwf1.
Qed.

Lemma reverb_set_space_fb (sqrtf : Q -> Q) (r : ReverbLite) (spacePct : Z) (c : CombLite) :
  c ∈ rv_c (reverb_set_space sqrtf r spacePct) -> cb_fb c <= 75 # 100.
Proof.
  unfold reverb_set_space. cbn zeta. cbn [rv_c]. intros Hin.
  apply list_elem_of_fmap in Hin as (c0 & -> & _). cbn [cb_fb].
  q_cases; lra.
Qed.

Lemma delay_set_space_fb (sqrtf : Q -> Q) (dl : Delay) (rv : ReverbLite) (spacePct : Z) :
  dl_fb (fst (delay_set_space sqrtf dl rv spacePct)) <= 6 # 10.
Proof.
  unfold delay_set_space. cbn zeta. cbn [fst dl_fb].
  q_cases; lra.
Qed.

(** C5. Feedback safety: whatever the space percentage (also outside
    0..100), [delay_set_space] leaves the delay feedback at most 0.6 and the
    comb feedback of the reverb at most 0.75, both below 1; [delay_step]
    clamps what it writes to [-1,1] before the 16-bit conversion, so over
    any input sequence every sample in the ring buffer stays within [-1,1]. *)
Theorem feedback_safety (sqrtf : Q -> Q) (dl : Delay) (gReverb : ReverbLite)
    (spacePct : Z) (dries : list Q) :
  delay_wf dl ->
  (dl_fb (fst (delay_set_space sqrtf dl gReverb spacePct)) <= 6 # 10 /\
   dl_fb (fst (delay_set_space sqrtf dl gReverb spacePct)) < 1) /\
  (forall c : CombLite,
     c ∈ rv_c (snd (delay_set_space sqrtf dl gReverb spacePct)) ->
     cb_fb c <= 75 # 100 /\ cb_fb c < 1) /\
  (forall c : CombLite,
     c ∈ rv_c (reverb_set_space sqrtf gReverb spacePct) ->
     cb_fb c <= 75 # 100 /\ cb_fb c < 1) /\
  (forall dry : Q,
     exists (dl' : Delay) (tap : Q),
       delay_step dl dry = Some (dl', tap) /\
       (dl_inited dl = true ->
        exists toWrite : Q,
          -1 <= toWrite <= 1 /\
          dl_buf dl' = <[Z.to_nat (dl_w dl) := to_int16 toWrite]> (dl_buf dl))) /\
  exists dl_n : Delay,
    delay_run dl dries = Some dl_n /\
    Forall sample_ok (dl_buf dl_n) /\
    Forall (fun v => -1 <= of_int16 v <= 1) (dl_buf dl_n).
Proof.
  intros Hwf.
  split.
  { pose proof (delay_set_space_fb sqrtf dl gReverb spacePct). split; lra. }
  split.
  { intros c Hc. cbn [delay_set_space snd] in Hc.
    pose proof (reverb_set_space_fb sqrtf gReverb spacePct c Hc). split; lra. }
  split.
  { intros c Hc.
    pose proof (reverb_set_space_fb sqrtf gReverb spacePct c Hc). split; lra. }
  split.
  { intros dry.
    destruct (delay_step_total dl dry Hwf)
      as (dl' & tap & Hstep & _ & _ & _ & _ & _ & _ & _ & _ & Hw).
    exists dl', tap. split; [exact Hstep | exact Hw]. }
  destruct (delay_run_total dries dl Hwf) as (dl_n & Hrun & (_ & _ & _ & Hbuf)).
  exists dl_n. split; [exact Hrun|]. split; [exact Hbuf|].
  eapply Forall_impl; [exact Hbuf|]. intros v Hv. apply of_int16_bounds. exact Hv.
Qed.

Lemma Forall_replicate_sample (n : nat) : Forall sample_ok (replicate n 0%Z).
Proof. apply Forall_replicate. unfold sample_ok. lia. Qed.

Lemma delay_init_wf (expf : Q -> Q) (dl : Delay) (b : Z) (m : DelayMode) (cut : Q) :
  delay_wf (delay_init expf dl b m cut).
Proof.
  unfold delay_wf, delay_init; cbn [dl_size dl_buf dl_w].
  rewrite length_replicate. unfold DELAY_MAX_SAMPLES.
  repeat split; try lia. apply Forall_replicate_sample.
Qed.

Lemma feedback_safety_witness :
  (dl_fb (fst (delay_set_space sqrtf6 delay_in_space ReverbLite_default 45)) <= 6 # 10 /\
   dl_fb (fst (delay_set_space sqrtf6 delay_in_space ReverbLite_default 45)) < 1) /\
  (forall c : CombLite,
     c ∈ rv_c (snd (delay_set_space sqrtf6 delay_in_space ReverbLite_default 45)) ->
     cb_fb c <= 75 # 100 /\ cb_fb c < 1) /\
  (forall c : CombLite,
     c ∈ rv_c (reverb_set_space sqrtf6 ReverbLite_default 45) ->
     cb_fb c <= 75 # 100 /\ cb_fb c < 1) /\
  (forall dry : Q,
     exists (dl' : Delay) (tap : Q),
       delay_step delay_in_space dry = Some (dl', tap) /\
       (dl_inited delay_in_space = true ->
        exists toWrite : Q,
          -1 <= toWrite <= 1 /\
          dl_buf dl'
          = <[Z.to_nat (dl_w delay_in_space) := to_int16 toWrite]>
              (dl_buf delay_in_space))) /\
  exists dl_n : Delay,
    delay_run delay_in_space [1 # 2; 3; -7 # 3] = Some dl_n /\
    Forall sample_ok (dl_buf dl_n) /\
    Forall (fun v => -1 <= of_int16 v <= 1) (dl_buf dl_n).
Proof.
  apply (feedback_safety sqrtf6 delay_in_space ReverbLite_default 45
           [1 # 2; 3; -7 # 3]).
  unfold delay_in_space, delay_set_space, delay_wf. cbn [fst dl_size dl_buf dl_w].
  apply delay_init_wf.
Defined.

(** The run of the witness: at space 45 the send is 0.503115 and the
    feedback 0.368951, the three inputs 0.5, 3 and -7/3 are stored in the
    first three cells as 8242 (0.5 times the send), 32767 and -32767 (both
    clamped). *)
Example delay_in_space_run :
  dl_send delay_in_space = ((75 # 100) * (670820 # 1000000))%Q /\
  dl_fb delay_in_space = ((55 # 100) * (670820 # 1000000))%Q /\
  dl_inited delay_in_space = true /\
  option_map (fun d => (take 4 (dl_buf d), dl_w d))
             (delay_run delay_in_space [1 # 2; 3; -7 # 3])
  = Some ([8242; 32767; -32767; 0]%Z, 3%Z).
Proof. vm_compute. repeat split; reflexivity. Qed.

(** The feedback path on a short ring (four cells, tap two cells back,
    send 1, feedback 0.6, tone filter open): the input 3 is stored clamped,
    two samples later it comes back through the feedback, 0.6 added to the
    input 0.9 and clamped again; with no input the stored value shrinks by
    the feedback factor on every round (32767, 19660, 11796, 7077). *)
Example delay_feedback_run :
  let dl := mkDelay [0; 0; 0; 0]%Z 4 0 2 (mkOnePoleLP 1 0) 1 1 1 1 (6 # 10)
                    104 DELAY_1_4 true in
  option_map dl_buf (delay_run dl [3; 0; 9 # 10; 0]) = Some [32767; 0; 32767; 0]%Z /\
  option_map dl_buf (delay_run dl [3; 0; 0; 0; 0; 0; 0; 0])
  = Some [11796; 0; 7077; 0]%Z.
Proof. vm_compute. split; reflexivity. Qed.

(** A loud input is stored clamped: 3.0 at full send becomes 32767. *)
Example delay_step_clamps :
  let dl := mkDelay [0; 0; 0; 0]%Z 4 1 2 (mkOnePoleLP (1 # 2) 0) 1 1 1 1 (1 # 2)
                    104 DELAY_1_4 true in
  option_map (fun r => dl_buf (fst r)) (delay_step dl 3) = Some [0; 32767; 0; 0]%Z.
Proof. vm_compute. reflexivity. Qed.

(** ** Space at zero *)

Lemma comb_step_total (c : CombLite) (x : Q) :
  comb_wf c ->
  exists (c' : CombLite) (y : Q), comb_step c x = Some (c', y) /\ comb_wf c'.
Proof.
  intros (Hsize & Hpos & Hw). unfold comb_step.
  destruct (lookup_lt_is_Some_2 (cb_buf c) (Z.to_nat (cb_w c))) as [rd Hrd]; [lia|].
  rewrite Hrd. cbn [mbind option_bind]. eexists _, _. split; [reflexivity|].
  unfold comb_wf; cbn. rewrite length_insert.
  split; [exact Hsize|]. split; [exact Hpos|].
  unfold u16. rewrite (Z.mod_small (cb_w c + 1)) by lia.
  destruct (Z.leb_spec (cb_size c) (cb_w c + 1)); lia.
Qed.

Lemma allpass_step_total (a : AllpassLite) (x : Q) :
  allpass_wf a ->
  exists (a' : AllpassLite) (y : Q), allpass_step a x = Some (a', y) /\ allpass_wf a'.
Proof.
  intros (Hsize & Hpos & Hw). unfold allpass_step.
  destruct (lookup_lt_is_Some_2 (ap_buf a) (Z.to_nat (ap_w a))) as [rd Hrd]; [lia|].
  rewrite Hrd. cbn [mbind option_bind]. eexists _, _. split; [reflexivity|].
  unfold allpass_wf; cbn. rewrite length_insert.
  split; [exact Hsize|]. split; [exact Hpos|].
  unfold u16. rewrite (Z.mod_small (ap_w a + 1)) by lia.
  destruct (Z.leb_spec (ap_size a) (ap_w a + 1)); lia.
Qed.

Lemma combs_step_total (cs : list CombLite) (xin : Q) :
  Forall comb_wf cs ->
  exists (cs' : list CombLite) (y : Q),
    combs_step cs xin = Some (cs', y) /\ Forall comb_wf cs' /\ length cs' = length cs.
Proof.
  induction cs as [|c rest IH]; intros Hall; cbn [combs_step].
  - exists [], 0. repeat split; constructor.
  - inversion Hall as [|? ? Hc Hrest]; subst.
    destruct (comb_step_total c xin Hc) as (c' & y & Hstep & Hc').
    destruct (IH Hrest) as (rest' & ys & Hsteps & Hrest' & Hlen).
    rewrite Hstep. cbn [mbind option_bind]. rewrite Hsteps. cbn [mbind option_bind].
    eexists _, _. split; [reflexivity|]. split; [constructor; assumption|].
    cbn. rewrite Hlen. reflexivity.
Qed.

Lemma reverb_init_wf (r : ReverbLite) :
  length (rv_c r) = 4%nat -> reverb_wf (reverb_init r) /\ rv_inited (reverb_init r) = true.
Proof.
  intros Hlen. split; [|reflexivity]. unfold reverb_wf, reverb_init; cbn [rv_c rv_inited rv_ap1 rv_ap2].
  destruct (rv_c r) as [|c1 [|c2 [|c3 [|c4 [|c5 rest]]]]]; try discriminate.
  split; [reflexivity|]. intros _. cbn [zip_with RV_COMBS].
  assert (Hc : forall (n : Z) (fb dp : Q), (0 < n < 2 ^ 15)%Z ->
            comb_wf (mkCombLite (replicate (Z.to_nat n) 0%Z) n 0 fb dp 0)).
  { intros n fb dp Hn. unfold comb_wf; cbn. rewrite length_replicate. lia. }
  split; [|split].
  - repeat (apply Forall_cons; split; [apply Hc; lia|]). apply Forall_nil. exact I.
  - unfold allpass_wf, RV_AP1; cbn. rewrite length_replicate. lia.
  - unfold allpass_wf, RV_AP2; cbn. rewrite length_replicate. lia.
Qed.

Lemma reverb_step_total (r : ReverbLite) (dry : Q) :
  reverb_wf r ->
  exists (r' : ReverbLite) (y : Q),
    reverb_step r dry = Some (r', y) /\ reverb_wf r' /\
    rv_send r' = rv_send r /\ rv_wet r' = rv_wet r /\
    rv_baseSend r' = rv_baseSend r /\ rv_baseWet r' = rv_baseWet r.
Proof.
  intros Hwf. unfold reverb_step.
  set (r0 := if rv_inited r then r else reverb_init r).
  assert (H0 : reverb_wf r0 /\ rv_inited r0 = true /\ rv_send r0 = rv_send r /\
               rv_wet r0 = rv_wet r /\ rv_baseSend r0 = rv_baseSend r /\
               rv_baseWet r0 = rv_baseWet r).
  { subst r0. destruct (rv_inited r) eqn:Hin.
    - split; [exact Hwf|]. split; [exact Hin|]. repeat split; reflexivity.
    - destruct (reverb_init_wf r (proj1 Hwf)) as [H1 H2].
      split; [exact H1|]. split; [exact H2|]. repeat split; reflexivity. }
  destruct H0 as ((Hlen & Hinit) & Hin & Es & Ew & Ebs & Ebw).
  destruct (Hinit Hin) as (Hcs & Ha1 & Ha2). cbn zeta.
  destruct (combs_step_total (rv_c r0) (rv_send r0 * dry) Hcs) as (cs & y & Hstep & Hcs' & Hl).
  rewrite Hstep. cbn [mbind option_bind].
  destruct (allpass_step_total (rv_ap1 r0) (y * (1 # 4)) Ha1) as (a1 & y1 & Hs1 & Ha1').
  rewrite Hs1. cbn [mbind option_bind].
  destruct (allpass_step_total (rv_ap2 r0) y1 Ha2) as (a2 & y2 & Hs2 & Ha2').
  rewrite Hs2. cbn [mbind option_bind].
  eexists _, _. split; [reflexivity|]. cbn.
  split.
  { split; cbn; [congruence|]. intros _. exact (conj Hcs' (conj Ha1' Ha2')). }
  exact (conj Es (conj Ew (conj Ebs Ebw))).
Qed.

(** With both wet levels at zero a pass of the sample loop hands the dry
    signal through, and the levels are still zero afterwards. *)
Lemma fx_mix_silent (expf : Q -> Q) (tilt : TiltEQ) (dl : Delay) (rv : ReverbLite)
    (padMono plMono n : Q) :
  delay_wf dl -> reverb_wf rv -> dl_wet dl == 0 -> rv_wet rv == 0 ->
  exists (tilt' : TiltEQ) (dl' : Delay) (rv' : ReverbLite) (out : FxOut),
    fx_mix expf tilt dl rv padMono plMono n = Some (tilt', dl', rv', out) /\
    delay_wf dl' /\ reverb_wf rv' /\ dl_wet dl' == 0 /\ rv_wet rv' == 0 /\
    dryMono out = padMono * CTR + plMono + n * NOISE_DRY_GAIN /\
    wetSum out == 0 /\
    outMono out == padMono * CTR + plMono + n * NOISE_DRY_GAIN.
Proof.
  intros Hdl Hrv Hdw Hrw. unfold fx_mix. cbn zeta.
  destruct (tone_process expf tilt
              (padMono * CTR + plMono + n * NOISE_DRY_GAIN + n * NOISE_FX_GAIN))
    as [tilt' dryFX].
  destruct (delay_step_total dl dryFX Hdl)
    as (dl' & tap & Hstep & Hdl' & _ & _ & Ew & _).
  rewrite Hstep. cbn [mbind option_bind].
  destruct (reverb_step_total rv dryFX Hrv) as (rv' & rev & Hrstep & Hrv' & _ & Erw & _).
  rewrite Hrstep. cbn [mbind option_bind].
  eexists _, _, _, _. split; [reflexivity|].
  split; [exact Hdl'|]. split; [exact Hrv'|].
  rewrite Ew, Erw. split; [exact Hdw|]. split; [exact Hrw|].
  cbn [wetSum outMono dryMono]. split; [reflexivity|].
  rewrite Hdw, Hrw. split; ring.
Qed.

Lemma fx_run_silent (expf : Q -> Q) (inputs : list (Q * Q * Q)) :
  forall (tilt : TiltEQ) (dl : Delay) (rv : ReverbLite),
  delay_wf dl -> reverb_wf rv -> dl_wet dl == 0 -> rv_wet rv == 0 ->
  exists (tilt' : TiltEQ) (dl' : Delay) (rv' : ReverbLite) (outs : list FxOut),
    fx_run expf tilt dl rv inputs = Some (tilt', dl', rv', outs) /\
    Forall2 (fun (i : Q * Q * Q) (o : FxOut) =>
               dryMono o = fst (fst i) * CTR + snd (fst i) + snd i * NOISE_DRY_GAIN /\
               wetSum o == 0 /\
               outMono o == fst (fst i) * CTR + snd (fst i) + snd i * NOISE_DRY_GAIN)
            inputs outs.
Proof.
  induction inputs as [|[[padMono plMono] n] rest IH]; intros tilt dl rv Hdl Hrv Hdw Hrw.
  - exists tilt, dl, rv, []. split; [reflexivity|constructor].
  - cbn [fx_run].
    destruct (fx_mix_silent expf tilt dl rv padMono plMono n Hdl Hrv Hdw Hrw)
      as (tilt1 & dl1 & rv1 & out & Hmix & Hdl1 & Hrv1 & Hdw1 & Hrw1 & Hout).
    rewrite Hmix. cbn [mbind option_bind].
    destruct (IH tilt1 dl1 rv1 Hdl1 Hrv1 Hdw1 Hrw1)
      as (tilt2 & dl2 & rv2 & outs & Hrun & Houts).
    rewrite Hrun. cbn [mbind option_bind].
    eexists _, _, _, _. split; [reflexivity|].
    constructor; [exact Hout|exact Houts].
Qed.

Lemma delay_set_space_wf (sqrtf : Q -> Q) (dl : Delay) (rv : ReverbLite) (spacePct : Z) :
  delay_wf dl -> reverb_wf rv ->
  delay_wf (fst (delay_set_space sqrtf dl rv spacePct)) /\
  reverb_wf (snd (delay_set_space sqrtf dl rv spacePct)).
Proof.
  intros Hdl (Hlen & Hinit). split; [exact Hdl|].
  unfold delay_set_space, reverb_set_space, reverb_wf.
  cbn [snd rv_c rv_inited rv_ap1 rv_ap2].
  split; [rewrite length_fmap; exact Hlen|].
  intros Hin. destruct (Hinit Hin) as (Hcs & Ha1 & Ha2).
  split; [|exact (conj Ha1 Ha2)].
  apply Forall_fmap. eapply Forall_impl; [exact Hcs|].
  intros c Hc. exact Hc.
Qed.

(** C7. Space-zero identity: [delay_set_space] at 0 leaves delay send, wet
    and feedback and reverb send and wet all equal to 0 (given
    [sqrtf(0) = 0]); the gesture overlay, which scales the base levels, keeps
    them at 0; and over any run of the sample loop, from any state of the
    delay and reverb buffers and of the tone filter, each pass returns: its
    wet sum is 0 and its output [outMono] is the dry signal
    [padMono * CTR + plMono + n * NOISE_DRY_GAIN] of that pass's own inputs
    (equality of rationals, float rounding aside). *)
Theorem space_zero_identity (sqrtf expf : Q -> Q) (gTilt : TiltEQ) (dl : Delay)
    (rv : ReverbLite) (inputs : list (Q * Q * Q)) :
  sqrtf 0 == 0 -> delay_wf dl -> reverb_wf rv ->
  (dl_send (fst (delay_set_space sqrtf dl rv 0)) == 0 /\
   dl_wet (fst (delay_set_space sqrtf dl rv 0)) == 0 /\
   dl_fb (fst (delay_set_space sqrtf dl rv 0)) == 0 /\
   rv_send (snd (delay_set_space sqrtf dl rv 0)) == 0 /\
   rv_wet (snd (delay_set_space sqrtf dl rv 0)) == 0) /\
  (forall e fxSendBoost fxWetBoost : Q,
     dl_send (fst (gesture_apply_fx e fxSendBoost fxWetBoost
                     (fst (delay_set_space sqrtf dl rv 0))
                     (snd (delay_set_space sqrtf dl rv 0)))) == 0 /\
     dl_wet (fst (gesture_apply_fx e fxSendBoost fxWetBoost
                    (fst (delay_set_space sqrtf dl rv 0))
                    (snd (delay_set_space sqrtf dl rv 0)))) == 0 /\
     rv_send (snd (gesture_apply_fx e fxSendBoost fxWetBoost
                     (fst (delay_set_space sqrtf dl rv 0))
                     (snd (delay_set_space sqrtf dl rv 0)))) == 0 /\
     rv_wet (snd (gesture_apply_fx e fxSendBoost fxWetBoost
                    (fst (delay_set_space sqrtf dl rv 0))
                    (snd (delay_set_space sqrtf dl rv 0)))) == 0) /\
  exists (tilt' : TiltEQ) (dl' : Delay) (rv' : ReverbLite) (outs : list FxOut),
    fx_run expf gTilt (fst (delay_set_space sqrtf dl rv 0))
           (snd (delay_set_space sqrtf dl rv 0)) inputs
    = Some (tilt', dl', rv', outs) /\
    length outs = length inputs /\
    Forall2 (fun (i : Q * Q * Q) (o : FxOut) =>
               dryMono o = fst (fst i) * CTR + snd (fst i) + snd i * NOISE_DRY_GAIN /\
               wetSum o == 0 /\
               outMono o == fst (fst i) * CTR + snd (fst i) + snd i * NOISE_DRY_GAIN)
            inputs outs.
Proof.
  intros Hsqrt Hdl Hrv.
  assert (Hzero :
    dl_send (fst (delay_set_space sqrtf dl rv 0)) == 0 /\
    dl_wet (fst (delay_set_space sqrtf dl rv 0)) == 0 /\
    dl_fb (fst (delay_set_space sqrtf dl rv 0)) == 0 /\
    rv_send (snd (delay_set_space sqrtf dl rv 0)) == 0 /\
    rv_wet (snd (delay_set_space sqrtf dl rv 0)) == 0 /\
    dl_baseSend (fst (delay_set_space sqrtf dl rv 0)) == 0 /\
    dl_baseWet (fst (delay_set_space sqrtf dl rv 0)) == 0 /\
    rv_baseSend (snd (delay_set_space sqrtf dl rv 0)) == 0 /\
    rv_baseWet (snd (delay_set_space sqrtf dl rv 0)) == 0).
  { unfold delay_set_space, reverb_set_space. cbn zeta.
    cbn [fst snd dl_send dl_wet dl_fb rv_send rv_wet dl_baseSend dl_baseWet
         rv_baseSend rv_baseWet].
    change (space_fraction 0) with 0.
    assert (Hfb : (if Qltb (6 # 10) ((55 # 100) * sqrtf 0) then 6 # 10
                   else (55 # 100) * sqrtf 0) == 0).
    { destruct (Qltb_spec (6 # 10) ((55 # 100) * sqrtf 0)) as [H|H];
        [rewrite Hsqrt in H; lra | rewrite Hsqrt; ring]. }
    rewrite Hfb, Hsqrt. repeat split; ring. }
  destruct Hzero as (Z1 & Z2 & Z3 & Z4 & Z5 & Z6 & Z7 & Z8 & Z9).
  split; [exact (conj Z1 (conj Z2 (conj Z3 (conj Z4 Z5))))|].
  split.
  { intros e sb wb. unfold gesture_apply_fx.
    destruct (Qltb (5 # 10000) e);
      cbn [fst snd delay_set_live reverb_set_live dl_send dl_wet rv_send rv_wet];
      rewrite ?Z6, ?Z7, ?Z8, ?Z9; repeat split; ring. }
  destruct (delay_set_space_wf sqrtf dl rv 0 Hdl Hrv) as [Hdl0 Hrv0].
  destruct (fx_run_silent expf inputs gTilt _ _ Hdl0 Hrv0 Z2 Z5)
    as (tilt' & dl' & rv' & outs & Hrun & Houts).
  exists tilt', dl', rv', outs. split; [exact Hrun|].
  split; [symmetry; exact (Forall2_length _ _ _ Houts)|exact Houts].
Qed.

Lemma sqrtf6_0 : sqrtf6 0 == 0.
Proof. reflexivity. Qed.

Lemma reverb_default_wf : reverb_wf ReverbLite_default.
Proof. split; [reflexivity | discriminate]. Qed.

Lemma delay_ringing_wf : delay_wf delay_ringing.
Proof.
  unfold delay_wf, delay_ringing. cbn [dl_size dl_buf dl_w length].
  split; [reflexivity|]. split; [lia|]. split; [lia|].
  repeat constructor; lia.
Qed.

Lemma space_zero_identity_witness :
  (dl_send (fst (delay_set_space sqrtf6 delay_ringing ReverbLite_default 0)) == 0 /\
   dl_wet (fst (delay_set_space sqrtf6 delay_ringing ReverbLite_default 0)) == 0 /\
   dl_fb (fst (delay_set_space sqrtf6 delay_ringing ReverbLite_default 0)) == 0 /\
   rv_send (snd (delay_set_space sqrtf6 delay_ringing ReverbLite_default 0)) == 0 /\
   rv_wet (snd (delay_set_space sqrtf6 delay_ringing ReverbLite_default 0)) == 0) /\
  (forall e fxSendBoost fxWetBoost : Q,
     dl_send (fst (gesture_apply_fx e fxSendBoost fxWetBoost
                     (fst (delay_set_space sqrtf6 delay_ringing ReverbLite_default 0))
                     (snd (delay_set_space sqrtf6 delay_ringing ReverbLite_default 0))))
     == 0 /\
     dl_wet (fst (gesture_apply_fx e fxSendBoost fxWetBoost
                    (fst (delay_set_space sqrtf6 delay_ringing ReverbLite_default 0))
                    (snd (delay_set_space sqrtf6 delay_ringing ReverbLite_default 0))))
     == 0 /\
     rv_send (snd (gesture_apply_fx e fxSendBoost fxWetBoost
                     (fst (delay_set_space sqrtf6 delay_ringing ReverbLite_default 0))
                     (snd (delay_set_space sqrtf6 delay_ringing ReverbLite_default 0))))
     == 0 /\
     rv_wet (snd (gesture_apply_fx e fxSendBoost fxWetBoost
                    (fst (delay_set_space sqrtf6 delay_ringing ReverbLite_default 0))
                    (snd (delay_set_space sqrtf6 delay_ringing ReverbLite_default 0))))
     == 0) /\
  exists (tilt' : TiltEQ) (dl' : Delay) (rv' : ReverbLite) (outs : list FxOut),
    fx_run expf1 tilt_at_boot
           (fst (delay_set_space sqrtf6 delay_ringing ReverbLite_default 0))
           (snd (delay_set_space sqrtf6 delay_ringing ReverbLite_default 0))
           [(1 # 2, 1 # 4, 1 # 8); (-1 # 3, 0, 1 # 5); (9 # 10, -1 # 2, -1)]
    = Some (tilt', dl', rv', outs) /\
    length outs = length [(1 # 2, 1 # 4, 1 # 8); (-1 # 3, 0, 1 # 5);
                          (9 # 10, -1 # 2, -1)] /\
    Forall2 (fun (i : Q * Q * Q) (o : FxOut) =>
               dryMono o = fst (fst i) * CTR + snd (fst i) + snd i * NOISE_DRY_GAIN /\
               wetSum o == 0 /\
               outMono o == fst (fst i) * CTR + snd (fst i) + snd i * NOISE_DRY_GAIN)
            [(1 # 2, 1 # 4, 1 # 8); (-1 # 3, 0, 1 # 5); (9 # 10, -1 # 2, -1)] outs.
Proof.
  apply (space_zero_identity sqrtf6 expf1 tilt_at_boot delay_ringing
           ReverbLite_default
           [(1 # 2, 1 # 4, 1 # 8); (-1 # 3, 0, 1 # 5); (9 # 10, -1 # 2, -1)]).
  - exact sqrtf6_0.
  - exact delay_ringing_wf.
  - exact reverb_default_wf.
Defined.

(** The run of the witness: the ring still holds samples of earlier input
    (the tap of the first pass reads the 5, that of the second the 1200),
    the reverb starts up on the first pass, and the three outputs are the
    dry values 0.5 * CTR + 0.25, -CTR / 3 and 0.9 * CTR - 0.5 all the
    same. *)
Example space_zero_run :
  option_map (fun r => map (fun o => (dryMono o, Qred (wetSum o), Qred (outMono o)))
                           (snd r))
    (fx_run expf1 tilt_at_boot
       (fst (delay_set_space sqrtf6 delay_ringing ReverbLite_default 0))
       (snd (delay_set_space sqrtf6 delay_ringing ReverbLite_default 0))
       [(1 # 2, 1 # 4, 1 # 8); (-1 # 3, 0, 1 # 5); (9 # 10, -1 # 2, -1)])
  = Some [((1 # 2) * CTR + (1 # 4) + (1 # 8) * NOISE_DRY_GAIN, 0,
           Qred ((1 # 2) * CTR + (1 # 4)));
          ((-1 # 3) * CTR + 0 + (1 # 5) * NOISE_DRY_GAIN, 0, Qred ((-1 # 3) * CTR));
          ((9 # 10) * CTR + (-1 # 2) + -1 * NOISE_DRY_GAIN, 0,
           Qred ((9 # 10) * CTR - (1 # 2)))] /\
  option_map (fun r => snd r)
    (delay_step (fst (delay_set_space sqrtf6 delay_ringing ReverbLite_default 0)) 0)
  = Some (of_int16 5).
Proof. vm_compute. split; reflexivity. Qed.


(** ** Scene crossfade *)

Lemma smooth_unit (t : Q) :
  0 <= t <= 1 -> smooth t == t * t * (3 - 2 * t) /\ 0 <= smooth t <= 1.
Proof.
  intros Ht. unfold smooth. q_cases; try lra.
  split; [reflexivity|].
  assert (H1 : 0 <= (t * t) * (3 - 2 * t))
    by (apply Qmult_le_0_compat; [nra | lra]).
  assert (H2 : 0 <= ((1 - t) * (1 - t)) * (1 + 2 * t))
    by (apply Qmult_le_0_compat; [nra | lra]).
  split; lra.
Qed.

Lemma smooth_0 (t : Q) : t == 0 -> smooth t == 0.
Proof.
  intros Ht. destruct (smooth_unit t ltac:(lra)) as [E _]. rewrite E, Ht. ring.
Qed.

Lemma smooth_1 (t : Q) : t == 1 -> smooth t == 1.
Proof.
  intros Ht. destruct (smooth_unit t ltac:(lra)) as [E _]. rewrite E, Ht. ring.
Qed.

Lemma lerp_0 (a b e : Q) : e == 0 -> lerp a b e == a.
Proof. intros He. unfold lerp. rewrite He. ring. Qed.

Lemma lerp_1 (a b e : Q) : e == 1 -> lerp a b e == b.
Proof. intros He. unfold lerp. rewrite He. ring. Qed.

(** Rounding a non-negative integer through [(int)(x + 0.5f)] gives it back. *)
Lemma Qtrunc_round_int (q : Q) (n : Z) :
  (0 <= n)%Z -> q == inject_Z n -> Qtrunc (q + (1 # 2)) = n.
Proof.
  intros Hn Hq. rewrite Qtrunc_floor by (rewrite Hq; change 0 with (inject_Z 0);
    assert (inject_Z 0 <= inject_Z n) by (rewrite <- Zle_Qle; lia); lra).
  pose proof (Qfloor_le (q + (1 # 2))) as Hlo.
  pose proof (Qlt_floor (q + (1 # 2))) as Hhi.
  set (f := Qfloor (q + (1 # 2))) in *.
  rewrite inject_Z_plus in Hhi. change (inject_Z 1) with 1 in Hhi.
  assert (H1 : inject_Z f < inject_Z (n + 1)).
  { rewrite inject_Z_plus. change (inject_Z 1) with 1. lra. }
  assert (H2 : inject_Z (n - 1) < inject_Z f).
  { unfold Z.sub. rewrite inject_Z_plus. change (inject_Z (Z.opp 1)) with (-1). lra. }
  rewrite <- Zlt_Qlt in H1, H2. lia.
Qed.

Lemma clamp_int_id (x lo hi : Z) : (lo <= x <= hi)%Z -> clamp_int x lo hi = x.
Proof.
  intros Hx. unfold clamp_int.
  destruct (Z.ltb_spec x lo); [lia|]. destruct (Z.ltb_spec hi x); lia.
Qed.

(** The elapsed fraction: 0 at the start, 1 from the end on, below 1 before. *)
Lemma scene_fraction_spec (sc : SceneXfade) (nowSmp : Z) :
  (0 <= sc_tStartSmp sc)%Z -> (sc_tStartSmp sc < sc_tEndSmp sc)%Z ->
  (sc_tEndSmp sc < 2 ^ 64)%Z -> (sc_tStartSmp sc <= nowSmp < 2 ^ 64)%Z ->
  scene_fraction sc nowSmp
  == inject_Z (Z.min nowSmp (sc_tEndSmp sc) - sc_tStartSmp sc)
     / inject_Z (sc_tEndSmp sc - sc_tStartSmp sc) /\
  0 <= scene_fraction sc nowSmp <= 1 /\
  (nowSmp = sc_tStartSmp sc -> scene_fraction sc nowSmp == 0) /\
  ((sc_tEndSmp sc <= nowSmp)%Z -> scene_fraction sc nowSmp == 1) /\
  ((nowSmp < sc_tEndSmp sc)%Z -> scene_fraction sc nowSmp < 1).
Proof.
  intros H0 Hlt Hend Hnow. unfold scene_fraction.
  replace (sc_tStartSmp sc <? sc_tEndSmp sc)%Z with true
    by (symmetry; apply Z.ltb_lt; lia).
  set (den := (sc_tEndSmp sc - sc_tStartSmp sc)%Z).
  assert (Hden : u64 den = den) by (unfold u64; apply Z.mod_small; lia).
  rewrite Hden.
  assert (Hnum : (if (sc_tEndSmp sc <? nowSmp)%Z then den
                  else u64 (nowSmp - sc_tStartSmp sc))
                 = (Z.min nowSmp (sc_tEndSmp sc) - sc_tStartSmp sc)%Z).
  { destruct (Z.ltb_spec (sc_tEndSmp sc) nowSmp).
    - lia.
    - unfold u64. rewrite Z.mod_small by lia. lia. }
  rewrite Hnum.
  set (num := (Z.min nowSmp (sc_tEndSmp sc) - sc_tStartSmp sc)%Z).
  assert (Hd : 0 < inject_Z den).
  { change 0 with (inject_Z 0). rewrite <- Zlt_Qlt. lia. }
  assert (Hn : 0 <= inject_Z num <= inject_Z den).
  { change 0 with (inject_Z 0). rewrite <- !Zle_Qle. lia. }
  split; [reflexivity|].
  split.
  { split.
    - apply Qle_shift_div_l; [exact Hd | lra].
    - apply Qle_shift_div_r; [exact Hd | lra]. }
  split.
  { intros ->. assert (num = 0%Z) as -> by lia.
    change (inject_Z 0) with 0. field. lra. }
  split.
  { intros Hle. assert (num = den) as -> by lia. field. lra. }
  intros Hbefore. apply Qlt_shift_div_r; [exact Hd|].
  assert (inject_Z num < inject_Z den) by (rewrite <- Zlt_Qlt; lia). lra.
Qed.

Section SceneFacts.
Variables sqrtf expf logf : Q -> Q.
(** On the reals [exp] undoes [log]; the crossfade relies on it at both
    ends of the cutoff interpolation. *)
Hypothesis expf_logf : forall x : Q, 0 < x -> expf (logf x) == x.
Hypothesis expf_compat : forall x y : Q, x == y -> expf x == expf y.

Lemma expLerp_0 (a b e : Q) : 0 < a -> e == 0 -> expLerp expf logf a b e == a.
Proof.
  intros Ha He. unfold expLerp. cbn zeta.
  rewrite (expf_compat _ (logf a)) by (apply lerp_0; exact He).
  apply expf_logf. exact Ha.
Qed.

Lemma expLerp_1 (a b e : Q) : 0 < b -> e == 1 -> expLerp expf logf a b e == b.
Proof.
  intros Hb He. unfold expLerp. cbn zeta.
  rewrite (expf_compat _ (logf b)) by (apply lerp_1; exact He).
  apply expf_logf. exact Hb.
Qed.

(** What the crossfade writes, field by field. *)
Lemma scene_crossfade_fields (nowSmp : Z) (w : SceneWorld) :
  let sc := sw_gScene w in
  let e := smooth (scene_fraction sc nowSmp) in
  let w' := scene_crossfade sqrtf expf logf nowSmp w in
  pad_triMix (sw_pad w') = lerp (tg_triMix (sc_start sc)) (tg_triMix (sc_target sc)) e /\
  osc_triMix (pad_v1 (sw_pad w')) = pad_triMix (sw_pad w') /\
  osc_triMix (pad_v2 (sw_pad w')) = pad_triMix (sw_pad w') /\
  osc_triMix (pad_v3 (sw_pad w')) = pad_triMix (sw_pad w') /\
  pad_lpfCutHz (sw_pad w')
  = expf (lerp (logf (tg_lpfCutHz (sc_start sc))) (logf (tg_lpfCutHz (sc_target sc))) e) /\
  spacePercent (sw_params w')
  = clamp_int (Qtrunc (lerp (inject_Z (tg_spacePercent (sc_start sc)))
                            (inject_Z (tg_spacePercent (sc_target sc))) e + (1 # 2)))
              0 100 /\
  tempoBPM (sw_params w')
  = clamp_int (Qtrunc (lerp (inject_Z (tg_tempoBPM (sc_start sc)))
                            (inject_Z (tg_tempoBPM (sc_target sc))) e + (1 # 2)))
              30 240 /\
  sc_active (sw_gScene w')
  = (if Qleb 1 (scene_fraction sc nowSmp) then false else sc_active sc).
Proof.
  cbn zeta. unfold scene_crossfade. cbn zeta.
  remember (smooth (scene_fraction (sw_gScene w) nowSmp)) as e eqn:He.
  remember (clamp_int (Qtrunc (lerp (inject_Z (tg_spacePercent (sc_start (sw_gScene w))))
              (inject_Z (tg_spacePercent (sc_target (sw_gScene w)))) e + (1 # 2))) 0 100)
    as spc eqn:Hspc.
  remember (clamp_int (Qtrunc (lerp (inject_Z (tg_tempoBPM (sc_start (sw_gScene w))))
              (inject_Z (tg_tempoBPM (sc_target (sw_gScene w)))) e + (1 # 2))) 30 240)
    as b eqn:Hb.
  clear He Hspc Hb.
  destruct (Z.eqb_spec spc (spacePercent (sw_params w))) as [Es | Es]; cbn [negb];
    destruct (Qleb (2 # 10) e);
    match goal with
    | |- context [negb (b =? tempoBPM ?p)%Z] =>
        destruct (Z.eqb_spec b (tempoBPM p)) as [Eb | Eb]
    end; cbn [negb];
    repeat split; cbn in *; congruence.
Qed.
End SceneFacts.

(** The crossfade without rounding.  In the exact arithmetic of
    [scene_crossfade] and for an [expf] that undoes [logf]: for an active fade whose
    snapshots lie in the parameter domains, [scene_crossfade] at sample
    [nowSmp] writes
    each interpolated parameter as a function of the elapsed fraction [t]
    through [e = t * t * (3 - 2 t)]: triMix is [lerp] of start and target,
    the cutoff is [expf (lerp (logf a) (logf b) e)], space and tempo are the
    rounded [lerp]s.  At [t = 0] these are the start values, at [t = 1] the
    target values, and the fade is switched off exactly when [t >= 1], that
    is from [tEndSmp] on. *)
Theorem scene_crossfade_continuity (sqrtf expf logf : Q -> Q)
    (nowSmp : Z) (w : SceneWorld) :
  (forall x : Q, 0 < x -> expf (logf x) == x) ->
  (forall x y : Q, x == y -> expf x == expf y) ->
  fade_ok (sw_gScene w) ->
  (sc_tStartSmp (sw_gScene w) <= nowSmp < 2 ^ 64)%Z ->
  (* a function of the elapsed fraction, through the smoothstep *)
  (0 <= scene_fraction (sw_gScene w) nowSmp <= 1 /\
   scene_fraction (sw_gScene w) nowSmp
   == inject_Z (Z.min nowSmp (sc_tEndSmp (sw_gScene w)) - sc_tStartSmp (sw_gScene w))
      / inject_Z (sc_tEndSmp (sw_gScene w) - sc_tStartSmp (sw_gScene w)) /\
   smooth (scene_fraction (sw_gScene w) nowSmp)
   == scene_fraction (sw_gScene w) nowSmp * scene_fraction (sw_gScene w) nowSmp
      * (3 - 2 * scene_fraction (sw_gScene w) nowSmp)) /\
  (pad_triMix (sw_pad (scene_crossfade sqrtf expf logf nowSmp w))
   = lerp (tg_triMix (sc_start (sw_gScene w))) (tg_triMix (sc_target (sw_gScene w)))
          (smooth (scene_fraction (sw_gScene w) nowSmp)) /\
   pad_lpfCutHz (sw_pad (scene_crossfade sqrtf expf logf nowSmp w))
   = expf (lerp (logf (tg_lpfCutHz (sc_start (sw_gScene w))))
                (logf (tg_lpfCutHz (sc_target (sw_gScene w))))
                (smooth (scene_fraction (sw_gScene w) nowSmp))) /\
   spacePercent (sw_params (scene_crossfade sqrtf expf logf nowSmp w))
   = clamp_int (Qtrunc (lerp (inject_Z (tg_spacePercent (sc_start (sw_gScene w))))
                             (inject_Z (tg_spacePercent (sc_target (sw_gScene w))))
                             (smooth (scene_fraction (sw_gScene w) nowSmp)) + (1 # 2)))
               0 100 /\
   tempoBPM (sw_params (scene_crossfade sqrtf expf logf nowSmp w))
   = clamp_int (Qtrunc (lerp (inject_Z (tg_tempoBPM (sc_start (sw_gScene w))))
                             (inject_Z (tg_tempoBPM (sc_target (sw_gScene w))))
                             (smooth (scene_fraction (sw_gScene w) nowSmp)) + (1 # 2)))
               30 240) /\
  (* t = 0: the start values *)
  (nowSmp = sc_tStartSmp (sw_gScene w) ->
   pad_triMix (sw_pad (scene_crossfade sqrtf expf logf nowSmp w))
   == tg_triMix (sc_start (sw_gScene w)) /\
   pad_lpfCutHz (sw_pad (scene_crossfade sqrtf expf logf nowSmp w))
   == tg_lpfCutHz (sc_start (sw_gScene w)) /\
   spacePercent (sw_params (scene_crossfade sqrtf expf logf nowSmp w))
   = tg_spacePercent (sc_start (sw_gScene w)) /\
   tempoBPM (sw_params (scene_crossfade sqrtf expf logf nowSmp w))
   = tg_tempoBPM (sc_start (sw_gScene w)) /\
   sc_active (sw_gScene (scene_crossfade sqrtf expf logf nowSmp w)) = true) /\
  (* t = 1: the target values *)
  ((sc_tEndSmp (sw_gScene w) <= nowSmp)%Z ->
   pad_triMix (sw_pad (scene_crossfade sqrtf expf logf nowSmp w))
   == tg_triMix (sc_target (sw_gScene w)) /\
   pad_lpfCutHz (sw_pad (scene_crossfade sqrtf expf logf nowSmp w))
   == tg_lpfCutHz (sc_target (sw_gScene w)) /\
   spacePercent (sw_params (scene_crossfade sqrtf expf logf nowSmp w))
   = tg_spacePercent (sc_target (sw_gScene w)) /\
   tempoBPM (sw_params (scene_crossfade sqrtf expf logf nowSmp w))
   = tg_tempoBPM (sc_target (sw_gScene w))) /\
  (* the fade ends exactly when t >= 1 *)
  (sc_active (sw_gScene (scene_crossfade sqrtf expf logf nowSmp w)) = false
   <-> (sc_tEndSmp (sw_gScene w) <= nowSmp)%Z) /\
  (sc_active (sw_gScene (scene_crossfade sqrtf expf logf nowSmp w)) = false
   <-> 1 <= scene_fraction (sw_gScene w) nowSmp).
Proof.
  intros Hexp Hcompat (Hact & H0 & Hlt & Hend & Hstart & Htarget) Hnow.
  destruct Hstart as (Hs1 & Hs2 & Hs3). destruct Htarget as (Ht1 & Ht2 & Ht3).
  destruct (scene_fraction_spec (sw_gScene w) nowSmp H0 Hlt Hend Hnow)
    as (Hfrac & Hunit & Hat0 & Hat1 & Hbelow).
  destruct (smooth_unit _ Hunit) as [Hsm _].
  pose proof (scene_crossfade_fields sqrtf expf logf nowSmp w) as Hf.
  cbn zeta in Hf.
  destruct Hf as (Ftri & _ & _ & _ & Fcut & Fspc & Fbpm & Fact).
  split; [exact (conj Hunit (conj Hfrac Hsm))|].
  split; [exact (conj Ftri (conj Fcut (conj Fspc Fbpm)))|].
  assert (Hinj : forall n : Z, (0 <= n)%Z -> 0 <= inject_Z n).
  { intros n Hn. change 0 with (inject_Z 0). rewrite <- Zle_Qle. exact Hn. }
  split; [|split; [|split]].
  - intros Hnow0. pose proof (smooth_0 _ (Hat0 Hnow0)) as He.
    rewrite Ftri, Fcut, Fspc, Fbpm, Fact.
    split; [apply lerp_0; exact He|].
    split; [apply (expLerp_0 expf logf Hexp Hcompat); assumption|].
    split.
    { rewrite (Qtrunc_round_int _ (tg_spacePercent (sc_start (sw_gScene w))));
        [apply clamp_int_id; lia | lia | apply lerp_0; exact He]. }
    split.
    { rewrite (Qtrunc_round_int _ (tg_tempoBPM (sc_start (sw_gScene w))));
        [apply clamp_int_id; lia | lia | apply lerp_0; exact He]. }
    pose proof (Hat0 Hnow0) as Ht0.
    destruct (Qleb_spec 1 (scene_fraction (sw_gScene w) nowSmp)); [lra | exact Hact].
  - intros Hnow1. pose proof (smooth_1 _ (Hat1 Hnow1)) as He.
    rewrite Ftri, Fcut, Fspc, Fbpm.
    split; [apply lerp_1; exact He|].
    split; [apply (expLerp_1 expf logf Hexp Hcompat); assumption|].
    split.
    { rewrite (Qtrunc_round_int _ (tg_spacePercent (sc_target (sw_gScene w))));
        [apply clamp_int_id; lia | lia | apply lerp_1; exact He]. }
    rewrite (Qtrunc_round_int _ (tg_tempoBPM (sc_target (sw_gScene w))));
      [apply clamp_int_id; lia | lia | apply lerp_1; exact He].
  - rewrite Fact. split.
    + intros Hoff. destruct (Z.le_gt_cases (sc_tEndSmp (sw_gScene w)) nowSmp) as [Hle | Hgt];
        [exact Hle|].
      exfalso. pose proof (Hbelow Hgt) as Hb.
      destruct (Qleb_spec 1 (scene_fraction (sw_gScene w) nowSmp)); [lra | congruence].
    + intros Hle. pose proof (Hat1 Hle) as H1.
      destruct (Qleb_spec 1 (scene_fraction (sw_gScene w) nowSmp)); [reflexivity | lra].
  - rewrite Fact.
    destruct (Qleb_spec 1 (scene_fraction (sw_gScene w) nowSmp)) as [Hge | Hlt1].
    + split; [intros _; exact Hge | reflexivity].
    + split; [congruence | lra].
Qed.

Lemma expf1_logf1 (x : Q) : 0 < x -> expf1 (logf1 x) == x.
Proof. intros _. unfold expf1, logf1. ring. Qed.

Lemma expf1_compat (x y : Q) : x == y -> expf1 x == expf1 y.
Proof. intros E. unfold expf1. rewrite E. reflexivity. Qed.

Lemma fade_world_ok : fade_ok (sw_gScene fade_world).
Proof.
  unfold fade_ok, targets_ok; cbn.
  repeat split; try reflexivity; try discriminate.
Qed.

Lemma scene_crossfade_continuity_witness :
  fade_ok (sw_gScene fade_world) /\
  (1000 <= 1000 < 2 ^ 64)%Z /\
  pad_triMix (sw_pad (scene_crossfade sqrtf6 expf1 logf1 1000 fade_world))
  == tg_triMix (sc_start (sw_gScene fade_world)) /\
  pad_lpfCutHz (sw_pad (scene_crossfade sqrtf6 expf1 logf1 1000 fade_world))
  == tg_lpfCutHz (sc_start (sw_gScene fade_world)) /\
  spacePercent (sw_params (scene_crossfade sqrtf6 expf1 logf1 1000 fade_world))
  = tg_spacePercent (sc_start (sw_gScene fade_world)) /\
  tempoBPM (sw_params (scene_crossfade sqrtf6 expf1 logf1 1000 fade_world))
  = tg_tempoBPM (sc_start (sw_gScene fade_world)) /\
  sc_active (sw_gScene (scene_crossfade sqrtf6 expf1 logf1 1000 fade_world)) = true.
Proof.
  split; [exact fade_world_ok|].
  assert (Hnow : (1000 <= 1000 < 2 ^ 64)%Z) by (split; [discriminate | reflexivity]).
  split; [exact Hnow|].
  exact (proj1 (proj2 (proj2
           (scene_crossfade_continuity sqrtf6 expf1 logf1 1000 fade_world
              expf1_logf1 expf1_compat fade_world_ok Hnow))) eq_refl).
Defined.

(** The same fade run on numbers: half way (t = 1/2, e = 1/2) space and
    tempo are the rounded midpoints; at the end they are the targets, the
    scale and the delay mode have switched and the fade is off. *)
Example scene_crossfade_run :
  let mid := scene_crossfade sqrtf6 expf1 logf1 221500 fade_world in
  let fin := scene_crossfade sqrtf6 expf1 logf1 442000 fade_world in
  (spacePercent (sw_params mid), tempoBPM (sw_params mid),
   sc_active (sw_gScene mid), sw_gScale mid)
  = (38, 107, true, SCALE_D_DORIAN)%Z /\
  (spacePercent (sw_params fin), tempoBPM (sw_params fin),
   sc_active (sw_gScene fin), sw_gScale fin, dl_mode (sw_gDelay fin))
  = (30, 109, false, SCALE_D_DORIAN, DELAY_1_8)%Z.
Proof. vm_compute. split; reflexivity. Qed.

(** Once the scheduler is set up and a fade is running, [scene_update] is
    the crossfade. *)
Lemma scene_update_active (sqrtf expf logf : Q -> Q) (powf : Q -> Q -> Q)
    (nowSmp : Z) (w : SceneWorld) :
  sch_inited (sw_gSceneSch w) = true -> sc_active (sw_gScene w) = true ->
  scene_update sqrtf expf logf powf nowSmp w = scene_crossfade sqrtf expf logf nowSmp w.
Proof.
  intros Hsch Hact. unfold scene_update, scene_sched_init, scene_start.
  rewrite Hsch. cbn zeta. rewrite Hact. cbn [negb andb]. rewrite Hact. reflexivity.
Qed.

(** ** The step scheduler *)

Local Close Scope Q_scope.
Local Open Scope Z_scope.

Lemma u32_range (x : Z) : 0 <= u32 x < 2 ^ 32.
Proof. unfold u32. apply Z.mod_pos_bound. lia. Qed.

Lemma lxor_u32 (a b : Z) :
  0 <= a < 2 ^ 32 -> 0 <= b < 2 ^ 32 -> 0 <= Z.lxor a b < 2 ^ 32.
Proof.
  intros Ha Hb. assert (Hnn : 0 <= Z.lxor a b) by (apply Z.lxor_nonneg; lia).
  split; [exact Hnn|].
  destruct (Z.eq_dec (Z.lxor a b) 0) as [-> | Hne]; [lia|].
  apply Z.log2_lt_pow2; [lia|].
  pose proof (Z.log2_lxor a b ltac:(lia) ltac:(lia)) as Hl.
  assert (Hla : Z.log2 a < 32).
  { destruct (Z.eq_dec a 0) as [-> | ?]; [cbn; lia | apply Z.log2_lt_pow2; lia]. }
  assert (Hlb : Z.log2 b < 32).
  { destruct (Z.eq_dec b 0) as [-> | ?]; [cbn; lia | apply Z.log2_lt_pow2; lia]. }
  lia.
Qed.

(** The generator stays a 32-bit value. *)
Lemma rng32_range (g : Z) : 0 <= g < 2 ^ 32 -> 0 <= rng32 g < 2 ^ 32.
Proof.
  intros Hg. unfold rng32. cbn zeta.
  set (x1 := Z.lxor g (u32 (Z.shiftl g 13))).
  assert (H1 : 0 <= x1 < 2 ^ 32) by (apply lxor_u32; [exact Hg | apply u32_range]).
  set (x2 := Z.lxor x1 (Z.shiftr x1 17)).
  assert (H2 : 0 <= x2 < 2 ^ 32).
  { apply lxor_u32; [exact H1|]. rewrite Z.shiftr_div_pow2 by lia. split.
    - apply Z.div_pos; lia.
    - apply Z.div_lt_upper_bound; lia. }
  apply lxor_u32; [exact H2 | apply u32_range].
Qed.

(** The first three outputs of xorshift32 from the sketch's seed 0xA3C59AC3. *)
Example rng32_from_seed :
  (rng32 2747636419, rng32 (rng32 2747636419), rng32 (rng32 (rng32 2747636419)))
  = (52667181, 2676042062, 4022220634).
Proof. vm_compute. reflexivity. Qed.

(** [rand01] draws from [0, 1). *)
Lemma rand01_range (g : Z) :
  0 <= g < 2 ^ 32 -> (0 <= fst (rand01 g) < 1)%Q /\ 0 <= snd (rand01 g) < 2 ^ 32.
Proof.
  intros Hg. pose proof (rng32_range g Hg) as Hr. unfold rand01. cbn [fst snd].
  split; [|exact Hr].
  assert (H0 : (inject_Z 0 <= inject_Z (rng32 g))%Q) by (rewrite <- Zle_Qle; lia).
  assert (H1 : (inject_Z (rng32 g) < inject_Z 4294967296)%Q) by (rewrite <- Zlt_Qlt; lia).
  change (inject_Z 0) with 0%Q in H0. change (inject_Z 4294967296) with 4294967296%Q in H1.
  assert (E : (1 / 4294967296 == 1 # 4294967296)%Q) by reflexivity.
  rewrite E. split; lra.
Qed.

(** Under the energy mapping the three probabilities are strictly ordered,
    whatever [sqrtf] returns. *)
Lemma energy_set_order (sqrtf : Q -> Q) (e : EnergyCtrl) (energyPct : Z) :
  (pOdd (energy_set sqrtf e energyPct) < pEven (energy_set sqrtf e energyPct)
   /\ pEven (energy_set sqrtf e energyPct) < pStrong (energy_set sqrtf e energyPct))%Q.
Proof.
  unfold energy_set. cbn zeta. cbn [pOdd pEven pStrong].
  match goal with |- context [sqrtf ?u] => generalize (sqrtf u) end.
  intros u1. unfold constrain. q_cases; split; lra.
Qed.

(** The probability is picked by beat strength. *)
Lemma step_probability_by_beat (gEnergy : EnergyCtrl) (step : Z) (wobble : Q) :
  0 <= step ->
  (step mod 4 = 0 -> step_probability gEnergy step wobble = (pStrong gEnergy * wobble)%Q) /\
  (step mod 4 <> 0 -> step mod 2 = 0 ->
   step_probability gEnergy step wobble = (pEven gEnergy * wobble)%Q) /\
  (step mod 2 <> 0 -> step_probability gEnergy step wobble = (pOdd gEnergy * wobble)%Q).
Proof.
  intros Hs. unfold step_probability.
  change 3 with (Z.ones 2). change 1 with (Z.ones 1).
  rewrite !Z.land_ones by lia. change (2 ^ 2) with 4. change (2 ^ 1) with 2.
  assert (Hrel : step mod 2 = (step mod 4) mod 2).
  { Z.div_mod_to_equations. lia. }
  destruct (Z.eqb_spec (step mod 4) 0) as [E4 | E4];
    destruct (Z.eqb_spec (step mod 2) 0) as [E2 | E2];
    repeat split; intros; try reflexivity; try congruence;
    exfalso; clear Hrel; Z.div_mod_to_equations; lia.
Qed.

(** On a step index below 16, with [lastBar] at its initial 0, [onStep16]
    finds [bar == lastBar] and leaves the wobble alone. *)
Lemma onStep16_keeps_wobble (powf : Q -> Q -> Q) (gEnergy : EnergyCtrl)
    (gScale : Scale) (step : Z) (w w' : StepState) :
  0 <= step < 16 -> lastBar w = 0 ->
  onStep16 powf gEnergy gScale step w = Some w' ->
  wob w' = wob w /\ lastBar w' = 0.
Proof.
  intros Hstep Hbar. unfold onStep16. cbn zeta.
  replace (u16 (step / 16)) with 0
    by (rewrite Z.div_small by lia; reflexivity).
  rewrite Hbar. cbn [Z.eqb negb].
  destruct (rand01 (gRng32 w)) as [u g].
  destruct (Qltb u _).
  - destruct (pickAmbientNote gScale (last w) g) as [[[note last'] g1]|]; cbn; [|discriminate].
    destruct (rand01 g1) as [u1 g2].
    destruct (pluck_noteOn powf gScale _ note _) as [pluck'|]; cbn; [|discriminate].
    intros [= <-]. split; reflexivity.
  - intros [= <-]. split; reflexivity.
Qed.

Lemma clock_tick_step_range (c : Clock16) : 0 <= step16 (clock_tick c) < 16.
Proof.
  cbn. rewrite land_15_mod16. unfold u16.
  pose proof (Z.mod_pos_bound (u32 (step16 c + 1)) 16 ltac:(lia)).
  rewrite Z.mod_small by lia. lia.
Qed.

(** A property of the world that every step below 16 preserves holds after
    any clock run that comes back. *)
Lemma clock_loop_invariant {W : Type} (h : Z -> W -> W) (P : W -> Prop) :
  (forall (s : Z) (w : W), 0 <= s < 16 -> P w -> P (h s w)) ->
  forall (fuel : nat) (blockEnd : Z) (c : Clock16) (w : W) (c' : Clock16) (w' : W),
  0 <= step16 c < 16 -> P w ->
  clock_loop h fuel blockEnd c w = Some (c', w') ->
  P w' /\ 0 <= step16 c' < 16.
Proof.
  intros Hstep. induction fuel as [|fuel IH]; intros blockEnd c w c' w' Hc Hw; cbn [clock_loop].
  - destruct (nextTickAt c <=? blockEnd); [discriminate|].
    intros [= <- <-]. split; assumption.
  - destruct (nextTickAt c <=? blockEnd).
    + apply IH; [apply clock_tick_step_range | apply Hstep; assumption].
    + intros [= <- <-]. split; assumption.
Qed.

Lemma clock_run_invariant {W : Type} (h : Z -> W -> W) (P : W -> Prop) :
  (forall (s : Z) (w : W), 0 <= s < 16 -> P w -> P (h s w)) ->
  forall (fuel : nat) (blocks : list Z) (c : Clock16) (w : W) (c' : Clock16) (w' : W),
  0 <= step16 c < 16 -> P w ->
  clock_run h fuel blocks c w = Some (c', w') -> P w'.
Proof.
  intros Hstep fuel blocks. induction blocks as [|blk rest IH]; intros c w c' w' Hc Hw; cbn [clock_run].
  - intros [= <- <-]. exact Hw.
  - unfold clock_advance_block.
    destruct (clock_loop h fuel (u64 (smpNow c + blk)) c w) as [[c1 w1]|] eqn:E; [|discriminate].
    destruct (clock_loop_invariant h P Hstep _ _ _ _ _ _ Hc Hw E) as [Hw1 Hc1].
    apply IH; [exact Hc1 | exact Hw1].
Qed.

(** Step 0 of the second bar, the place where a new wobble is due: the
    scheduler state still carries wobble 1 and [lastBar] 0, and 17 steps
    have fired. *)
Example onStep16_second_bar :
  option_map (fun r => (step16 (fst r),
                        option_map (fun w => (wob w, lastBar w)) (snd r)))
    (clock_run (onStep16_cb powf1 EnergyCtrl_default SCALE_A_MINOR) 17
       [108137] (clock_init 104) (Some (StepState_init 2747636419)))
  = Some (1, Some (1%Q, 0)).
Proof. vm_compute. reflexivity. Qed.

(** ** pickAmbientNote *)

Lemma ambient_pool_check (s : Scale) :
  forallb (fun m => (36 <=? m) && (m <=? 91) && in_scaleb s m) (ambient_pool s) = true
  /\ existsb (Z.eqb 96) (ambient_pool s) = false
  /\ in_scaleb s 96 = true
  /\ (0 <? Z.of_nat (length (ambient_pool s))) = true.
Proof. destruct s; vm_compute; repeat split; reflexivity. Qed.

(** C8, where the code departs from it.  The pool is built from the octave
    roots 24, 36, ..., 72 plus the scale root, so it stops short of the top
    of the register: on every builtin scale each pool note is an in-scale
    note of 36..91, and MIDI 96, an in-scale note of the register 36..96, is
    never in the pool; the candidate [pickAmbientNote] draws is a pool
    note. *)
Theorem pickAmbientNote_pool_incomplete (s : Scale) :
  (forall m : Z, m ∈ ambient_pool s -> 36 <= m <= 91 /\ in_scale s m) /\
  (36 <= 96 <= 96 /\ in_scale s 96 /\ 96 ∉ ambient_pool s) /\
  (forall (prev g note last' g' : Z),
     pickAmbientNote s prev g = Some (note, last', g') ->
     exists cand : Z,
       ambient_pool s
         !! Z.to_nat (rng32 g mod Z.of_nat (length (ambient_pool s))) = Some cand /\
       cand ∈ ambient_pool s /\ cand <= 91).
Proof.
  destruct (ambient_pool_check s) as (Hall & Hno & H96 & Hlen).
  rewrite forallb_forall in Hall.
  assert (Hpool : forall m : Z, m ∈ ambient_pool s -> 36 <= m <= 91 /\ in_scale s m).
  { intros m Hm. apply list_elem_of_In in Hm. specialize (Hall m Hm).
    apply andb_prop in Hall as [Hr Hs]. apply andb_prop in Hr as [Hlo Hhi].
    apply Z.leb_le in Hlo, Hhi. apply in_scaleb_spec in Hs. split; [lia | exact Hs]. }
  split; [exact Hpool|]. split.
  - split; [lia|]. split; [apply in_scaleb_spec; exact H96|].
    intros Hin. apply list_elem_of_In in Hin.
    assert (existsb (Z.eqb 96) (ambient_pool s) = true).
    { apply existsb_exists. exists 96. split; [exact Hin | reflexivity]. }
    congruence.
  - intros prev g note last' g' Hpick. unfold pickAmbientNote in Hpick. cbn zeta in Hpick.
    destruct (Z.of_nat (length (ambient_pool s)) =? 0); [discriminate|].
    destruct (ambient_pool s
                !! Z.to_nat (rng32 g mod Z.of_nat (length (ambient_pool s))))
      as [cand|] eqn:Hc; [|discriminate].
    exists cand. split; [reflexivity|].
    assert (Hin : cand ∈ ambient_pool s) by (eapply list_elem_of_lookup_2; exact Hc).
    split; [exact Hin | apply Hpool; exact Hin].
Qed.

(** On C lydian the pool ends at 83: the in-scale notes 84..96 never come
    up as candidates. *)
Example ambient_pool_c_lydian :
  ambient_pool SCALE_C_LYDIAN
  = [36; 38; 40; 42; 43; 45; 47; 48; 50; 52; 54; 55; 57; 59;
     60; 62; 64; 66; 67; 69; 71; 72; 74; 76; 78; 79; 81; 83].
Proof. vm_compute. reflexivity. Qed.

(** The parts of C8 the code does implement: a candidate from the pool; a
    hold of the previous note when the first draw is below 0.10; otherwise
    an optional jump of +7 or -5 when the second draw is below 0.15, a nudge
    of +7 or -5 when the candidate is within 2 semitones of the previous
    note, a clamp to 36..96 and a re-quantization, with the result stored
    as the new previous note. *)
Lemma pickAmbientNote_behaviour (s : Scale) (prev g : Z) :
  exists cand : Z,
    ambient_pool s !! Z.to_nat (rng32 g mod Z.of_nat (length (ambient_pool s)))
    = Some cand /\
    (Qltb (fst (rand01 (rng32 g))) (1 # 10) = true ->
     pickAmbientNote s prev g = Some (prev, prev, snd (rand01 (rng32 g)))) /\
    (Qltb (fst (rand01 (rng32 g))) (1 # 10) = false ->
     exists note g' jump nudged : Z,
       pickAmbientNote s prev g = Some (note, note, g') /\
       (jump = 0 \/ jump = 7 \/ jump = -5) /\
       (jump <> 0 ->
        Qltb (fst (rand01 (snd (rand01 (rng32 g))))) (15 # 100) = true) /\
       (nudged = 0 \/ nudged = 7 \/ nudged = -5) /\
       (nudged <> 0 -> Z.abs (cand + jump - prev) < 3) /\
       note = quantizeMidi (clamp_int (cand + jump + nudged) 36 96) s /\
       in_scale s note).
Proof.
  destruct (ambient_pool_check s) as (_ & _ & _ & Hlen). apply Z.ltb_lt in Hlen.
  set (n := Z.of_nat (length (ambient_pool s))) in *.
  destruct (lookup_lt_is_Some_2 (ambient_pool s) (Z.to_nat (rng32 g mod n)))
    as [cand Hc].
  { pose proof (Z.mod_pos_bound (rng32 g) n Hlen). lia. }
  exists cand. split; [exact Hc|].
  unfold pickAmbientNote. cbn zeta. fold n.
  replace (n =? 0) with false by (symmetry; apply Z.eqb_neq; lia).
  rewrite Hc. cbn [mbind option_bind].
  destruct (rand01 (rng32 g)) as [u1 g1] eqn:E1. cbn [fst snd].
  split.
  { intros ->. reflexivity. }
  intros ->.
  destruct (rand01 g1) as [u2 g2] eqn:E2. cbn [fst snd].
  assert (Hq : forall x, in_scale s (quantizeMidi (clamp_int x 36 96) s)).
  { intros x. apply quantizeMidi_in_scale. unfold clamp_int.
    destruct (Z.ltb_spec x 36); [destruct (Z.ltb_spec 96 36)
                                |destruct (Z.ltb_spec 96 x)]; lia. }
  assert (Hn : forall c gg, fst (nudge c gg) = c + 7 \/ fst (nudge c gg) = c + -5).
  { intros c gg. unfold nudge. cbn [fst].
    destruct (Z.land (rng32 gg) 1 =? 0); [right | left]; reflexivity. }
  destruct (Qltb u2 (15 # 100)) eqn:Ejump.
  - destruct (nudge cand g2) as [c1 g3] eqn:En1.
    pose proof (Hn cand g2) as Hj. rewrite En1 in Hj. cbn [fst] in Hj.
    destruct (Z.ltb_spec (Z.abs (c1 - prev)) 3) as [Hclose | Hfar].
    + destruct (nudge c1 g3) as [c2 g4] eqn:En2.
      pose proof (Hn c1 g3) as Hk. rewrite En2 in Hk. cbn [fst] in Hk.
      exists (quantizeMidi (clamp_int c2 36 96) s), g4, (c1 - cand), (c2 - c1).
      split; [reflexivity|]. split; [lia|]. split; [intros _; reflexivity|].
      split; [lia|]. split; [intros _; replace (cand + (c1 - cand)) with c1 by lia; exact Hclose|].
      split; [f_equal; f_equal; lia | apply Hq].
    + exists (quantizeMidi (clamp_int c1 36 96) s), g3, (c1 - cand), 0.
      split; [reflexivity|]. split; [lia|]. split; [intros _; reflexivity|].
      split; [lia|]. split; [congruence|].
      split; [f_equal; f_equal; lia | apply Hq].
  - destruct (Z.ltb_spec (Z.abs (cand - prev)) 3) as [Hclose | Hfar].
    + destruct (nudge cand g2) as [c2 g4] eqn:En2.
      pose proof (Hn cand g2) as Hk. rewrite En2 in Hk. cbn [fst] in Hk.
      exists (quantizeMidi (clamp_int c2 36 96) s), g4, 0, (c2 - cand).
      split; [reflexivity|]. split; [lia|]. split; [congruence|].
      split; [lia|]. split; [intros _; rewrite Z.add_0_r; exact Hclose|].
      split; [f_equal; f_equal; lia | apply Hq].
    + exists (quantizeMidi (clamp_int cand 36 96) s), g2, 0, 0.
      split; [reflexivity|]. split; [lia|]. split; [congruence|].
      split; [lia|]. split; [congruence|].
      split; [f_equal; f_equal; lia | apply Hq].
Qed.

(** [onStep16] always returns on a pool that satisfies the invariant, and
    hands the invariant on. *)
Lemma onStep16_total (powf : Q -> Q -> Q) (gEnergy : EnergyCtrl) (gScale : Scale)
    (step : Z) (w : StepState) :
  pool_inv (gPluck w) ->
  exists w' : StepState,
    onStep16 powf gEnergy gScale step w = Some w' /\ pool_inv (gPluck w').
Proof.
  intros Hinv. unfold onStep16. cbn zeta.
  set (pluck := if pool_inited (gPluck w) then gPluck w else pluck_init (gPluck w)).
  assert (Hpl : pool_inv pluck).
  { subst pluck. destruct (pool_inited (gPluck w)); [exact Hinv | apply pool_inv_default]. }
  destruct (if negb (u16 (step / 16) =? lastBar w)
            then let '(u, g) := rand01 (gRng32 w) in
                 (u16 (step / 16), ((9 # 10) + (2 # 10) * u)%Q, g)
            else (lastBar w, wob w, gRng32 w)) as [[lastBar' wob'] g0].
  destruct (rand01 g0) as [u g1].
  destruct (Qltb u _).
  - destruct (pickAmbientNote_behaviour gScale (last w) g1) as (cand & _ & Hhold & Hgo).
    destruct (Qltb (fst (rand01 (rng32 g1))) (1 # 10)) eqn:Eh.
    + rewrite (Hhold eq_refl). cbn [mbind option_bind].
      destruct (rand01 (snd (rand01 (rng32 g1)))) as [u2 g2].
      destruct (pluck_noteOn_total powf gScale pluck (last w)
                  ((45 # 100) + (50 # 100) * u2)%Q Hpl) as (p' & Hp' & Hinv').
      rewrite Hp'. cbn [mbind option_bind]. eexists. split; [reflexivity | exact Hinv'].
    + destruct (Hgo eq_refl) as (note & g' & _ & _ & Hpick & _).
      rewrite Hpick. cbn [mbind option_bind].
      destruct (rand01 g') as [u2 g2].
      destruct (pluck_noteOn_total powf gScale pluck note
                  ((45 # 100) + (50 # 100) * u2)%Q Hpl) as (p' & Hp' & Hinv').
      rewrite Hp'. cbn [mbind option_bind]. eexists. split; [reflexivity | exact Hinv'].
  - eexists. split; [reflexivity | exact Hpl].
Qed.

Lemma fire_invariant {W : Type} (h : Z -> W -> W) (P : W -> Prop) :
  (forall (s : Z) (w : W), 0 <= s < 16 -> P w -> P (h s w)) ->
  forall (n : nat) (k : Z) (w : W), P w -> P (fire h k n w).
Proof.
  intros Hstep. induction n as [|n IH]; intros k w Hw; cbn [fire]; [exact Hw|].
  apply IH. apply Hstep; [apply Z.mod_pos_bound; lia | exact Hw].
Qed.

(** C9, where the code departs from it.  The wobble is meant to be redrawn
    once per bar, but [bar = step / 16] is 0 for every step index the clock
    delivers (they are all below 16) and [lastBar] starts at 0: over any run
    of the clock from its initial state the scheduler returns, and it has
    never redrawn the wobble, which is still its initial 1.0. *)
Theorem onStep16_wobble_never_recomputed (powf : Q -> Q -> Q) (gEnergy : EnergyCtrl)
    (gScale : Scale) (b seed : Z) (blocks : list Z) :
  1 <= clock_spt_from_bpm b ->
  Forall (fun blk => 0 <= blk < 2 ^ 32) blocks ->
  sum_blocks blocks + clock_spt_from_bpm b < 2 ^ 64 ->
  exists (fuel : nat) (c' : Clock16) (w' : StepState),
    clock_run (onStep16_cb powf gEnergy gScale) fuel blocks (clock_init b)
              (Some (StepState_init seed)) = Some (c', Some w') /\
    Z.of_nat fuel = sum_blocks blocks / clock_spt_from_bpm b /\
    wob w' = 1%Q /\ lastBar w' = 0.
Proof.
  intros Hs Hall Hlt.
  set (spt := clock_spt_from_bpm b) in *. set (N := sum_blocks blocks) in *.
  assert (HN : 0 <= N / spt).
  { apply Z.div_pos; [|lia]. subst N. clear -Hall. unfold sum_blocks.
    induction Hall; cbn; lia. }
  pose (P := fun ow : option StepState =>
               exists w, ow = Some w /\ pool_inv (gPluck w) /\
                         wob w = 1%Q /\ lastBar w = 0).
  assert (HP : P (fire (onStep16_cb powf gEnergy gScale) 0 (Z.to_nat (N / spt))
                    (Some (StepState_init seed)))).
  { apply fire_invariant.
    - intros s ow Hrange (w0 & -> & Hinv & Hwob & Hbar). unfold onStep16_cb.
      cbn [mbind option_bind].
      destruct (onStep16_total powf gEnergy gScale s w0 Hinv) as (w1 & Hw1 & Hinv1).
      destruct (onStep16_keeps_wobble powf gEnergy gScale s w0 w1 Hrange Hbar Hw1)
        as [E1 E2].
      exists w1. split; [exact Hw1|]. split; [exact Hinv1|]. split; [congruence | exact E2].
    - exists (StepState_init seed). split; [reflexivity|].
      split; [apply pool_inv_default|]. split; reflexivity. }
  destruct HP as (w' & Hfire & _ & Hwob & Hbar). subst N.
  exists (Z.to_nat (sum_blocks blocks / spt)),
    (clock_at spt (u16 b) (sum_blocks blocks) (sum_blocks blocks / spt)), w'.
  split.
  { rewrite clock_init_at. fold spt.
    rewrite clock_run_at; rewrite ?Z.add_0_l, ?Zdiv_0_l, ?Z.sub_0_r;
      try lia; try assumption.
    rewrite Hfire. reflexivity. }
  split; [lia|]. split; assumption.
Qed.

(** Eighteen ticks at 104 BPM from the sketch's seed: steps 0..15 of the
    first bar, then steps 0 and 1 of the second. *)
Lemma onStep16_wobble_never_recomputed_witness :
  exists (fuel : nat) (c' : Clock16) (w' : StepState),
    clock_run (onStep16_cb powf1 EnergyCtrl_default SCALE_A_MINOR) fuel
              [60000; 60000] (clock_init 104) (Some (StepState_init 2747636419))
    = Some (c', Some w') /\
    Z.of_nat fuel = sum_blocks [60000; 60000] / clock_spt_from_bpm 104 /\
    wob w' = 1%Q /\ lastBar w' = 0.
Proof.
  apply (onStep16_wobble_never_recomputed powf1 EnergyCtrl_default SCALE_A_MINOR
           104 2747636419 [60000; 60000]).
  - vm_compute. discriminate.
  - repeat constructor; vm_compute; congruence.
  - vm_compute. reflexivity.
Defined.


(** ** Agreement of the rational embedding with binary32 *)

(** On every tempo the sketch supports, the tick length and both delay
    lengths computed in binary32 are the ones the rational embedding gives. *)
Lemma b32_agrees_on_tempo_domain :
  forallb (fun n =>
             let b := Z.of_nat n in
             (B32.clock_spt_from_bpm_b32 b =? clock_spt_from_bpm b)
             && (B32.delay_samples_from_bpm_b32 b DELAY_1_8 =? delay_samples_from_bpm b DELAY_1_8)
             && (B32.delay_samples_from_bpm_b32 b DELAY_1_4 =? delay_samples_from_bpm b DELAY_1_4))
          (seq 0 241) = true.
Proof. vm_compute. reflexivity. Qed.

Lemma b32_clock_spt_agrees (b : Z) :
  b <= 240 -> B32.clock_spt_from_bpm_b32 b = clock_spt_from_bpm b.
Proof.
  intros Hb. destruct (Z.ltb_spec b 30) as [Hlow | Hhigh].
  - unfold B32.clock_spt_from_bpm_b32, clock_spt_from_bpm.
    replace (b <? 30) with true by (symmetry; apply Z.ltb_lt; lia).
    vm_compute. reflexivity.
  - pose proof b32_agrees_on_tempo_domain as Hall. rewrite forallb_forall in Hall.
    specialize (Hall (Z.to_nat b)). rewrite Z2Nat.id in Hall by lia.
    assert (Hin : In (Z.to_nat b) (seq 0 241)) by (apply in_seq; lia).
    specialize (Hall Hin). cbn zeta in Hall.
    apply andb_prop in Hall as [Hall _]. apply andb_prop in Hall as [Hspt _].
    apply Z.eqb_eq. exact Hspt.
Qed.

(** The pluck envelope on binary32, from note-on at 44.1 kHz: every value
    is inside [0, 1], the state is Idle with envelope 0 after 3664 steps
    (not yet after 3663), and it stays so. *)
Lemma b32_pluck_envelope_course :
  (let '(inside, e) := B32.adsr_run_b32 3663 B32.adsr_note_on (B32.of_Z SR) true in
   (inside, B32.st32 e)) = (true, ENV_RELEASE) /\
  (let '(inside, e) := B32.adsr_run_b32 3664 B32.adsr_note_on (B32.of_Z SR) true in
   (inside, B32.st32 e, B32.env32 e)) = (true, ENV_IDLE, B32.zero) /\
  (let '(inside, e) := B32.adsr_run_b32 4000 B32.adsr_note_on (B32.of_Z SR) true in
   (inside, B32.st32 e, B32.env32 e)) = (true, ENV_IDLE, B32.zero).
Proof. vm_compute. repeat split; reflexivity. Qed.

(** The feedback caps on binary32, for every [int] space percentage. *)
Lemma b32_space_caps_checked :
  forallb (fun n =>
             let '(_, _, dfb) := B32.delay_levels_b32 (Z.of_nat n) in
             let '(_, _, rfb) := B32.reverb_levels_b32 (Z.of_nat n) in
             SpecFloat.SFleb dfb (B32.lit 6 10) && SpecFloat.SFltb dfb B32.one
             && SpecFloat.SFleb rfb (B32.lit 75 100) && SpecFloat.SFltb rfb B32.one)
          (seq 0 101) = true.
Proof. vm_compute. reflexivity. Qed.

Lemma b32_space_caps (spacePct : Z) :
  let '(_, _, dfb) := B32.delay_levels_b32 spacePct in
  let '(_, _, rfb) := B32.reverb_levels_b32 spacePct in
  SpecFloat.SFleb dfb (B32.lit 6 10) = true /\ SpecFloat.SFltb dfb B32.one = true /\
  SpecFloat.SFleb rfb (B32.lit 75 100) = true /\ SpecFloat.SFltb rfb B32.one = true.
Proof.
  assert (Hfrac : exists n : nat, (n <= 100)%nat /\
            B32.space_fraction_b32 spacePct = B32.space_fraction_b32 (Z.of_nat n)).
  { unfold B32.space_fraction_b32.
    destruct (Z.leb_spec spacePct 0) as [Hlo | Hlo].
    - exists 0%nat. split; [lia | reflexivity].
    - destruct (Z.leb_spec 100 spacePct) as [Hhi | Hhi].
      + exists 100%nat. split; [lia | reflexivity].
      + exists (Z.to_nat spacePct). split; [lia|]. rewrite Z2Nat.id by lia.
        replace (spacePct <=? 0) with false by (symmetry; apply Z.leb_gt; lia).
        replace (100 <=? spacePct) with false by (symmetry; apply Z.leb_gt; lia).
        reflexivity. }
  destruct Hfrac as (n & Hn & Hfrac).
  assert (Hd : B32.delay_levels_b32 spacePct = B32.delay_levels_b32 (Z.of_nat n))
    by (unfold B32.delay_levels_b32; rewrite Hfrac; reflexivity).
  assert (Hr : B32.reverb_levels_b32 spacePct = B32.reverb_levels_b32 (Z.of_nat n))
    by (unfold B32.reverb_levels_b32; rewrite Hfrac; reflexivity).
  rewrite Hd, Hr. clear Hd Hr Hfrac.
  pose proof b32_space_caps_checked as Hall. rewrite forallb_forall in Hall.
  specialize (Hall n ltac:(apply in_seq; lia)).
  destruct (B32.delay_levels_b32 (Z.of_nat n)) as [[? ?] dfb].
  destruct (B32.reverb_levels_b32 (Z.of_nat n)) as [[? ?] rfb].
  apply andb_prop in Hall as [Hall H4]. apply andb_prop in Hall as [Hall H3].
  apply andb_prop in Hall as [H1 H2]. exact (conj H1 (conj H2 (conj H3 H4))).
Qed.

(** Space at zero on binary32: every level is +0, and a finite non-zero dry
    sample passes through the wet sum bit for bit. *)
Lemma b32_space_zero :
  B32.delay_levels_b32 0 = (B32.zero, B32.zero, B32.zero) /\
  fst (B32.reverb_levels_b32 0) = (B32.zero, B32.zero).
Proof. vm_compute. split; reflexivity. Qed.

Lemma b32_zero_wet_passes_dry (s : bool) (m : positive) (e : Z)
    (wetTap wetRev ctr : SpecFloat.spec_float) :
  B32.finite_b32 wetTap = true -> B32.finite_b32 wetRev = true ->
  B32.finite_b32 ctr = true ->
  B32.out_mono_b32 (SpecFloat.S754_finite s m e) B32.zero wetTap B32.zero wetRev ctr
  = SpecFloat.S754_finite s m e.
Proof.
  intros Ht Hr Hc. unfold B32.out_mono_b32, B32.add, B32.mul, B32.zero.
  destruct wetTap as [st| | |st mt et]; try discriminate;
    destruct wetRev as [sr| | |sr mr er]; try discriminate;
    destruct ctr as [sc| | |sc mc ec]; try discriminate;
    try destruct st; try destruct sr; try destruct sc; reflexivity.
Qed.

(** ** Rounding to 24 bits *)

Local Open Scope Q_scope.

Lemma pow2_pos (k : Z) : 0 < 2 ^ k.
Proof. apply Qpower_0_lt. reflexivity. Qed.

Lemma pow2_add (a b : Z) : 2 ^ (a + b) == 2 ^ a * 2 ^ b.
Proof. apply Qpower_plus. discriminate. Qed.

Lemma pow2_le (a b : Z) : (a <= b)%Z -> 2 ^ a <= 2 ^ b.
Proof. intros H. apply Qpower_le_compat_l; [exact H | discriminate]. Qed.

Lemma pow2_Z (n : Z) : (0 <= n)%Z -> 2 ^ n == inject_Z (2 ^ n).
Proof. intros H. rewrite Zpower_Qpower by exact H. reflexivity. Qed.

Lemma ilog2_spec (x : Q) : 0 < x -> 2 ^ ilog2 x <= x /\ x < 2 ^ (ilog2 x + 1).
Proof.
  intros Hx. destruct x as [n d]. unfold ilog2. cbn [Qnum Qden].
  assert (Hn : (0 < n)%Z) by (unfold Qlt in Hx; cbn in Hx; lia).
  pose proof (Z.log2_spec n Hn) as [Hn1 Hn2].
  pose proof (Z.log2_spec (Z.pos d) ltac:(lia)) as [Hd1 Hd2].
  pose proof (Z.log2_nonneg n) as Hln. pose proof (Z.log2_nonneg (Z.pos d)) as Hld.
  set (ln := Z.log2 n) in *. set (ld := Z.log2 (Z.pos d)) in *.
  assert (Hq : n # d == inject_Z n / inject_Z (Z.pos d)) by apply Qmake_Qdiv.
  assert (Hdpos : 0 < inject_Z (Z.pos d)) by reflexivity.
  assert (Hup : n # d < 2 ^ (ln - ld + 1)).
  { rewrite Hq. apply Qlt_shift_div_r; [exact Hdpos|].
    assert (H1 : 2 ^ (ln - ld + 1) * 2 ^ ld == inject_Z (2 ^ (ln + 1))).
    { rewrite <- pow2_add. replace (ln - ld + 1 + ld)%Z with (ln + 1)%Z by lia.
      apply pow2_Z. lia. }
    assert (H2 : 2 ^ ld <= inject_Z (Z.pos d)).
    { rewrite pow2_Z by lia. rewrite <- Zle_Qle. exact Hd1. }
    assert (H3 : inject_Z n < inject_Z (2 ^ (ln + 1))) by (rewrite <- Zlt_Qlt; lia).
    pose proof (pow2_pos (ln - ld + 1)). nra. }
  assert (Hlo : 2 ^ (ln - ld - 1) <= n # d).
  { rewrite Hq. apply Qle_shift_div_l; [exact Hdpos|].
    assert (H1 : 2 ^ (ln - ld - 1) * 2 ^ (ld + 1) == inject_Z (2 ^ ln)).
    { rewrite <- pow2_add. replace (ln - ld - 1 + (ld + 1))%Z with ln by lia.
      apply pow2_Z. lia. }
    assert (H2 : inject_Z (Z.pos d) <= 2 ^ (ld + 1)).
    { rewrite pow2_Z by lia. rewrite <- Zle_Qle. lia. }
    assert (H3 : inject_Z (2 ^ ln) <= inject_Z n) by (rewrite <- Zle_Qle; lia).
    pose proof (pow2_pos (ln - ld - 1)). nra. }
  destruct (Qle_bool (2 ^ (ln - ld)) (n # d)) eqn:E.
  - apply Qle_bool_iff in E. split; [exact E | exact Hup].
  - assert (Hlt : n # d < 2 ^ (ln - ld)).
    { apply Qnot_le_lt. intros H. apply Qle_bool_iff in H. congruence. }
    split; [exact Hlo|]. replace (ln - ld - 1 + 1)%Z with (ln - ld)%Z by lia. exact Hlt.
Qed.

Lemma ilog2_unique (x : Q) (e : Z) :
  2 ^ e <= x -> x < 2 ^ (e + 1) -> ilog2 x = e.
Proof.
  intros H1 H2.
  assert (Hx : 0 < x) by (pose proof (pow2_pos e); lra).
  destruct (ilog2_spec x Hx) as [G1 G2].
  assert (A : (ilog2 x < e + 1)%Z).
  { apply (Qpower_lt_compat_l_inv 2); [lra | reflexivity]. }
  assert (B : (e < ilog2 x + 1)%Z).
  { apply (Qpower_lt_compat_l_inv 2); [lra | reflexivity]. }
  lia.
Qed.

(** [lra] on goals that mention [inject_Z] of a variable. *)
Ltac qz_lra :=
  repeat match goal with
         | |- context [inject_Z ?z] =>
             is_var z; let q := fresh "q" in set (q := inject_Z z) in *; clearbody q
         | H : context [inject_Z ?z] |- _ =>
             is_var z; let q := fresh "q" in set (q := inject_Z z) in *; clearbody q
         end;
  lra.

Lemma ilog2_eq (x y : Q) : 0 < x -> x == y -> ilog2 x = ilog2 y.
Proof.
  intros Hx Hxy. destruct (ilog2_spec x Hx) as [G1 G2]. symmetry.
  apply ilog2_unique; rewrite <- Hxy; assumption.
Qed.

#[global] Instance round_even_comp : Proper (Qeq ==> eq) round_even.
Proof.
  intros x y Hxy. unfold round_even.
  rewrite (Qfloor_comp x y Hxy).
  assert (H : (x - inject_Z (Qfloor y) ?= 1 # 2) = (y - inject_Z (Qfloor y) ?= 1 # 2)).
  { apply Qcompare_comp; [rewrite Hxy; reflexivity | reflexivity]. }
  rewrite H. reflexivity.
Qed.

Lemma round_even_near (y : Q) : Qabs (inject_Z (round_even y) - y) <= 1 # 2.
Proof.
  unfold round_even.
  pose proof (Qfloor_le y) as H1. pose proof (Qlt_floor y) as H2.
  rewrite inject_Z_plus in H2. change (inject_Z 1) with 1 in H2.
  set (f := Qfloor y) in *.
  apply Qabs_Qle_condition.
  destruct (y - inject_Z f ?= 1 # 2) eqn:E.
  - apply (proj2 (Qeq_alt _ _)) in E.
    destruct (Z.even f); [lra|].
    rewrite inject_Z_plus. change (inject_Z 1) with 1. lra.
  - apply (proj2 (Qlt_alt _ _)) in E. lra.
  - apply (proj2 (Qgt_alt _ _)) in E. rewrite inject_Z_plus. change (inject_Z 1) with 1. lra.
Qed.

Lemma round_even_int (y : Q) (z : Z) : y == inject_Z z -> round_even y = z.
Proof.
  intros Hy. rewrite (round_even_comp y (inject_Z z) Hy).
  unfold round_even. rewrite Qfloor_Z.
  assert (E : (inject_Z z - inject_Z z ?= 1 # 2) = Lt).
  { apply (proj1 (Qlt_alt _ _)). assert (H0 : inject_Z z - inject_Z z == 0) by ring.
    rewrite H0. reflexivity. }
  rewrite E. reflexivity.
Qed.

Lemma round_even_le (y : Q) (N : Z) : y <= inject_Z N -> (round_even y <= N)%Z.
Proof.
  intros Hy. unfold round_even.
  pose proof (Qfloor_le y) as H1. pose proof (Qlt_floor y) as H2.
  rewrite inject_Z_plus in H2. change (inject_Z 1) with 1 in H2.
  assert (Hf : (Qfloor y <= N)%Z) by (rewrite Zle_Qle; qz_lra).
  set (f := Qfloor y) in *.
  destruct (Z.eq_dec f N) as [Heq|Hne].
  - assert (E : (y - inject_Z f ?= 1 # 2) = Lt).
    { apply (proj1 (Qlt_alt _ _)). rewrite Heq. qz_lra. }
    rewrite E. lia.
  - destruct (y - inject_Z f ?= 1 # 2); [destruct (Z.even f)| |]; lia.
Qed.

Lemma round_even_ge (y : Q) (N : Z) : inject_Z N <= y -> (N <= round_even y)%Z.
Proof.
  intros Hy. unfold round_even.
  pose proof (Qlt_floor y) as H2.
  rewrite inject_Z_plus in H2. change (inject_Z 1) with 1 in H2.
  assert (Hf : (N <= Qfloor y)%Z).
  { assert (H : inject_Z N < inject_Z (Qfloor y + 1)).
    { rewrite inject_Z_plus. change (inject_Z 1) with 1. qz_lra. }
    rewrite <- Zlt_Qlt in H. lia. }
  set (f := Qfloor y) in *.
  destruct (y - inject_Z f ?= 1 # 2); [destruct (Z.even f)| |]; lia.
Qed.

(** The scaled significand of a positive number and what rounding makes of
    it. *)
Lemma rn24_pos_spec (x : Q) :
  0 < x ->
  let s := (ilog2 x - 23)%Z in
  let m := round_even (x / 2 ^ s) in
  rn24_pos x = inject_Z m * 2 ^ s /\
  inject_Z (2 ^ 23) <= x / 2 ^ s /\ x / 2 ^ s < inject_Z (2 ^ 24) /\
  (2 ^ 23 <= m <= 2 ^ 24)%Z /\
  Qabs (rn24_pos x - x) <= (1 # 2) * 2 ^ s /\
  (1 # 2) * 2 ^ s <= (1 # 16777216) * x.
Proof.
  intros Hx s m. destruct (ilog2_spec x Hx) as [G1 G2].
  pose proof (pow2_pos s) as Hs.
  assert (E1 : 2 ^ ilog2 x == 2 ^ s * inject_Z (2 ^ 23)).
  { rewrite <- pow2_Z by lia. rewrite <- pow2_add. subst s.
    replace (ilog2 x - 23 + 23)%Z with (ilog2 x) by lia. reflexivity. }
  assert (E2 : 2 ^ (ilog2 x + 1) == 2 ^ s * inject_Z (2 ^ 24)).
  { rewrite <- pow2_Z by lia. rewrite <- pow2_add. subst s.
    replace (ilog2 x - 23 + 24)%Z with (ilog2 x + 1)%Z by lia. reflexivity. }
  assert (Hy1 : inject_Z (2 ^ 23) <= x / 2 ^ s).
  { apply Qle_shift_div_l; [exact Hs|]. rewrite E1 in G1. lra. }
  assert (Hy2 : x / 2 ^ s < inject_Z (2 ^ 24)).
  { apply Qlt_shift_div_r; [exact Hs|]. rewrite E2 in G2. lra. }
  split; [reflexivity|]. split; [exact Hy1|]. split; [exact Hy2|].
  split.
  { split; [apply round_even_ge; exact Hy1 | apply round_even_le; lra]. }
  assert (Hnear := round_even_near (x / 2 ^ s)). fold m in Hnear.
  apply Qabs_Qle_condition in Hnear.
  assert (Hxy : x == x / 2 ^ s * 2 ^ s) by (field; lra).
  split.
  - unfold rn24_pos. fold s m. apply Qabs_Qle_condition.
    set (y := x / 2 ^ s) in *. clearbody y. clearbody m.
    set (P := 2 ^ s) in *. clearbody P. rewrite Hxy. nra.
  - change (inject_Z (2 ^ 23)) with 8388608 in Hy1.
    set (y := x / 2 ^ s) in *. clearbody y.
    set (P := 2 ^ s) in *. clearbody P. rewrite Hxy.
    assert (H16 : (1 # 16777216) * (y * P) == (1 # 16777216) * y * P) by ring.
    rewrite H16. nra.
Qed.

Lemma rn24_of_pos (x : Q) : 0 < x -> rn24 x = rn24_pos x.
Proof.
  intros Hx. unfold rn24. destruct x as [n d]. cbn [Qnum].
  unfold Qlt in Hx. cbn in Hx. destruct n; [lia | reflexivity | lia].
Qed.

Lemma rn24_of_neg (x : Q) : x < 0 -> rn24 x = - rn24_pos (- x).
Proof.
  intros Hx. unfold rn24. destruct x as [n d]. cbn [Qnum].
  unfold Qlt in Hx. cbn in Hx. destruct n; [lia | lia | reflexivity].
Qed.

Lemma rn24_of_zero (x : Q) : x == 0 -> rn24 x = 0.
Proof.
  intros Hx. unfold rn24. destruct x as [n d]. cbn [Qnum].
  unfold Qeq in Hx. cbn in Hx. destruct n; [reflexivity | lia | lia].
Qed.

Lemma rn24_opp (x : Q) : rn24 (- x) == - rn24 x.
Proof.
  destruct (Q_dec x 0) as [[H|H]|H].
  - rewrite (rn24_of_neg x H), (rn24_of_pos (- x)) by lra. ring.
  - rewrite (rn24_of_pos x H), (rn24_of_neg (- x)) by lra.
    assert (E : - - x = x) by (destruct x; unfold Qopp; cbn; rewrite Z.opp_involutive;
                               reflexivity).
    rewrite E. reflexivity.
  - rewrite (rn24_of_zero x H), (rn24_of_zero (- x)) by (rewrite H; reflexivity).
    reflexivity.
Qed.

(** The relative error of one rounding is at most 2^-24. *)
Lemma rn24_err (x : Q) : Qabs (rn24 x - x) <= (1 # 16777216) * Qabs x.
Proof.
  destruct (Q_dec x 0) as [[H|H]|H].
  - rewrite (rn24_of_neg x H).
    destruct (rn24_pos_spec (- x) ltac:(lra)) as (_ & _ & _ & _ & E1 & E2).
    cbn zeta in E1, E2. apply Qabs_Qle_condition in E1.
    rewrite (Qabs_neg x) by lra. apply Qabs_Qle_condition. lra.
  - rewrite (rn24_of_pos x H).
    destruct (rn24_pos_spec x H) as (_ & _ & _ & _ & E1 & E2).
    cbn zeta in E1, E2. rewrite (Qabs_pos x) by lra. lra.
  - rewrite (rn24_of_zero x H). rewrite H. vm_compute. discriminate.
Qed.

Lemma rn24_pos_gt (x : Q) : 0 < x -> 0 < rn24_pos x.
Proof.
  intros Hx. destruct (rn24_pos_spec x Hx) as (E & _ & _ & [Hm _] & _).
  cbn zeta in E, Hm. rewrite E.
  pose proof (pow2_pos (ilog2 x - 23)) as Hp.
  assert (0 < inject_Z (round_even (x / 2 ^ (ilog2 x - 23)))).
  { change 0 with (inject_Z 0). rewrite <- Zlt_Qlt. lia. }
  nra.
Qed.

(** Rounding keeps the sign. *)
Lemma rn24_sign (x : Q) :
  (0 <= x -> 0 <= rn24 x) /\ (x <= 0 -> rn24 x <= 0) /\
  (0 < x -> 0 < rn24 x) /\ (x < 0 -> rn24 x < 0).
Proof.
  destruct (Q_dec x 0) as [[H|H]|H].
  - rewrite (rn24_of_neg x H). pose proof (rn24_pos_gt (- x) ltac:(lra)).
    repeat split; intros; lra.
  - rewrite (rn24_of_pos x H). pose proof (rn24_pos_gt x H).
    repeat split; intros; lra.
  - rewrite (rn24_of_zero x H). repeat split; intros; lra.
Qed.

(** Rounding does not step over 1. *)
Lemma rn24_le_1 (x : Q) : x <= 1 -> rn24 x <= 1.
Proof.
  intros Hx. destruct (Qlt_le_dec 0 x) as [Hpos|Hneg].
  2:{ destruct (rn24_sign x) as (_ & H & _). specialize (H Hneg). lra. }
  rewrite (rn24_of_pos x Hpos).
  destruct (rn24_pos_spec x Hpos) as (E & Hy1 & Hy2 & [Hm1 Hm2] & _).
  cbn zeta in *. destruct (ilog2_spec x Hpos) as [G1 G2].
  assert (He : (ilog2 x <= 0)%Z).
  { apply (Qpower_le_compat_l_inv 2); [|reflexivity]. change (2 ^ 0) with 1. lra. }
  rewrite E. set (s := (ilog2 x - 23)%Z) in *.
  pose proof (pow2_pos s) as Hs.
  destruct (Z.eq_dec (ilog2 x) 0) as [H0|Hne].
  - (* x = 1 *)
    assert (Hx1 : x == 1) by (rewrite H0 in G1; change (2 ^ 0) with 1 in G1; lra).
    assert (Hs23 : s = (-23)%Z) by (subst s; lia).
    rewrite (round_even_int (x / 2 ^ s) (2 ^ 23)).
    + rewrite Hs23. vm_compute. discriminate.
    + rewrite Hx1, Hs23. reflexivity.
  - assert (Hle : 2 ^ s * inject_Z (2 ^ 24) <= 1).
    { rewrite <- pow2_Z by lia. rewrite <- pow2_add.
      change 1 with (2 ^ 0). apply pow2_le. subst s. lia. }
    assert (Hm : inject_Z (round_even (x / 2 ^ s)) <= inject_Z (2 ^ 24))
      by (rewrite <- Zle_Qle; exact Hm2).
    set (M := inject_Z (round_even (x / 2 ^ s))) in *. clearbody M.
    set (P := 2 ^ s) in *. clearbody P. nra.
Qed.

(** Below the last float under 1 the rounded value stays under 1. *)
Lemma rn24_lt_1 (x : Q) : x <= 1 - (1 # 16777216) -> rn24 x < 1.
Proof.
  intros Hx. destruct (Qlt_le_dec 0 x) as [Hpos|Hneg].
  2:{ destruct (rn24_sign x) as (_ & H & _). specialize (H Hneg). lra. }
  rewrite (rn24_of_pos x Hpos).
  destruct (rn24_pos_spec x Hpos) as (E & Hy1 & Hy2 & [Hm1 Hm2] & _).
  cbn zeta in *. destruct (ilog2_spec x Hpos) as [G1 G2].
  assert (He : (ilog2 x < 0)%Z).
  { apply (Qpower_lt_compat_l_inv 2); [|reflexivity]. change (2 ^ 0) with 1. lra. }
  rewrite E. set (s := (ilog2 x - 23)%Z) in *.
  pose proof (pow2_pos s) as Hs.
  destruct (Z.eq_dec (ilog2 x) (-1)) as [H1|Hne].
  - assert (Hs24 : s = (-24)%Z) by (subst s; lia).
    assert (Hy : x / 2 ^ s <= inject_Z (2 ^ 24 - 1)).
    { rewrite Hs24. change (2 ^ (-24)) with (1 # 16777216).
      change (inject_Z (2 ^ 24 - 1)) with 16777215.
      apply Qle_shift_div_r; [reflexivity|]. lra. }
    pose proof (round_even_le _ _ Hy) as Hm.
    assert (HM : inject_Z (round_even (x / 2 ^ s)) <= 16777215).
    { change 16777215 with (inject_Z 16777215). rewrite <- Zle_Qle. lia. }
    rewrite Hs24 in *. change (2 ^ (-24)) with (1 # 16777216) in *.
    set (M := inject_Z (round_even (x / (1 # 16777216)))) in *. clearbody M. lra.
  - assert (Hle : 2 ^ s * inject_Z (2 ^ 24) <= 1 # 2).
    { rewrite <- pow2_Z by lia. rewrite <- pow2_add.
      change (1 # 2) with (2 ^ (-1)). apply pow2_le. subst s. lia. }
    assert (Hm : inject_Z (round_even (x / 2 ^ s)) <= inject_Z (2 ^ 24))
      by (rewrite <- Zle_Qle; exact Hm2).
    set (M := inject_Z (round_even (x / 2 ^ s))) in *. clearbody M.
    set (P := 2 ^ s) in *. clearbody P. nra.
Qed.

#[global] Instance rn24_comp : Proper (Qeq ==> Qeq) rn24.
Proof.
  intros x y Hxy. destruct (Q_dec x 0) as [[H|H]|H].
  - rewrite (rn24_of_neg x H), (rn24_of_neg y) by (rewrite <- Hxy; exact H).
    unfold rn24_pos. rewrite (ilog2_eq (- x) (- y)) by (try lra; rewrite Hxy; reflexivity).
    rewrite Hxy. reflexivity.
  - rewrite (rn24_of_pos x H), (rn24_of_pos y) by (rewrite <- Hxy; exact H).
    unfold rn24_pos. rewrite (ilog2_eq x y H Hxy). rewrite Hxy. reflexivity.
  - rewrite (rn24_of_zero x H), (rn24_of_zero y) by (rewrite <- Hxy; exact H).
    reflexivity.
Qed.

(** A significand of at most 24 bits times a power of two is a float. *)
Lemma rn24_repr (m t : Z) :
  (Z.abs m <= 2 ^ 24)%Z -> rn24 (inject_Z m * 2 ^ t) == inject_Z m * 2 ^ t.
Proof.
  assert (Hpos : forall m0 : Z, (0 < m0 <= 2 ^ 24)%Z ->
            rn24 (inject_Z m0 * 2 ^ t) == inject_Z m0 * 2 ^ t).
  { intros m0 Hm0. pose proof (pow2_pos t) as Ht.
    assert (Hm0q : 0 < inject_Z m0 <= inject_Z (2 ^ 24)).
    { split; [change 0 with (inject_Z 0); rewrite <- Zlt_Qlt; lia
             | rewrite <- Zle_Qle; lia]. }
    set (x := inject_Z m0 * 2 ^ t).
    assert (Hx : 0 < x) by (subst x; nra).
    rewrite (rn24_of_pos x Hx).
    destruct (rn24_pos_spec x Hx) as (E & Hy1 & Hy2 & _). cbn zeta in *.
    destruct (ilog2_spec x Hx) as [G1 G2].
    set (s := (ilog2 x - 23)%Z) in *.
    (* 2^e <= x <= 2^(24+t), so s <= t + 1, and s = t + 1 only at m0 = 2^24 *)
    assert (Hxle : x <= 2 ^ (24 + t)).
    { rewrite pow2_add. rewrite (pow2_Z 24) by lia. subst x. nra. }
    assert (He : (ilog2 x <= 24 + t)%Z).
    { apply (Qpower_le_compat_l_inv 2); [lra | reflexivity]. }
    rewrite E.
    destruct (Z.eq_dec (ilog2 x) (24 + t)) as [Heq|Hne].
    - (* x = 2^(24+t) *)
      assert (Hxeq : x == 2 ^ (24 + t)) by (rewrite Heq in G1; lra).
      assert (Hs : s = (t + 1)%Z) by (subst s; lia).
      rewrite (round_even_int (x / 2 ^ s) (2 ^ 23)).
      + rewrite Hxeq, Hs. rewrite <- (pow2_Z 23) by lia. rewrite <- pow2_add.
        replace (23 + (t + 1))%Z with (24 + t)%Z by lia. reflexivity.
      + rewrite Hxeq, Hs. rewrite <- (pow2_Z 23) by lia.
        replace (24 + t)%Z with (23 + (t + 1))%Z by lia. rewrite pow2_add.
        field. pose proof (pow2_pos (t + 1)). lra.
    - assert (Hst : (0 <= t - s)%Z) by (subst s; lia).
      rewrite (round_even_int (x / 2 ^ s) (m0 * 2 ^ (t - s))).
      + rewrite inject_Z_mult. rewrite <- (pow2_Z (t - s)) by lia.
        subst x. rewrite <- Qmult_assoc, <- pow2_add.
        replace (t - s + s)%Z with t by lia. reflexivity.
      + rewrite inject_Z_mult. rewrite <- (pow2_Z (t - s)) by lia.
        subst x. replace t with (t - s + s)%Z at 1 by lia. rewrite pow2_add.
        field. pose proof (pow2_pos s). lra. }
  intros Hm. destruct (Z.lt_trichotomy m 0) as [Hneg | [-> | Hp]].
  - assert (E : inject_Z m * 2 ^ t == - (inject_Z (- m) * 2 ^ t)).
    { rewrite inject_Z_opp. ring. }
    rewrite E, rn24_opp, (Hpos (- m)%Z) by lia. reflexivity.
  - rewrite rn24_of_zero by ring. ring.
  - apply Hpos. lia.
Qed.

Lemma rn24_idem (x : Q) : rn24 (rn24 x) == rn24 x.
Proof.
  destruct (Q_dec x 0) as [[H|H]|H].
  - rewrite (rn24_of_neg x H).
    destruct (rn24_pos_spec (- x) ltac:(lra)) as (E & _ & _ & [Hm1 Hm2] & _).
    cbn zeta in *. rewrite E. rewrite rn24_opp. rewrite rn24_repr by lia. reflexivity.
  - rewrite (rn24_of_pos x H).
    destruct (rn24_pos_spec x H) as (E & _ & _ & [Hm1 Hm2] & _).
    cbn zeta in *. rewrite E. apply rn24_repr. lia.
  - rewrite (rn24_of_zero x H). reflexivity.
Qed.

(** Integers up to 2^24 and half-integers up to 2^23 are floats. *)
Lemma rn24_int (z : Z) : (Z.abs z <= 2 ^ 24)%Z -> rn24 (inject_Z z) == inject_Z z.
Proof.
  intros Hz. pose proof (rn24_repr z 0 Hz) as H. change (2 ^ 0) with 1 in H.
  assert (E : inject_Z z * 1 == inject_Z z) by ring.
  rewrite E in H. exact H.
Qed.

Lemma rn24_half_int (z : Z) :
  (Z.abs (2 * z + 1) <= 2 ^ 24)%Z -> rn24 (inject_Z z + (1 # 2)) == inject_Z z + (1 # 2).
Proof.
  intros Hz. pose proof (rn24_repr (2 * z + 1) (-1) Hz) as H.
  change (2 ^ (-1)) with (1 # 2) in H.
  assert (E : inject_Z (2 * z + 1) * (1 # 2) == inject_Z z + (1 # 2)).
  { rewrite inject_Z_plus, inject_Z_mult. change (inject_Z 2) with 2.
    change (inject_Z 1) with 1. ring. }
  rewrite E in H. exact H.
Qed.

Lemma round_even_mono (x y : Q) : x <= y -> (round_even x <= round_even y)%Z.
Proof.
  intros Hxy.
  destruct (Z.eq_dec (Qfloor x) (Qfloor y)) as [Heq|Hne].
  - unfold round_even. rewrite Heq. set (f := Qfloor y).
    destruct (x - inject_Z f ?= 1 # 2) eqn:Ex; destruct (y - inject_Z f ?= 1 # 2) eqn:Ey;
      try (destruct (Z.even f)); try lia.
    all: try apply (proj2 (Qeq_alt _ _)) in Ex; try apply (proj2 (Qlt_alt _ _)) in Ex;
      try apply (proj2 (Qgt_alt _ _)) in Ex;
      try apply (proj2 (Qeq_alt _ _)) in Ey; try apply (proj2 (Qlt_alt _ _)) in Ey;
      try apply (proj2 (Qgt_alt _ _)) in Ey; exfalso; lra.
  - assert (Hf : (Qfloor x <= Qfloor y)%Z) by (apply Qfloor_resp_le; exact Hxy).
    assert (H1 : (round_even x <= Qfloor x + 1)%Z).
    { apply round_even_le. pose proof (Qlt_floor x) as H. lra. }
    assert (H2 : (Qfloor y <= round_even y)%Z).
    { apply round_even_ge. apply Qfloor_le. }
    lia.
Qed.

Lemma ilog2_mono (x y : Q) : 0 < x -> x <= y -> (ilog2 x <= ilog2 y)%Z.
Proof.
  intros Hx Hxy. destruct (ilog2_spec x Hx) as [G1 _].
  destruct (ilog2_spec y ltac:(lra)) as [_ G2].
  assert (H : (ilog2 x < ilog2 y + 1)%Z).
  { apply (Qpower_lt_compat_l_inv 2); [lra | reflexivity]. }
  lia.
Qed.

Lemma rn24_pos_bounds (x : Q) :
  0 < x -> 2 ^ ilog2 x <= rn24_pos x <= 2 ^ (ilog2 x + 1).
Proof.
  intros Hx. destruct (rn24_pos_spec x Hx) as (E & _ & _ & [Hm1 Hm2] & _).
  cbn zeta in *. rewrite E. set (s := (ilog2 x - 23)%Z) in *.
  pose proof (pow2_pos s) as Hs.
  assert (E1 : 2 ^ ilog2 x == inject_Z (2 ^ 23) * 2 ^ s).
  { rewrite <- pow2_Z by lia. rewrite <- pow2_add. subst s.
    replace (23 + (ilog2 x - 23))%Z with (ilog2 x) by lia. reflexivity. }
  assert (E2 : 2 ^ (ilog2 x + 1) == inject_Z (2 ^ 24) * 2 ^ s).
  { rewrite <- pow2_Z by lia. rewrite <- pow2_add. subst s.
    replace (24 + (ilog2 x - 23))%Z with (ilog2 x + 1)%Z by lia. reflexivity. }
  rewrite E1, E2.
  assert (Hq1 : inject_Z (2 ^ 23) <= inject_Z (round_even (x / 2 ^ s)))
    by (rewrite <- Zle_Qle; exact Hm1).
  assert (Hq2 : inject_Z (round_even (x / 2 ^ s)) <= inject_Z (2 ^ 24))
    by (rewrite <- Zle_Qle; exact Hm2).
  set (M := inject_Z (round_even (x / 2 ^ s))) in *. clearbody M.
  set (P := 2 ^ s) in *. clearbody P.
  set (A := inject_Z (2 ^ 23)) in *. set (B := inject_Z (2 ^ 24)) in *.
  clearbody A B. split; nra.
Qed.

Lemma rn24_pos_mono (x y : Q) : 0 < x -> x <= y -> rn24_pos x <= rn24_pos y.
Proof.
  intros Hx Hxy. assert (Hy : 0 < y) by lra.
  pose proof (ilog2_mono x y Hx Hxy) as He.
  destruct (Z.eq_dec (ilog2 x) (ilog2 y)) as [Heq|Hne].
  - unfold rn24_pos. rewrite Heq. set (s := (ilog2 y - 23)%Z).
    pose proof (pow2_pos s) as Hs.
    assert (Hdiv : x / 2 ^ s <= y / 2 ^ s).
    { apply Qle_shift_div_l; [exact Hs|].
      assert (E : x / 2 ^ s * 2 ^ s == x) by (field; lra). rewrite E. exact Hxy. }
    pose proof (round_even_mono _ _ Hdiv) as Hm. rewrite Zle_Qle in Hm.
    set (M1 := inject_Z (round_even (x / 2 ^ s))) in *.
    set (M2 := inject_Z (round_even (y / 2 ^ s))) in *.
    clearbody M1 M2. set (P := 2 ^ s) in *. clearbody P. nra.
  - destruct (rn24_pos_bounds x Hx) as [_ Hup].
    destruct (rn24_pos_bounds y Hy) as [Hlo _].
    pose proof (pow2_le (ilog2 x + 1) (ilog2 y) ltac:(lia)). lra.
Qed.

(** Rounding keeps the order. *)
Lemma rn24_mono (x y : Q) : x <= y -> rn24 x <= rn24 y.
Proof.
  intros Hxy.
  destruct (Qlt_le_dec 0 x) as [Hx|Hx].
  - rewrite (rn24_of_pos x Hx), (rn24_of_pos y) by lra.
    apply rn24_pos_mono; assumption.
  - destruct (Qlt_le_dec 0 y) as [Hy|Hy].
    + destruct (rn24_sign x) as (_ & H1 & _). destruct (rn24_sign y) as (H2 & _).
      specialize (H1 Hx). specialize (H2 ltac:(lra)). lra.
    + destruct (Q_dec y 0) as [[Hy0|Hy0]|Hy0].
      * rewrite (rn24_of_neg x) by lra. rewrite (rn24_of_neg y Hy0).
        pose proof (rn24_pos_mono (- y) (- x) ltac:(lra) ltac:(lra)). lra.
      * lra.
      * destruct (rn24_sign x) as (_ & H1 & _). specialize (H1 Hx).
        rewrite (rn24_of_zero y Hy0). exact H1.
Qed.
(** ** The float below a float *)

Local Open Scope Q_scope.




(** ** The envelope in float arithmetic *)

Local Open Scope Q_scope.

















(** The rounding is that of binary32: decimal literals, a tie to the even
    significand on both sides, and the whole course of the pluck envelope
    from a note-on (3664 steps to Idle), value by value the same as on
    IEEE binary32. *)
Lemma rn24_rounds_as_binary32 :
  (Qred (rn24 (1 # 3)) = 11184811 # 33554432 /\
   Qred (rn24 (8 # 10000)) = 13743895 # 17179869184 /\
   rn24 16777217 == 16777216 /\ rn24 16777219 == 16777220) /\
  (B32.to_Q (B32.lit 3 1000) == rn24 (3 # 1000) /\
   B32.to_Q (B32.lit 80 1000) == rn24 (80 # 1000) /\
   B32.to_Q (B32.lit 60 1000) == rn24 (60 # 1000) /\
   B32.to_Q (B32.lit 8 10000) == ENV_EPS) /\
  adsr_agree_run 3700 B32.adsr_note_on adsr_note_on_f (B32.of_Z SR) (inject_Z SR) = true /\
  st (adsr_run_f 3663 adsr_note_on_f (inject_Z SR)) = ENV_RELEASE /\
  st (adsr_run_f 3664 adsr_note_on_f (inject_Z SR)) = ENV_IDLE.
Proof. vm_compute. repeat split; reflexivity. Qed.



(** Inside the domain, next to its edge: with a release time of 380 s,
    16758000 samples, the envelope at 0.5004f goes down by one float per
    step, on binary32 and on the rounded rationals alike. *)
Example adsr_release_380_steps :
  adsr_in_domain adsr_release_380_f (inject_Z SR) /\
  B32.env32 B32.adsr_release_380 = SpecFloat.S754_finite false 8395319 (-24) /\
  B32.env32 (B32.adsr_step_b32 B32.adsr_release_380 (B32.of_Z SR))
  = SpecFloat.S754_finite false 8395318 (-24) /\
  adsr_agree_run 2000 B32.adsr_release_380 adsr_release_380_f (B32.of_Z SR) (inject_Z SR)
  = true /\
  env (adsr_run_f 2000 adsr_release_380_f (inject_Z SR)) == 8393319 # 16777216.
Proof.
  split; [unfold adsr_in_domain; vm_compute; repeat split; discriminate|].
  vm_compute. repeat split; reflexivity.
Qed.

(** ** The scene crossfade in float arithmetic *)

Local Open Scope Q_scope.

Lemma rn24_0 (x : Q) : x == 0 -> rn24 x == 0.
Proof. intros H. rewrite (rn24_of_zero x H). reflexivity. Qed.

Lemma rn24_float (x y : Q) : x == y -> is_float y -> rn24 x == y.
Proof. intros H Hy. rewrite H. exact Hy. Qed.

Lemma is_float_int (z : Z) : (Z.abs z <= 2 ^ 24)%Z -> is_float (inject_Z z).
Proof. intros H. apply rn24_int. exact H. Qed.

Lemma is_float_rn24 (x : Q) : is_float (rn24 x).
Proof. apply rn24_idem. Qed.

(** [lerp] at the two ends. *)
Lemma lerp_f_0 (a b e : Q) : e == 0 -> is_float a -> lerp_f a b e == a.
Proof.
  intros He Ha. unfold lerp_f, fadd, fmul, fsub.
  assert (H1 : rn24 (rn24 (b - a) * e) == 0) by (apply rn24_0; rewrite He; ring).
  apply rn24_float; [rewrite H1; ring | exact Ha].
Qed.

Lemma lerp_f_1 (a b e : Q) : e == 1 -> lerp_f a b e == rn24 (a + rn24 (b - a)).
Proof.
  intros He. unfold lerp_f, fadd, fmul, fsub.
  assert (H1 : rn24 (rn24 (b - a) * e) == rn24 (b - a)).
  { assert (E : rn24 (b - a) * e == rn24 (b - a)) by (rewrite He; ring).
    rewrite E. apply rn24_idem. }
  rewrite H1. reflexivity.
Qed.

Lemma lerp_f_1_int (A B : Z) (e : Q) :
  (Z.abs A <= 2 ^ 23)%Z -> (Z.abs B <= 2 ^ 23)%Z -> e == 1 ->
  lerp_f (of_int A) (of_int B) e == inject_Z B.
Proof.
  intros HA HB He. rewrite (lerp_f_1 _ _ e He). unfold of_int.
  rewrite (rn24_int A), (rn24_int B) by lia.
  assert (E1 : inject_Z B - inject_Z A == inject_Z (B - A)).
  { unfold Z.sub. rewrite inject_Z_plus, inject_Z_opp. ring. }
  rewrite E1, (rn24_int (B - A)) by lia.
  assert (E2 : inject_Z A + inject_Z (B - A) == inject_Z B).
  { unfold Z.sub. rewrite inject_Z_plus, inject_Z_opp. ring. }
  rewrite E2. apply rn24_int. lia.
Qed.

Lemma lerp_f_0_int (A B : Z) (e : Q) :
  (Z.abs A <= 2 ^ 23)%Z -> e == 0 -> lerp_f (of_int A) (of_int B) e == inject_Z A.
Proof.
  intros HA He. rewrite (lerp_f_0 _ _ e He) by apply is_float_rn24.
  apply rn24_int. lia.
Qed.

(** At [e = 1] the rounded [a + (b - a)] is [b] up to three roundings. *)
Lemma lerp_f_1_near (a b e : Q) :
  e == 1 -> Qabs (lerp_f a b e - b) <= (3 # 16777216) * (Qabs a + Qabs b).
Proof.
  intros He. rewrite (lerp_f_1 a b e He).
  pose proof (rn24_err (b - a)) as E1.
  pose proof (rn24_err (a + rn24 (b - a))) as E2.
  set (d := rn24 (b - a)) in *. clearbody d.
  set (r := rn24 (a + d)) in *. clearbody r.
  pose proof (Qabs_triangle b (- a)) as T1. rewrite Qabs_opp in T1.
  assert (Eb : b + - a == b - a) by ring. rewrite Eb in T1.
  pose proof (Qabs_nonneg a) as Na. pose proof (Qabs_nonneg b) as Nb.
  assert (Hd : Qabs (d - (b - a)) <= (1 # 16777216) * (Qabs a + Qabs b)) by lra.
  assert (Had : Qabs (a + d) <= Qabs b + (1 # 16777216) * (Qabs a + Qabs b)).
  { assert (E : a + d == b + (d - (b - a))) by ring. rewrite E.
    pose proof (Qabs_triangle b (d - (b - a))). lra. }
  assert (Hsum : r - b == (r - (a + d)) + (d - (b - a))) by ring.
  rewrite Hsum. pose proof (Qabs_triangle (r - (a + d)) (d - (b - a))) as T2.
  set (X := Qabs (r - (a + d))) in *. set (Y := Qabs (d - (b - a))) in *.
  set (W := Qabs (a + d)) in *. set (P := Qabs a) in *. set (R := Qabs b) in *.
  clearbody X Y W P R. lra.
Qed.

Lemma Qltb_false (x y : Q) : y <= x -> Qltb x y = false.
Proof. intros H. destruct (Qltb_spec x y); [lra | reflexivity]. Qed.

(** The smoothstep at the two ends. *)
Lemma smooth_f_0 (t : Q) : t == 0 -> smooth_f t == 0.
Proof.
  intros Ht. unfold smooth_f. rewrite (Qltb_false t 0), (Qltb_false 1 t) by lra.
  unfold fmul, fsub.
  assert (H1 : rn24 (t * t) == 0) by (apply rn24_0; rewrite Ht; ring).
  apply rn24_0. rewrite H1. ring.
Qed.

Lemma smooth_f_1 (t : Q) : t == 1 -> smooth_f t == 1.
Proof.
  intros Ht. unfold smooth_f. rewrite (Qltb_false t 0), (Qltb_false 1 t) by lra.
  unfold fmul, fsub.
  assert (H1 : rn24 (t * t) == 1).
  { apply rn24_float; [rewrite Ht; ring | apply (is_float_int 1); lia]. }
  assert (H2 : rn24 (2 * t) == 2).
  { apply rn24_float; [rewrite Ht; ring | apply (is_float_int 2); lia]. }
  assert (H3 : rn24 (3 - rn24 (2 * t)) == 1).
  { apply rn24_float; [rewrite H2; ring | apply (is_float_int 1); lia]. }
  apply rn24_float; [rewrite H1, H3; ring | apply (is_float_int 1); lia].
Qed.

(** The elapsed fraction on floats: between 0 and 1, 0 at the start, 1 from
    the end on, and below 1 before the end when the fade is shorter than
    2^24 samples (every sample count is then a float). *)
Lemma scene_fraction_f_spec (sc : SceneXfade) (nowSmp : Z) :
  (0 <= sc_tStartSmp sc)%Z -> (sc_tStartSmp sc < sc_tEndSmp sc)%Z ->
  (sc_tEndSmp sc < 2 ^ 64)%Z -> (sc_tStartSmp sc <= nowSmp < 2 ^ 64)%Z ->
  scene_fraction_f sc nowSmp
  = rn24 (rn24 (inject_Z (Z.min nowSmp (sc_tEndSmp sc) - sc_tStartSmp sc))
          / rn24 (inject_Z (sc_tEndSmp sc - sc_tStartSmp sc))) /\
  0 <= scene_fraction_f sc nowSmp <= 1 /\
  (nowSmp = sc_tStartSmp sc -> scene_fraction_f sc nowSmp == 0) /\
  ((sc_tEndSmp sc <= nowSmp)%Z -> scene_fraction_f sc nowSmp == 1) /\
  ((sc_tEndSmp sc - sc_tStartSmp sc < 2 ^ 24)%Z -> (nowSmp < sc_tEndSmp sc)%Z ->
   scene_fraction_f sc nowSmp < 1).
Proof.
  intros H0 Hlt Hend Hnow. unfold scene_fraction_f, fdiv, of_int.
  replace (sc_tStartSmp sc <? sc_tEndSmp sc)%Z with true
    by (symmetry; apply Z.ltb_lt; lia).
  set (den := (sc_tEndSmp sc - sc_tStartSmp sc)%Z).
  assert (Hden : u64 den = den) by (unfold u64; apply Z.mod_small; lia).
  rewrite Hden.
  assert (Hnum : (if (sc_tEndSmp sc <? nowSmp)%Z then den
                  else u64 (nowSmp - sc_tStartSmp sc))
                 = (Z.min nowSmp (sc_tEndSmp sc) - sc_tStartSmp sc)%Z).
  { destruct (Z.ltb_spec (sc_tEndSmp sc) nowSmp).
    - lia.
    - unfold u64. rewrite Z.mod_small by lia. lia. }
  rewrite Hnum.
  set (num := (Z.min nowSmp (sc_tEndSmp sc) - sc_tStartSmp sc)%Z).
  assert (Hd : 0 < inject_Z den).
  { change 0 with (inject_Z 0). rewrite <- Zlt_Qlt. lia. }
  assert (Hn : 0 <= inject_Z num <= inject_Z den).
  { change 0 with (inject_Z 0). rewrite <- !Zle_Qle. lia. }
  destruct (rn24_sign (inject_Z den)) as (_ & _ & Hdp & _). specialize (Hdp Hd).
  destruct (rn24_sign (inject_Z num)) as (Hnp & _). specialize (Hnp ltac:(lra)).
  pose proof (rn24_mono _ _ (proj2 Hn)) as Hmono.
  split; [reflexivity|].
  split.
  { split.
    - destruct (rn24_sign (rn24 (inject_Z num) / rn24 (inject_Z den))) as (H & _).
      apply H. apply Qle_shift_div_l; [exact Hdp | lra].
    - apply rn24_le_1. apply Qle_shift_div_r; [exact Hdp | lra]. }
  split.
  { intros ->. assert (num = 0%Z) as -> by lia. reflexivity. }
  split.
  { intros Hle. assert (num = den) as -> by lia.
    apply rn24_float; [field; lra | apply (is_float_int 1); lia]. }
  intros Hshort Hbefore.
  assert (Hnd : (0 <= num <= den - 1)%Z) by lia.
  rewrite (rn24_int num), (rn24_int den) by lia.
  apply rn24_lt_1.
  assert (Hq1 : inject_Z num <= inject_Z den - 1).
  { assert (E : inject_Z den - 1 == inject_Z (den - 1)).
    { unfold Z.sub. rewrite inject_Z_plus. reflexivity. }
    rewrite E. rewrite <- Zle_Qle. lia. }
  assert (Hq2 : inject_Z den <= 16777216).
  { change 16777216 with (inject_Z (2 ^ 24)). rewrite <- Zle_Qle. lia. }
  apply Qle_shift_div_r; [exact Hd|].
  set (N := inject_Z num) in *. set (D := inject_Z den) in *. clearbody N D. nra.
Qed.

Lemma Qtrunc_half_int (q : Q) (n : Z) :
  (0 <= n)%Z -> q == inject_Z n + (1 # 2) -> Qtrunc q = n.
Proof.
  intros Hn Hq.
  assert (Hn' : 0 <= inject_Z n) by (change 0 with (inject_Z 0); rewrite <- Zle_Qle; lia).
  rewrite Qtrunc_floor by (rewrite Hq; lra).
  rewrite (Qfloor_comp q (inject_Z n + (1 # 2)) Hq).
  assert (Hlo : (n <= Qfloor (inject_Z n + (1 # 2)))%Z).
  { rewrite <- (Qfloor_Z n) at 1. apply Qfloor_resp_le. lra. }
  assert (Hhi : (Qfloor (inject_Z n + (1 # 2)) < n + 1)%Z).
  { rewrite Zlt_Qlt. pose proof (Qfloor_le (inject_Z n + (1 # 2))) as H.
    rewrite inject_Z_plus. change (inject_Z 1) with 1.
    set (F := inject_Z (Qfloor (inject_Z n + (1 # 2)))) in *. clearbody F.
    set (N := inject_Z n) in *. clearbody N. lra. }
  lia.
Qed.

(** The rounded integer interpolation at the two ends. *)
Lemma int_lerp_f_0 (A B : Z) (e : Q) :
  (0 <= A <= 2 ^ 22)%Z -> e == 0 ->
  Qtrunc (fadd (lerp_f (of_int A) (of_int B) e) (1 # 2)) = A.
Proof.
  intros HA He. apply Qtrunc_half_int; [lia|]. unfold fadd.
  rewrite (lerp_f_0_int A B e) by (try lia; exact He).
  apply rn24_half_int. lia.
Qed.

Lemma int_lerp_f_1 (A B : Z) (e : Q) :
  (0 <= A <= 2 ^ 22)%Z -> (0 <= B <= 2 ^ 22)%Z -> e == 1 ->
  Qtrunc (fadd (lerp_f (of_int A) (of_int B) e) (1 # 2)) = B.
Proof.
  intros HA HB He. apply Qtrunc_half_int; [lia|]. unfold fadd.
  rewrite (lerp_f_1_int A B e) by (try lia; exact He).
  apply rn24_half_int. lia.
Qed.

Section SceneFloatFacts.
Variables sqrtf expf logf : Q -> Q.

Lemma scene_crossfade_f_fields (nowSmp : Z) (w : SceneWorld) :
  let sc := sw_gScene w in
  let e := smooth_f (scene_fraction_f sc nowSmp) in
  let w' := scene_crossfade_f sqrtf expf logf nowSmp w in
  pad_triMix (sw_pad w') = lerp_f (tg_triMix (sc_start sc)) (tg_triMix (sc_target sc)) e /\
  osc_triMix (pad_v1 (sw_pad w')) = pad_triMix (sw_pad w') /\
  osc_triMix (pad_v2 (sw_pad w')) = pad_triMix (sw_pad w') /\
  osc_triMix (pad_v3 (sw_pad w')) = pad_triMix (sw_pad w') /\
  pad_lpfCutHz (sw_pad w')
  = expf (lerp_f (logf (tg_lpfCutHz (sc_start sc))) (logf (tg_lpfCutHz (sc_target sc))) e) /\
  spacePercent (sw_params w')
  = clamp_int (Qtrunc (fadd (lerp_f (of_int (tg_spacePercent (sc_start sc)))
                                    (of_int (tg_spacePercent (sc_target sc))) e)
                            (1 # 2)))
              0 100 /\
  tempoBPM (sw_params w')
  = clamp_int (Qtrunc (fadd (lerp_f (of_int (tg_tempoBPM (sc_start sc)))
                                    (of_int (tg_tempoBPM (sc_target sc))) e)
                            (1 # 2)))
              30 240 /\
  sc_active (sw_gScene w')
  = (if Qleb 1 (scene_fraction_f sc nowSmp) then false else sc_active sc).
Proof.
  cbn zeta. unfold scene_crossfade_f. cbn zeta.
  remember (smooth_f (scene_fraction_f (sw_gScene w) nowSmp)) as e eqn:He.
  remember (clamp_int (Qtrunc (fadd (lerp_f (of_int (tg_spacePercent (sc_start (sw_gScene w))))
              (of_int (tg_spacePercent (sc_target (sw_gScene w)))) e) (1 # 2))) 0 100)
    as spc eqn:Hspc.
  remember (clamp_int (Qtrunc (fadd (lerp_f (of_int (tg_tempoBPM (sc_start (sw_gScene w))))
              (of_int (tg_tempoBPM (sc_target (sw_gScene w)))) e) (1 # 2))) 30 240)
    as b eqn:Hb.
  clear He Hspc Hb.
  destruct (Z.eqb_spec spc (spacePercent (sw_params w))) as [Es | Es]; cbn [negb];
    destruct (Qleb (rn24 (2 # 10)) e);
    match goal with
    | |- context [negb (b =? tempoBPM ?p)%Z] =>
        destruct (Z.eqb_spec b (tempoBPM p)) as [Eb | Eb]
    end; cbn [negb];
    try destruct (delay_set_space sqrtf (sw_gDelay w) (sw_gReverb w) spc) as [dl rv];
    repeat split;
    cbn [sw_pad sw_params sw_gScene pad_triMix pad_lpfCutHz pad_v1 pad_v2 pad_v3
         osc_triMix spacePercent tempoBPM sc_active pad_set_triMix pad_set_cutoff
         expLerp_f params_set_space params_set_tempo fst snd] in *;
    congruence.
Qed.
End SceneFloatFacts.

(** C6. Scene crossfade in float arithmetic, every operation rounded to
    binary32.  For an active fade [scene_crossfade_f] at sample [nowSmp]
    writes each interpolated parameter as a function of the elapsed
    fraction [t = (float)num / (float)den] through the smoothstep
    [e = t * t * (3 - 2 t)]: triMix is the rounded [a + (b - a) * e], the
    cutoff is [expf] of the rounded [la + (lb - la) * e] on the logarithms,
    space and tempo are the rounded interpolation of the two integers plus
    one half, truncated and clamped.  At [t = 0] triMix is the start value
    and space and tempo are the start integers; the cutoff is [expf] of the
    logarithm of the start cutoff.  At [t = 1] space and tempo are the
    target integers; triMix is the rounded [a + (b - a)], within three
    roundings of the target, and the cutoff is [expf] of a value within
    three roundings of the logarithm of the target cutoff.  The fade is
    switched off exactly when [t >= 1]; for a fade shorter than 2^24
    samples that is exactly from [tEndSmp] on. *)
Theorem scene_crossfade_float_ends (sqrtf expf logf : Q -> Q)
    (nowSmp : Z) (w : SceneWorld) :
  (forall x : Q, is_float (logf x)) ->
  sc_active (sw_gScene w) = true ->
  fade_in_domain (sw_gScene w) ->
  (sc_tStartSmp (sw_gScene w) <= nowSmp < 2 ^ 64)%Z ->
  let sc := sw_gScene w in
  let a := tg_triMix (sc_start sc) in
  let b := tg_triMix (sc_target sc) in
  let la := logf (tg_lpfCutHz (sc_start sc)) in
  let lb := logf (tg_lpfCutHz (sc_target sc)) in
  let sa := inject_Z (tg_spacePercent (sc_start sc)) in
  let sb := inject_Z (tg_spacePercent (sc_target sc)) in
  let ba := inject_Z (tg_tempoBPM (sc_start sc)) in
  let bb := inject_Z (tg_tempoBPM (sc_target sc)) in
  let t := rn24 (rn24 (inject_Z (Z.min nowSmp (sc_tEndSmp sc) - sc_tStartSmp sc))
                 / rn24 (inject_Z (sc_tEndSmp sc - sc_tStartSmp sc))) in
  let e := rn24 (rn24 (t * t) * rn24 (3 - rn24 (2 * t))) in
  let y := rn24 (la + rn24 (rn24 (lb - la) * e)) in
  let w' := scene_crossfade_f sqrtf expf logf nowSmp w in
  (* the elapsed fraction *)
  0 <= t <= 1 /\
  (* each parameter, through the smoothstep *)
  (pad_triMix (sw_pad w') = rn24 (a + rn24 (rn24 (b - a) * e)) /\
   pad_lpfCutHz (sw_pad w') = expf y /\
   spacePercent (sw_params w')
   = clamp_int (Qtrunc (rn24 (rn24 (rn24 sa + rn24 (rn24 (rn24 sb - rn24 sa) * e))
                              + (1 # 2))))
               0 100 /\
   tempoBPM (sw_params w')
   = clamp_int (Qtrunc (rn24 (rn24 (rn24 ba + rn24 (rn24 (rn24 bb - rn24 ba) * e))
                              + (1 # 2))))
               30 240) /\
  (* t = 0 *)
  (nowSmp = sc_tStartSmp sc ->
   t == 0 /\ e == 0 /\
   pad_triMix (sw_pad w') == a /\
   y == la /\
   spacePercent (sw_params w') = tg_spacePercent (sc_start sc) /\
   tempoBPM (sw_params w') = tg_tempoBPM (sc_start sc) /\
   sc_active (sw_gScene w') = true) /\
  (* t = 1 *)
  ((sc_tEndSmp sc <= nowSmp)%Z ->
   t == 1 /\ e == 1 /\
   spacePercent (sw_params w') = tg_spacePercent (sc_target sc) /\
   tempoBPM (sw_params w') = tg_tempoBPM (sc_target sc) /\
   pad_triMix (sw_pad w') == rn24 (a + rn24 (b - a)) /\
   Qabs (pad_triMix (sw_pad w') - b) <= (3 # 16777216) * (Qabs a + Qabs b) /\
   y == rn24 (la + rn24 (lb - la)) /\
   Qabs (y - lb) <= (3 # 16777216) * (Qabs la + Qabs lb) /\
   sc_active (sw_gScene w') = false) /\
  (* the end of the fade *)
  (sc_active (sw_gScene w') = false <-> 1 <= t) /\
  ((sc_tEndSmp sc - sc_tStartSmp sc < 2 ^ 24)%Z ->
   (sc_active (sw_gScene w') = false <-> (sc_tEndSmp sc <= nowSmp)%Z)).
Proof.
  intros Hlog Hact (H0 & Hlt & Hend & Fa & Fb & Hs1 & Hs2 & Hb1 & Hb2) Hnow.
  cbn zeta.
  destruct (scene_fraction_f_spec (sw_gScene w) nowSmp H0 Hlt Hend Hnow)
    as (Hfrac & Hunit & Hat0 & Hat1 & Hbelow).
  pose proof (scene_crossfade_f_fields sqrtf expf logf nowSmp w) as Hf.
  cbn zeta in Hf.
  destruct Hf as (Ftri & _ & _ & _ & Fcut & Fspc & Fbpm & Fact).
  rewrite Hact in Fact.
  rewrite <- Hfrac.
  set (t := scene_fraction_f (sw_gScene w) nowSmp) in *.
  assert (Hsm : smooth_f t = rn24 (rn24 (t * t) * rn24 (3 - rn24 (2 * t)))).
  { unfold smooth_f. rewrite (Qltb_false t 0), (Qltb_false 1 t) by tauto. reflexivity. }
  rewrite <- Hsm.
  set (e := smooth_f t) in *.
  rewrite Ftri, Fcut, Fspc, Fbpm, Fact.
  change (rn24 (tg_triMix (sc_start (sw_gScene w))
                + rn24 (rn24 (tg_triMix (sc_target (sw_gScene w))
                              - tg_triMix (sc_start (sw_gScene w))) * e)))
    with (lerp_f (tg_triMix (sc_start (sw_gScene w)))
                 (tg_triMix (sc_target (sw_gScene w))) e).
  change (rn24 (logf (tg_lpfCutHz (sc_start (sw_gScene w)))
                + rn24 (rn24 (logf (tg_lpfCutHz (sc_target (sw_gScene w)))
                              - logf (tg_lpfCutHz (sc_start (sw_gScene w)))) * e)))
    with (lerp_f (logf (tg_lpfCutHz (sc_start (sw_gScene w))))
                 (logf (tg_lpfCutHz (sc_target (sw_gScene w)))) e).
  split; [exact Hunit|].
  split; [repeat split; reflexivity|].
  split; [|split; [|split]].
  - intros Hnow0. pose proof (Hat0 Hnow0) as Ht0.
    pose proof (smooth_f_0 t Ht0) as He. fold e in He.
    split; [exact Ht0|]. split; [exact He|].
    split; [apply lerp_f_0; assumption|].
    split; [apply lerp_f_0; [exact He | apply Hlog]|].
    split; [rewrite (int_lerp_f_0 _ _ e) by (try lia; exact He); apply clamp_int_id; lia|].
    split; [rewrite (int_lerp_f_0 _ _ e) by (try lia; exact He); apply clamp_int_id; lia|].
    destruct (Qleb_spec 1 t); [lra | reflexivity].
  - intros Hnow1. pose proof (Hat1 Hnow1) as Ht1.
    pose proof (smooth_f_1 t Ht1) as He. fold e in He.
    split; [exact Ht1|]. split; [exact He|].
    split; [rewrite (int_lerp_f_1 _ _ e) by (try lia; exact He); apply clamp_int_id; lia|].
    split; [rewrite (int_lerp_f_1 _ _ e) by (try lia; exact He); apply clamp_int_id; lia|].
    split; [apply lerp_f_1; exact He|].
    split; [apply lerp_f_1_near; exact He|].
    split; [apply lerp_f_1; exact He|].
    split; [apply lerp_f_1_near; exact He|].
    destruct (Qleb_spec 1 t); [reflexivity | lra].
  - destruct (Qleb_spec 1 t) as [Hge | Hlt1].
    + split; [intros _; exact Hge | reflexivity].
    + split; [discriminate | lra].
  - intros Hshort. split.
    + intros Hoff. destruct (Z.le_gt_cases (sc_tEndSmp (sw_gScene w)) nowSmp) as [Hle | Hgt];
        [exact Hle|].
      exfalso. pose proof (Hbelow Hshort Hgt) as Hb.
      destruct (Qleb_spec 1 t); [lra | discriminate].
    + intros Hle. pose proof (Hat1 Hle) as H1.
      destruct (Qleb_spec 1 t); [reflexivity | lra].
Qed.

Lemma fade_world_f_in_domain : fade_in_domain (sw_gScene fade_world_f).
Proof.
  unfold fade_in_domain; cbn [fade_world_f sw_gScene sc_tStartSmp sc_tEndSmp sc_start
    sc_target tg_triMix tg_spacePercent tg_tempoBPM].
  repeat split; try apply is_float_rn24; try reflexivity; try discriminate.
Qed.

Lemma scene_crossfade_float_ends_witness :
  let w' := scene_crossfade_f sqrtf6 expf_r logf_r 442000 fade_world_f in
  let a := rn24 (17 # 100) in
  let b := rn24 (46 # 100) in
  sc_active (sw_gScene fade_world_f) = true /\
  fade_in_domain (sw_gScene fade_world_f) /\
  (1000 <= 442000 < 2 ^ 64)%Z /\
  spacePercent (sw_params w') = 30%Z /\
  tempoBPM (sw_params w') = 109%Z /\
  pad_triMix (sw_pad w') == rn24 (a + rn24 (b - a)) /\
  Qabs (pad_triMix (sw_pad w') - b) <= (3 # 16777216) * (Qabs a + Qabs b) /\
  sc_active (sw_gScene w') = false.
Proof.
  cbn zeta.
  assert (Hnow : (1000 <= 442000 < 2 ^ 64)%Z) by (split; [discriminate | reflexivity]).
  split; [reflexivity|]. split; [exact fade_world_f_in_domain|]. split; [exact Hnow|].
  pose proof (proj1 (proj2 (proj2 (proj2
    (scene_crossfade_float_ends sqrtf6 expf_r logf_r 442000 fade_world_f
       (fun x => is_float_rn24 (x - 1)) eq_refl fade_world_f_in_domain Hnow)))))
    as H.
  cbn zeta in H.
  destruct (H ltac:(discriminate)) as (_ & _ & Hs & Hb & Htri & Hnear & _ & _ & Hoff).
  exact (conj Hs (conj Hb (conj Htri (conj Hnear Hoff)))).
Defined.

(** A fade from triMix 0.17f to 0.46f, at its last sample: the fraction
    and the smoothstep are exactly 1, and the triMix written,
    [0.17f + (0.46f - 0.17f) * 1], is the float next above 0.46f.  The
    binary32 operations give the same two floats. *)
Lemma scene_crossfade_end_not_exact :
  let w' := scene_crossfade_f sqrtf6 expf_r logf_r 442000 fade_world_f in
  sc_active (sw_gScene fade_world_f) = true /\
  scene_fraction_f (sw_gScene fade_world_f) 442000 == 1 /\
  smooth_f (scene_fraction_f (sw_gScene fade_world_f) 442000) == 1 /\
  tg_triMix (sc_target (sw_gScene fade_world_f)) == 15435039 # 33554432 /\
  pad_triMix (sw_pad w') == 15435040 # 33554432 /\
  ~ pad_triMix (sw_pad w') == tg_triMix (sc_target (sw_gScene fade_world_f)) /\
  B32.div (B32.of_Z 441000) (B32.of_Z 441000) = B32.one /\
  B32.smooth_b32 B32.one = B32.one /\
  B32.lit 46 100 = SpecFloat.S754_finite false 15435039 (-25) /\
  B32.lerp_b32 (B32.lit 17 100) (B32.lit 46 100) B32.one
  = SpecFloat.S754_finite false 15435040 (-25) /\
  B32.lerp_b32 (B32.lit 17 100) (B32.lit 46 100) B32.one <> B32.lit 46 100.
Proof.
  cbn zeta.
  split; [reflexivity|].
  split; [vm_compute; reflexivity|].
  split; [vm_compute; reflexivity|].
  split; [vm_compute; reflexivity|].
  split; [vm_compute; reflexivity|].
  split; [vm_compute; discriminate|].
  split; [vm_compute; reflexivity|].
  split; [vm_compute; reflexivity|].
  split; [vm_compute; reflexivity|].
  split; [vm_compute; reflexivity|].
  vm_compute. discriminate.
Qed.

(** The same fade on numbers: half way ([t = 1/2], [e = 1/2]) triMix is
    the float nearest 0.315, space and tempo are the rounded midpoints; at
    the end space and tempo are the targets and the fade is off. *)
Example scene_crossfade_f_run :
  let mid := scene_crossfade_f sqrtf6 expf_r logf_r 221500 fade_world_f in
  let fin := scene_crossfade_f sqrtf6 expf_r logf_r 442000 fade_world_f in
  scene_fraction_f (sw_gScene fade_world_f) 221500 == 1 # 2 /\
  pad_triMix (sw_pad mid) == rn24 (315 # 1000) /\
  (spacePercent (sw_params mid), tempoBPM (sw_params mid),
   sc_active (sw_gScene mid), sw_gScale mid)
  = (38, 107, true, SCALE_D_DORIAN)%Z /\
  (spacePercent (sw_params fin), tempoBPM (sw_params fin),
   sc_active (sw_gScene fin), sw_gScale fin, dl_mode (sw_gDelay fin))
  = (30, 109, false, SCALE_D_DORIAN, DELAY_1_8)%Z.
Proof. vm_compute. repeat split; reflexivity. Qed.
